(** * Path-data engine of ShapeShifter: [svgpathdata.ts]

    A shallow embedding of [src/app/scripts/svgpathdata.ts]: the derivation
    pass [initInternalState], the grouping [createSubPathCommands], the
    morphability predicate, [interpolate], [project] and the split
    machinery of [DrawCommandWrapper].

    Draw commands are JavaScript objects that are shared between the
    wrappers and the sub-path groups and are mutated in place, so they live
    in an explicit object store ([heap]) and everything else refers to them
    by reference ([loc]).  Code that can throw returns a [result]. *)

From Stdlib Require Import QArith.
From stdpp Require Import base option list sorting gmap strings pretty.

(** ** Errors *)

Inductive error :=
| TypeError                                (* property read on undefined *)
| UnsupportedOperation (msg : string).     (* [throw new Error (msg)] *)

Inductive result (A : Type) :=
| Ok (a : A)
| Err (e : error).
Arguments Ok {A} a.
Arguments Err {A} e.

#[global] Instance result_ret : MRet result := λ A, @Ok A.
#[global] Instance result_bind : MBind result := λ A B f r,
  match r with Ok a => f a | Err e => Err e end.
#[global] Instance result_fmap : FMap result := λ A B f r,
  match r with Ok a => Ok (f a) | Err e => Err e end.

(** ** External collaborators

    [mathutil.ts], [bezierutil.ts], [svgutil.ts], [pathparser.ts] and
    lodash are not part of the sources; the engine is parametric in them. *)

(** JavaScript numbers, with the operations the engine applies to them. *)
Class Numeric (num : Type) := {
  num_zero : num;
  num_one : num;
  num_inf : num;                           (* [Infinity] *)
  num_neg_inf : num;                       (* [-Infinity] *)
  num_nan : num;                           (* stands for [undefined] read as a number *)
  num_add : num → num → num;
  num_min : num → num → num;               (* [Math.min] *)
  num_max : num → num → num;               (* [Math.max] *)
  num_eqb : num → num → bool;              (* [===] *)
  num_ltb : num → num → bool;              (* [<] *)
  lerp : num → num → num → num;            (* [MathUtil.lerp] *)
}.

Record Point {num : Type} := mkPoint { pt_x : num; pt_y : num }.
Arguments Point num : clear implicits.
Arguments mkPoint {num} _ _.

Record Rect {num : Type} := mkRect { rect_l : num; rect_t : num; rect_r : num; rect_b : num }.
Arguments Rect num : clear implicits.
Arguments mkRect {num} _ _ _ _.

(** The result of [Bezier.project]. *)
Record Projection {num : Type} := mkProjection {
  proj_point : Point num;
  proj_t : num;
  proj_d : num;
}.
Arguments Projection num : clear implicits.
Arguments mkProjection {num} proj_point proj_t proj_d.

Record BBox {num : Type} := mkBBox {
  bbox_x_min : num; bbox_x_max : num; bbox_y_min : num; bbox_y_max : num
}.
Arguments BBox num : clear implicits.
Arguments mkBBox {num} _ _ _ _.

(** The Bezier kernel of [bezierutil.ts], [MathUtil.distance], the value of
    [new Point] without arguments, and [SvgUtil.arcToBeziers]. *)
Class Geometry (num Bezier : Type) := {
  new_Bezier : list (Point num) → Bezier;
  bez_start : Bezier → Point num;
  bez_cp1 : Bezier → Point num;
  bez_cp2 : Bezier → Point num;
  bez_end : Bezier → Point num;
  bez_length : Bezier → num;
  bez_bbox : Bezier → BBox num;
  bez_project : Bezier → Point num → Projection num;
  bez_split : Bezier → num → num → Bezier;
  distance : Point num → Point num → num;
  new_Point : Point num;
  arcToBeziers : num → num → num → num → num → num → num → num → num → list num;
}.

(** ** Draw commands and the object store *)

(** Modelled from the spec: the classes of [svgcommands.ts], which is not
    part of the sources.  The six variants, as tested by [instanceof] and
    compared through [constructor]. *)
Inductive CommandKind :=
| MoveCommand
| LineCommand
| QuadraticCurveCommand
| BezierCurveCommand
| EllipticalArcCommand
| ClosePathCommand.

#[global] Instance CommandKind_eq_dec : EqDecision CommandKind.
Proof. solve_decision. Defined.

(** A reference to a [DrawCommand] object. *)
Definition loc := nat.

(** The closure stored in [onDeleteCommandClick] captures the wrapper
    ([this], named by its position in [drawCommandWrappers_]) and the loop
    index [i]. *)
Record DeleteClosure := mkDeleteClosure { del_wrapper : nat; del_index : nat }.

(** Modelled from the spec: a [DrawCommand] of [svgcommands.ts], with the
    members [svgpathdata.ts] reads and writes: an ordered list of points,
    any of which may be absent, the raw arguments of an arc, and the
    delete closure. *)
Record DrawCommand {num : Type} := mkDrawCommand {
  ctor : CommandKind;                      (* [constructor] / [instanceof] *)
  points : list (option (Point num));      (* entries may be absent *)
  args : list num;                         (* raw arguments of an arc *)
  onDeleteCommandClick : option DeleteClosure;
}.
Arguments DrawCommand num : clear implicits.
Arguments mkDrawCommand {num} ctor points args onDeleteCommandClick.

#[global] Instance DrawCommand_inhabited {num} : Inhabited (DrawCommand num) :=
  populate (mkDrawCommand MoveCommand [] [] None).

(** Modelled from the spec: [new SubPathCommand(...cmds)] of
    [svgcommands.ts] holds the commands it is given, in order. *)
Record SubPathCommand := mkSubPathCommand { spc_commands : list loc }.

(** Flattened view of a list of sub-paths. *)
Definition flatten (cs : list SubPathCommand) : list loc :=
  concat (spc_commands <$> cs).

Section Grouping.
Context {num : Type}.

Definition instanceof (k : CommandKind) (h : gmap loc (DrawCommand num)) (c : loc) : bool :=
  bool_decide (ctor (h !!! c) = k).

(** One iteration of the backward loop of [createSubPathCommands]. *)
Definition group_step (h : gmap loc (DrawCommand num))
    (st : list (list loc) * list loc) (cmd : loc) : list (list loc) * list loc :=
  let '(cmdGroups, currentCmdList) := st in
  let currentCmdList := currentCmdList ++ [cmd] in
  if instanceof MoveCommand h cmd
  then (cmdGroups ++ [currentCmdList], [])
  else (cmdGroups, currentCmdList).

Definition createSubPathCommands (h : gmap loc (DrawCommand num))
    (drawCommands : list loc) : list SubPathCommand :=
  if bool_decide (length drawCommands = 0) then []
  else
    let '(cmdGroups, _) := foldl (group_step h) ([], []) (reverse drawCommands) in
    (λ cmds, mkSubPathCommand (reverse cmds)) <$> reverse cmdGroups.

(** The commands in front of the first [MoveCommand]. *)
Fixpoint beforeFirstMove (h : gmap loc (DrawCommand num)) (cmds : list loc) : list loc :=
  match cmds with
  | [] => []
  | c :: cmds' => if instanceof MoveCommand h c then [] else c :: beforeFirstMove h cmds'
  end.

Fixpoint fromFirstMove (h : gmap loc (DrawCommand num)) (cmds : list loc) : list loc :=
  match cmds with
  | [] => []
  | c :: cmds' => if instanceof MoveCommand h c then cmds else fromFirstMove h cmds'
  end.
End Grouping.


(** ** Wrappers and the aggregate *)

Record DrawCommandWrapper {num Bezier : Type} := mkWrapper {
  sourceCommand : loc;
  sourceBeziers : list Bezier;
  splits : list num;
  splitCommands : list loc;
}.
Arguments DrawCommandWrapper num Bezier : clear implicits.
Arguments mkWrapper {num Bezier} _ _ _ _.

(** The back reference [svgPathData] of a wrapper is its owner: the record
    whose [drawCommandWrappers_] holds it. *)
Record SvgPathData {num Bezier : Type} := mkSvgPathData {
  originalDrawCommands_ : list loc;
  drawCommandWrappers_ : list (DrawCommandWrapper num Bezier);
  commands_ : list SubPathCommand;
  path_ : string;
  length_ : num;
  bounds_ : Rect num;
}.
Arguments SvgPathData num Bezier : clear implicits.
Arguments mkSvgPathData {num Bezier} _ _ _ _ _ _.

(** What [project] returns: the projection and the [split] closure, which
    captures the wrapper and the projection. *)
Record ProjectionInfo {num : Type} := mkProjectionInfo {
  projection : Projection num;
  split_wrapper : nat;
}.
Arguments ProjectionInfo num : clear implicits.
Arguments mkProjectionInfo {num} _ _.

(** State threaded through [initInternalState]. *)
Record InternalState {num Bezier : Type} := mkInternalState {
  st_length : num;
  bounds : Rect num;
  firstPoint : option (Point num);
  currentPoint : Point num;
  drawCommandWrappers : list (DrawCommandWrapper num Bezier);
}.
Arguments InternalState num Bezier : clear implicits.
Arguments mkInternalState {num Bezier} _ _ _ _ _.

(** ** Loops that can throw *)

Fixpoint forEachM {A St : Type} (f : St → A → result St) (s : St) (xs : list A) : result St :=
  match xs with
  | [] => Ok s
  | a :: xs' => s' ← f s a; forEachM f s' xs'
  end.

(** [xs.forEach((a, i) => ...)], the index starting at [i]. *)
Fixpoint forEachM_i {A St : Type} (f : nat → St → A → result St) (i : nat) (s : St)
    (xs : list A) : result St :=
  match xs with
  | [] => Ok s
  | a :: xs' => s' ← f i s a; forEachM_i f (S i) s' xs'
  end.

(** [xs.every((a, i) => ...)]: stops at the first [false]. *)
Fixpoint every_i {A : Type} (f : nat → A → result bool) (i : nat) (xs : list A) : result bool :=
  match xs with
  | [] => Ok true
  | a :: xs' => ok ← f i a; if ok : bool then every_i f (S i) xs' else Ok false
  end.

(** A property read on a value that may be [undefined]. *)
Definition required {A : Type} (o : option A) : result A :=
  match o with Some a => Ok a | None => Err TypeError end.

(** [xs[i] = v] on a JavaScript array: past the end the array grows, the
    gap being absent entries. *)
Definition array_set {A : Type} (xs : list (option A)) (i : nat) (v : A) : list (option A) :=
  if bool_decide (i < length xs) then <[i := Some v]> xs
  else xs ++ replicate (i - length xs) None ++ [Some v].

Section Engine.
Context {num Bezier : Type} `{!Numeric num} `{!Geometry num Bezier}.
(** [PathParser.parseCommands] and [PathParser.commandsToString]. *)
Variable parseCommands : string → list (DrawCommand num).
Variable commandsToString : list (DrawCommand num) → string.

Abbreviation heap := (gmap loc (DrawCommand num)).
Abbreviation Wrapper := (DrawCommandWrapper num Bezier).
Abbreviation PathData := (SvgPathData num Bezier).
Abbreviation State := (InternalState num Bezier).

(** [ps[i]]: [undefined] when out of range or absent. *)
Definition point_at (ps : list (option (Point num))) (i : nat) : option (Point num) :=
  mjoin (ps !! i).

(** [a[i]] on numbers; [undefined] is represented by [num_nan]. *)
Definition arg_at (a : list num) (i : nat) : num := default num_nan (a !! i).

Definition set_points (c : DrawCommand num) ps : DrawCommand num :=
  mkDrawCommand (ctor c) ps (args c) (onDeleteCommandClick c).
Definition set_args (c : DrawCommand num) a : DrawCommand num :=
  mkDrawCommand (ctor c) (points c) a (onDeleteCommandClick c).
Definition set_onDeleteCommandClick (c : DrawCommand num) f : DrawCommand num :=
  mkDrawCommand (ctor c) (points c) (args c) f.

(** [new C(...)]: a fresh object. *)
Definition alloc (h : heap) (c : DrawCommand num) : heap * loc :=
  let a := fresh (dom h) in (<[a := c]> h, a).

(** *** The derivation pass: [initInternalState] *)

Definition expandBounds_ (bounds : Rect num) (x y : num) : Rect num :=
  mkRect (num_min x (rect_l bounds)) (num_min y (rect_t bounds))
         (num_max x (rect_r bounds)) (num_max y (rect_b bounds)).

Definition expandBoundsToBezier_ (bounds : Rect num) (bez : Bezier) : Rect num :=
  let bbox := bez_bbox bez in
  let bounds := expandBounds_ bounds (bbox_x_min bbox) (bbox_y_min bbox) in
  let bounds := expandBounds_ bounds (bbox_x_max bbox) (bbox_y_min bbox) in
  let bounds := expandBounds_ bounds (bbox_x_min bbox) (bbox_y_max bbox) in
  expandBounds_ bounds (bbox_x_max bbox) (bbox_y_max bbox).

(** [new DrawCommandWrapper(svgPathData, cmd, ...beziers)]. *)
Definition new_DrawCommandWrapper (cmd : loc) (beziers : list Bezier) : Wrapper :=
  mkWrapper cmd beziers [] [].

Definition push_wrapper (st : State) (w : Wrapper) : State :=
  mkInternalState (st_length st) (bounds st) (firstPoint st) (currentPoint st)
    (drawCommandWrappers st ++ [w]).

(** One iteration of the [for] loop over [bezierCoords], at offset [i]. *)
Definition arc_iter (bezierCoords : list num) (acc : State * list Bezier) (i : nat)
    : State * list Bezier :=
  let '(st, arcBeziers) := acc in
  let bez := new_Bezier
    [ mkPoint (pt_x (currentPoint st)) (pt_y (currentPoint st));
      mkPoint (arg_at bezierCoords (i + 2)) (arg_at bezierCoords (i + 3));
      mkPoint (arg_at bezierCoords (i + 4)) (arg_at bezierCoords (i + 5));
      mkPoint (arg_at bezierCoords (i + 6)) (arg_at bezierCoords (i + 7)) ] in
  (mkInternalState (num_add (st_length st) (bez_length bez))
     (expandBoundsToBezier_ (bounds st) bez)
     (firstPoint st)
     (mkPoint (arg_at bezierCoords (i + 6)) (arg_at bezierCoords (i + 7)))
     (drawCommandWrappers st),
   arcBeziers ++ [bez]).

(** The body of [commands.forEach(cmd => ...)].  A point that the branch
    dereferences and that is absent makes the iteration throw. *)
Definition init_step (h : heap) (st : State) (cmd : loc) : result State :=
  let c := h !!! cmd in
  match ctor c with
  | MoveCommand =>
      nextPoint ← required (point_at (points c) 1);
      Ok (mkInternalState (st_length st)
            (expandBounds_ (bounds st) (pt_x nextPoint) (pt_y nextPoint))
            (match firstPoint st with None => Some nextPoint | Some p => Some p end)
            nextPoint
            (drawCommandWrappers st ++ [new_DrawCommandWrapper cmd []]))
  | LineCommand =>
      nextPoint ← required (point_at (points c) 1);
      Ok (mkInternalState (num_add (st_length st) (distance (currentPoint st) nextPoint))
            (expandBounds_ (bounds st) (pt_x nextPoint) (pt_y nextPoint))
            (firstPoint st)
            nextPoint
            (drawCommandWrappers st ++
               [new_DrawCommandWrapper cmd
                  [new_Bezier [currentPoint st; currentPoint st; nextPoint; nextPoint]]]))
  | ClosePathCommand =>
      let st :=
        match firstPoint st with
        | Some first =>
            mkInternalState (num_add (st_length st) (distance first (currentPoint st)))
              (bounds st) (firstPoint st) (currentPoint st)
              (drawCommandWrappers st ++
                 [new_DrawCommandWrapper cmd
                    [new_Bezier [currentPoint st; currentPoint st; first; first]]])
        | None => st
        end in
      Ok (mkInternalState (st_length st) (bounds st) None (currentPoint st)
            (drawCommandWrappers st))
  | BezierCurveCommand =>
      p1 ← required (point_at (points c) 1);
      p2 ← required (point_at (points c) 2);
      p3 ← required (point_at (points c) 3);
      let bez := new_Bezier [currentPoint st; p1; p2; p3] in
      Ok (mkInternalState (num_add (st_length st) (bez_length bez))
            (expandBoundsToBezier_ (bounds st) bez)
            (firstPoint st)
            p3
            (drawCommandWrappers st ++ [new_DrawCommandWrapper cmd [bez]]))
  | QuadraticCurveCommand =>
      p1 ← required (point_at (points c) 1);
      p2 ← required (point_at (points c) 2);
      let bez := new_Bezier [currentPoint st; p1; p2] in
      Ok (mkInternalState (num_add (st_length st) (bez_length bez))
            (expandBoundsToBezier_ (bounds st) bez)
            (firstPoint st)
            p2
            (drawCommandWrappers st ++ [new_DrawCommandWrapper cmd [bez]]))
  | EllipticalArcCommand =>
      let a := args c in
      let currentPointX := arg_at a 0 in
      let currentPointY := arg_at a 1 in
      let rx := arg_at a 2 in
      let ry := arg_at a 3 in
      let xAxisRotation := arg_at a 4 in
      let largeArcFlag := arg_at a 5 in
      let sweepFlag := arg_at a 6 in
      let tempPoint1X := arg_at a 7 in
      let tempPoint1Y := arg_at a 8 in
      if num_eqb currentPointX tempPoint1X && num_eqb currentPointY tempPoint1Y then
        (* degenerate to point (0 length) *)
        Ok (push_wrapper st (new_DrawCommandWrapper cmd []))
      else if num_eqb rx num_zero || num_eqb ry num_zero then
        (* degenerate to line *)
        let nextPoint := new_Point in
        Ok (mkInternalState
              (num_add (st_length st)
                 (distance (mkPoint currentPointX currentPointY)
                           (mkPoint tempPoint1X tempPoint1Y)))
              (expandBounds_ (bounds st) tempPoint1X tempPoint1Y)
              (firstPoint st)
              nextPoint
              (drawCommandWrappers st ++
                 [new_DrawCommandWrapper cmd
                    [new_Bezier [currentPoint st; currentPoint st; nextPoint; nextPoint]]]))
      else
        let bezierCoords :=
          arcToBeziers currentPointX currentPointY rx ry xAxisRotation
            largeArcFlag sweepFlag tempPoint1X tempPoint1Y in
        let '(st, arcBeziers) :=
          foldl (arc_iter bezierCoords) (st, [])
            ((λ q, 8 * q) <$> seq 0 ((length bezierCoords + 7) `div` 8)) in
        Ok (mkInternalState (st_length st) (bounds st) (firstPoint st)
              (mkPoint tempPoint1X tempPoint1Y)
              (drawCommandWrappers st ++ [new_DrawCommandWrapper cmd arcBeziers]))
  end.

Definition initial_state : State :=
  mkInternalState num_zero (mkRect num_inf num_inf num_neg_inf num_neg_inf)
    None (mkPoint num_zero num_zero) [].

(** Returns the final loop state; the source returns its [length],
    [bounds] and [drawCommandWrappers]. *)
Definition initInternalState (h : heap) (commands : list loc) : result State :=
  forEachM (init_step h) initial_state commands.

(** *** [DrawCommandWrapper] *)

(** [(prev, curr) => prev && prev.d < curr.d ? prev : curr], the callback
    of both [reduce] calls; [d] reads the distance of a candidate. *)
Definition closer {A : Type} (d : A → num) (prev : option A) (curr : A) : option A :=
  match prev with
  | Some p => if num_ltb (d p) (d curr) then Some p else Some curr
  | None => Some curr
  end.

Definition DrawCommandWrapper_project (cw : Wrapper) (point : Point num)
    : option (Projection num) :=
  foldl (closer proj_d) None ((λ bez, bez_project bez point) <$> sourceBeziers cw).

Definition bezierToDrawCommand (h : heap) (cw : Wrapper) (bezier : Bezier)
    : result (DrawCommand num) :=
  match ctor (h !!! sourceCommand cw) with
  | LineCommand =>
      Ok (mkDrawCommand LineCommand
            [Some (bez_start bezier); Some (bez_end bezier)] [] None)
  | ClosePathCommand =>
      Ok (mkDrawCommand ClosePathCommand
            [Some (bez_start bezier); Some (bez_end bezier)] [] None)
  | QuadraticCurveCommand =>
      Ok (mkDrawCommand QuadraticCurveCommand
            [Some (bez_start bezier); Some (bez_cp1 bezier); Some (bez_end bezier)] [] None)
  | BezierCurveCommand =>
      Ok (mkDrawCommand BezierCurveCommand
            [Some (bez_start bezier); Some (bez_cp1 bezier); Some (bez_cp2 bezier);
             Some (bez_end bezier)] [] None)
  | _ => Err (UnsupportedOperation "TODO: implement split for ellpitical arcs")
  end.

(** One iteration of [for (let currT of splits)]: the state is the store,
    [prevT] and the commands pushed so far. *)
Definition split_iter (cw : Wrapper) (acc : heap * num * list loc) (currT : num)
    : result (heap * num * list loc) :=
  let '(h, prevT, cmds) := acc in
  bez0 ← required (sourceBeziers cw !! 0);
  let bez := bez_split bez0 prevT currT in
  c ← bezierToDrawCommand h cw bez;
  let '(h, a) := alloc h c in
  Ok (h, currT, cmds ++ [a]).

Definition rebuildSplitCommands (h : heap) (cw : Wrapper) : result (heap * Wrapper) :=
  if bool_decide (length (splits cw) = 0) then
    Ok (h, mkWrapper (sourceCommand cw) (sourceBeziers cw) (splits cw) [])
  else
    '(h, _, cmds) ← forEachM (split_iter cw) (h, num_zero, []) (splits cw ++ [num_one]);
    Ok (h, mkWrapper (sourceCommand cw) (sourceBeziers cw) (splits cw) cmds).

(** lodash's [_.sortedIndex]: the lowest index at which [v] can be
    inserted into the sorted [xs] keeping it sorted. *)
Fixpoint sortedIndex (xs : list num) (v : num) : nat :=
  match xs with
  | [] => 0
  | a :: xs' => if num_ltb a v then S (sortedIndex xs' v) else 0
  end.

(** [xs.splice(i, 0, v)]. *)
Definition splice_insert {A : Type} (xs : list A) (i : nat) (v : A) : list A :=
  take i xs ++ v :: drop i xs.

Definition split (h : heap) (cw : Wrapper) (t : num) : result (heap * Wrapper) :=
  if bool_decide (length (sourceBeziers cw) = 0) then Ok (h, cw)
  else if instanceof EllipticalArcCommand h (sourceCommand cw) then
    Err (UnsupportedOperation "TODO: implement split support for elliptical arcs")
  else
    rebuildSplitCommands h
      (mkWrapper (sourceCommand cw) (sourceBeziers cw)
         (splice_insert (splits cw) (sortedIndex (splits cw) t) t) (splitCommands cw)).

(** The getter [commands] of the wrapper at position [wi]: it installs
    the delete closures on all split commands but the last. *)
Definition install_delete (wi : nat) (cw : Wrapper) (h : heap) (i : nat) : heap :=
  match splitCommands cw !! i with
  | Some cmd =>
      <[cmd := set_onDeleteCommandClick (h !!! cmd) (Some (mkDeleteClosure wi i))]> h
  | None => h
  end.

Definition DrawCommandWrapper_commands (wi : nat) (h : heap) (cw : Wrapper)
    : heap * list loc :=
  if bool_decide (length (splitCommands cw) ≠ 0) then
    (foldl (install_delete wi cw) h (seq 0 (length (splitCommands cw) - 1)),
     splitCommands cw)
  else (h, [sourceCommand cw]).

(** *** [SvgPathData] *)

(** [this.drawCommandWrappers_.map(cw => cw.commands)], concatenated. *)
Fixpoint wrappers_commands (wi : nat) (h : heap) (cws : list Wrapper) : heap * list loc :=
  match cws with
  | [] => (h, [])
  | cw :: cws' =>
      let '(h, cmds) := DrawCommandWrapper_commands wi h cw in
      let '(h, rest) := wrappers_commands (S wi) h cws' in
      (h, cmds ++ rest)
  end.

Definition rebuildInternalState (rebuildPathString : bool) (h : heap) (self : PathData)
    : heap * PathData :=
  let '(h, drawCommands) := wrappers_commands 0 h (drawCommandWrappers_ self) in
  let path := if rebuildPathString
              then commandsToString ((λ c, h !!! c) <$> drawCommands)
              else path_ self in
  (h, mkSvgPathData (originalDrawCommands_ self) (drawCommandWrappers_ self)
        (createSubPathCommands h drawCommands) path (length_ self) (bounds_ self)).

(** The parser returns fresh command objects. *)
Fixpoint alloc_all (h : heap) (cs : list (DrawCommand num)) : heap * list loc :=
  match cs with
  | [] => (h, [])
  | c :: cs' =>
      let '(h, a) := alloc h c in
      let '(h, rest) := alloc_all h cs' in
      (h, a :: rest)
  end.

(** [new SvgPathData(path)], once the parser has returned the command
    objects [originalDrawCommands]. *)
Definition construct (h : heap) (path : string) (originalDrawCommands : list loc)
    : result (heap * PathData) :=
  st ← initInternalState h originalDrawCommands;
  Ok (rebuildInternalState false h
        (mkSvgPathData originalDrawCommands (drawCommandWrappers st) [] path
           (st_length st) (bounds st))).

(** [new SvgPathData(path)]. *)
Definition new_SvgPathData (h : heap) (path : string) : result (heap * PathData) :=
  let '(h, originalDrawCommands) := alloc_all h (parseCommands path) in
  construct h path originalDrawCommands.

Definition toString (self : PathData) : string := path_ self.

(** The callback of the inner [every]. *)
Definition morphable_cmd (h : heap) (other : SubPathCommand) (j : nat) (d : loc)
    : result bool :=
  drawCmd ← required (spc_commands other !! j);
  Ok (bool_decide (ctor (h !!! d) = ctor (h !!! drawCmd))
      && bool_decide (length (points (h !!! d)) = length (points (h !!! drawCmd)))).

(** The callback of the outer [every]. *)
Definition morphable_sub (h : heap) (cmd : PathData) (i : nat) (s : SubPathCommand)
    : result bool :=
  other ← required (commands_ cmd !! i);
  if bool_decide (length (spc_commands s) = length (spc_commands other))
  then every_i (morphable_cmd h other) 0 (spc_commands s)
  else Ok false.

Definition isMorphableWith (h : heap) (self cmd : PathData) : result bool :=
  if bool_decide (length (commands_ self) = length (commands_ cmd))
  then every_i (morphable_sub h cmd) 0 (commands_ self)
  else Ok false.

(** [d.args[k] = v] for [k] below [d.args.length]. *)
Definition write_arg (h : heap) (d : loc) (k : nat) (v : num) : heap :=
  <[d := set_args (h !!! d) (<[k := v]> (args (h !!! d)))]> h.

(** [d.points[k] = p]. *)
Definition write_point (h : heap) (d : loc) (k : nat) (p : Point num) : heap :=
  <[d := set_points (h !!! d) (array_set (points (h !!! d)) k p)]> h.

(** The callback of [d.args.forEach((_, i) => ...)]; [d1] and [d2] may be
    [undefined], which shows when their [args] are read. *)
Definition interpolate_arg (d : loc) (d1 d2 : option loc) (fraction : num)
    (k : nat) (h : heap) (_ : num) : result heap :=
  if bool_decide (k = 5) || bool_decide (k = 6) then
    (* Doesn't make sense to interpolate the large arc and sweep flags. *)
    if num_eqb fraction num_zero then
      d1 ← required d1; Ok (write_arg h d k (arg_at (args (h !!! d1)) k))
    else
      d2 ← required d2; Ok (write_arg h d k (arg_at (args (h !!! d2)) k))
  else
    d1 ← required d1;
    d2 ← required d2;
    Ok (write_arg h d k
          (lerp (arg_at (args (h !!! d1)) k) (arg_at (args (h !!! d2)) k) fraction)).

(** The body of [for (let i = 0; i < d1.points.length; i++)]. *)
Definition interpolate_point (d d1 : loc) (d2 : option loc) (fraction : num)
    (h : heap) (k : nat) : result heap :=
  let startPoint := point_at (points (h !!! d1)) k in
  d2 ← required d2;
  let endPoint := point_at (points (h !!! d2)) k in
  match startPoint, endPoint with
  | Some startPoint, Some endPoint =>
      let x := lerp (pt_x startPoint) (pt_x endPoint) fraction in
      let y := lerp (pt_y startPoint) (pt_y endPoint) fraction in
      Ok (write_point h d k (mkPoint x y))
  | _, _ => Ok h
  end.

(** The callback of [s.commands.forEach((d, j) => ...)] in sub-path [i].
    The bound [d1.points.length] is read once: the loop writes [d.points]
    only, and below that bound when [d] and [d1] are the same object. *)
Definition interpolate_cmd (start end_ : PathData) (fraction : num) (i j : nat)
    (h : heap) (d : loc) : result heap :=
  s1 ← required (commands_ start !! i);
  let d1 := spc_commands s1 !! j in
  s2 ← required (commands_ end_ !! i);
  let d2 := spc_commands s2 !! j in
  if instanceof EllipticalArcCommand h d then
    forEachM_i (interpolate_arg d d1 d2 fraction) 0 h (args (h !!! d))
  else
    d1 ← required d1;
    forEachM (interpolate_point d d1 d2 fraction) h
      (seq 0 (length (points (h !!! d1)))).

(** [interpolate]: in [!a || !b] the second check is evaluated only when
    the first one holds; the early [return] leaves everything as it is. *)
Definition interpolate (h : heap) (self start end_ : PathData) (fraction : num)
    : result (heap * PathData) :=
  m1 ← isMorphableWith h self start;
  m2 ← (if m1 : bool then isMorphableWith h self end_ else Ok false);
  if negb m1 || negb m2 then Ok (h, self)
  else
    h ← forEachM_i
           (λ i h s, forEachM_i (interpolate_cmd start end_ fraction i) 0 h (spc_commands s))
           0 h (commands_ self);
    Ok (rebuildInternalState false h self).

(** [project]: the candidates are the wrappers with a projection, each
    with the closure over its wrapper. *)
Fixpoint project_candidates (wi : nat) (cws : list Wrapper) (point : Point num)
    : list (ProjectionInfo num) :=
  match cws with
  | [] => []
  | cw :: cws' =>
      match DrawCommandWrapper_project cw point with
      | Some p => mkProjectionInfo p wi :: project_candidates (S wi) cws' point
      | None => project_candidates (S wi) cws' point
      end
  end.

Definition project (self : PathData) (point : Point num) : option (ProjectionInfo num) :=
  foldl (closer (λ item, proj_d (projection item))) None
    (project_candidates 0 (drawCommandWrappers_ self) point).

Definition set_wrapper (self : PathData) (wi : nat) (cw : Wrapper) : PathData :=
  mkSvgPathData (originalDrawCommands_ self) (<[wi := cw]> (drawCommandWrappers_ self))
    (commands_ self) (path_ self) (length_ self) (bounds_ self).

(** The closure [split] of a projection result:
    [cw.split(projection.t); this.rebuildInternalState(true)]. *)
Definition invoke_split (h : heap) (self : PathData) (info : ProjectionInfo num)
    : result (heap * PathData) :=
  cw ← required (drawCommandWrappers_ self !! split_wrapper info);
  '(h, cw) ← split h cw (proj_t (projection info));
  Ok (rebuildInternalState true h (set_wrapper self (split_wrapper info) cw)).

(** The closure installed by the getter [commands]:
    [this.splits.splice(i, 1); this.rebuildSplitCommands();
     this.svgPathData.rebuildInternalState()]. *)
Definition invoke_onDeleteCommandClick (h : heap) (self : PathData) (f : DeleteClosure)
    : result (heap * PathData) :=
  cw ← required (drawCommandWrappers_ self !! del_wrapper f);
  '(h, cw) ← rebuildSplitCommands h
               (mkWrapper (sourceCommand cw) (sourceBeziers cw)
                  (delete (del_index f) (splits cw)) (splitCommands cw));
  Ok (rebuildInternalState false h (set_wrapper self (del_wrapper f) cw)).

(** *** [execute] *)

(** The calls [execute] makes on the canvas context [ctx], in order;
    [executeArc] stands for [SvgUtil.executeArc(ctx, d.args)]. *)
Inductive CanvasCall :=
| beginPath
| moveTo (x y : num)
| lineTo (x y : num)
| quadraticCurveTo (cpx cpy x y : num)
| bezierCurveTo (cp1x cp1y cp2x cp2y x y : num)
| closePath
| executeArc (a : list num).

(** Modelled from the spec: the getter [end] of a [DrawCommand] in
    [svgcommands.ts], the last of its points. *)
Definition draw_end (c : DrawCommand num) : option (Point num) := mjoin (last (points c)).

(** The body of [s.commands.forEach(d => ...)] in [execute]. *)
Definition execute_cmd (h : heap) (calls : list CanvasCall) (d : loc)
    : result (list CanvasCall) :=
  let c := h !!! d in
  match ctor c with
  | MoveCommand =>
      e ← required (draw_end c); Ok (calls ++ [moveTo (pt_x e) (pt_y e)])
  | LineCommand =>
      e ← required (draw_end c); Ok (calls ++ [lineTo (pt_x e) (pt_y e)])
  | QuadraticCurveCommand =>
      p1 ← required (point_at (points c) 1);
      p2 ← required (point_at (points c) 2);
      Ok (calls ++ [quadraticCurveTo (pt_x p1) (pt_y p1) (pt_x p2) (pt_y p2)])
  | BezierCurveCommand =>
      p1 ← required (point_at (points c) 1);
      p2 ← required (point_at (points c) 2);
      p3 ← required (point_at (points c) 3);
      Ok (calls ++ [bezierCurveTo (pt_x p1) (pt_y p1) (pt_x p2) (pt_y p2) (pt_x p3) (pt_y p3)])
  | ClosePathCommand => Ok (calls ++ [closePath])
  | EllipticalArcCommand => Ok (calls ++ [executeArc (args c)])
  end.

Definition execute (h : heap) (self : PathData) : result (list CanvasCall) :=
  forEachM (λ calls s, forEachM (execute_cmd h) calls (spc_commands s))
    [beginPath] (commands_ self).

(** The variant of the command a canvas call draws. *)
Definition call_kind (c : CanvasCall) : option CommandKind :=
  match c with
  | beginPath => None
  | moveTo _ _ => Some MoveCommand
  | lineTo _ _ => Some LineCommand
  | quadraticCurveTo _ _ _ _ => Some QuadraticCurveCommand
  | bezierCurveTo _ _ _ _ _ _ => Some BezierCurveCommand
  | closePath => Some ClosePathCommand
  | executeArc _ => Some EllipticalArcCommand
  end.

(** The variants whose wrapper [bezierToDrawCommand] can turn a piece
    into a command. *)
Definition splittable (k : CommandKind) : bool :=
  match k with
  | LineCommand | ClosePathCommand | QuadraticCurveCommand | BezierCurveCommand => true
  | MoveCommand | EllipticalArcCommand => false
  end.

(** Split parameters in ascending order: no parameter is less than the
    one in front of it. *)
Definition ascending (xs : list num) : Prop :=
  Sorted (λ a b, num_ltb b a = false) xs.

(** *** Notions used to state the properties *)

(** What morphability compares of a command. *)
Definition shape (h : heap) (d : loc) : CommandKind * nat :=
  (ctor (h !!! d), length (points (h !!! d))).

(** Sub-paths, commands per sub-path, and the shape of each command. *)
Definition topology (h : heap) (p : PathData) : list (list (CommandKind * nat)) :=
  (λ s, shape h <$> spc_commands s) <$> commands_ p.

(** The aggregate is in sync with its wrappers: a rebuild does not
    change it.  Every public operation ends with a rebuild. *)
Definition in_sync (h : heap) (p : PathData) : Prop :=
  (rebuildInternalState false h p).2 = p.

(** The candidates of a [reduce] have distances that [<] orders as a
    strict weak order (no NaN among them). *)
Definition ordered_distances (ds : list num) : Prop :=
  (∀ a b c, a ∈ ds → b ∈ ds → c ∈ ds →
     num_ltb a b = true → num_ltb b c = true → num_ltb a c = true) ∧
  (∀ a b c, a ∈ ds → b ∈ ds → c ∈ ds →
     num_ltb a c = true → num_ltb a b = true ∨ num_ltb b c = true).

(** Every object of [h'] has the variant and the number of points it
    has in [h]. *)
Definition same_shapes (h h' : heap) : Prop := ∀ c, shape h' c = shape h c.

(** From [h] to [h'] nothing but point coordinates of commands that are
    no arcs and args of arcs has changed: every object keeps its variant
    and its delete closure, an arc keeps its points and the number of its
    args, every other command keeps its args. *)
Definition values_only (h h' : heap) : Prop :=
  ∀ c, ctor (h' !!! c) = ctor (h !!! c) ∧
       onDeleteCommandClick (h' !!! c) = onDeleteCommandClick (h !!! c) ∧
       (ctor (h !!! c) = EllipticalArcCommand →
        points (h' !!! c) = points (h !!! c) ∧
        length (args (h' !!! c)) = length (args (h !!! c))) ∧
       (ctor (h !!! c) ≠ EllipticalArcCommand → args (h' !!! c) = args (h !!! c)).

(** Every command of every wrapper is an object of the store. *)
Definition wrappers_in_store (h : heap) (ws : list Wrapper) : Prop :=
  Forall (λ w, sourceCommand w ∈ dom h ∧ Forall (λ c, c ∈ dom h) (splitCommands w)) ws.

(** [r] is the last of the closest candidates of [xs]: nothing in front
    of it is strictly closer, everything behind it is strictly farther. *)
Definition last_closest {A : Type} (d : A → num) (xs : list A) (r : A) : Prop :=
  ∃ pre post, xs = pre ++ r :: post ∧
    (∀ p, p ∈ pre → num_ltb (d p) (d r) = false) ∧
    (∀ p, p ∈ post → num_ltb (d r) (d p) = true).
End Engine.

(** ** A sample instance of the collaborators

    Numbers are rationals extended by the infinities and NaN; the kernel
    works on control polygons by de Casteljau subdivision and a fixed
    sampling of the curve.  The properties below are proved for every
    instance; this one is used to run the engine on concrete paths. *)

Module Sample.
Inductive jsnum := Fin (q : Q) | PosInf | NegInf | NaN.

Definition lift2 (f : Q → Q → Q) (a b : jsnum) : jsnum :=
  match a, b with
  | Fin p, Fin q => Fin (Qred (f p q))
  | _, _ => NaN
  end.

Definition add (a b : jsnum) : jsnum :=
  match a, b with
  | Fin p, Fin q => Fin (Qred (p + q))
  | NaN, _ | _, NaN => NaN
  | PosInf, NegInf | NegInf, PosInf => NaN
  | PosInf, _ | _, PosInf => PosInf
  | NegInf, _ | _, NegInf => NegInf
  end.
Definition sub : jsnum → jsnum → jsnum := lift2 Qminus.
Definition mul : jsnum → jsnum → jsnum := lift2 Qmult.
Definition div : jsnum → jsnum → jsnum := lift2 Qdiv.

Definition eqb (a b : jsnum) : bool :=
  match a, b with
  | Fin p, Fin q => Qeq_bool p q
  | PosInf, PosInf | NegInf, NegInf => true
  | _, _ => false
  end.

Definition ltb (a b : jsnum) : bool :=
  match a, b with
  | Fin p, Fin q => negb (Qle_bool q p)
  | NegInf, Fin _ | NegInf, PosInf | Fin _, PosInf => true
  | _, _ => false
  end.

Definition min (a b : jsnum) : jsnum :=
  match a, b with
  | NaN, _ | _, NaN => NaN
  | _, _ => if ltb b a then b else a
  end.
Definition max (a b : jsnum) : jsnum :=
  match a, b with
  | NaN, _ | _, NaN => NaN
  | _, _ => if ltb a b then b else a
  end.

(** Square root: exact on squares of rationals, rounded down on
    numerator and denominator otherwise. *)
Definition sqrt (a : jsnum) : jsnum :=
  match a with
  | Fin q =>
      let q := Qred q in
      if Qle_bool 0 q
      then Fin (Qred (Z.sqrt (Qnum q) # Pos.sqrt (Qden q)))
      else NaN
  | PosInf => PosInf
  | _ => NaN
  end.

#[global] Instance numeric : Numeric jsnum := {|
  num_zero := Fin 0;
  num_one := Fin 1;
  num_inf := PosInf;
  num_neg_inf := NegInf;
  num_nan := NaN;
  num_add := add;
  num_min := min;
  num_max := max;
  num_eqb := eqb;
  num_ltb := ltb;
  lerp := λ a b f, add a (mul (sub b a) f);
|}.

Definition pt (px py : Z) : Point jsnum := mkPoint (Fin (inject_Z px)) (Fin (inject_Z py)).

Definition lerpP (f : jsnum) (p q : Point jsnum) : Point jsnum :=
  mkPoint (lerp (pt_x p) (pt_x q) f) (lerp (pt_y p) (pt_y q) f).

Definition dist (p q : Point jsnum) : jsnum :=
  let dx := sub (pt_x p) (pt_x q) in
  let dy := sub (pt_y p) (pt_y q) in
  sqrt (add (mul dx dx) (mul dy dy)).

(** A curve is its control polygon. *)
Definition bezier := list (Point jsnum).

(** The levels of de Casteljau's scheme at parameter [f]. *)
Fixpoint levels (n : nat) (f : jsnum) (ps : bezier) : list bezier :=
  match n with
  | 0 => []
  | S n' => ps :: levels n' f (zip_with (lerpP f) ps (tail ps))
  end.

Definition left_of (f : jsnum) (ps : bezier) : bezier :=
  omap head (levels (length ps) f ps).
Definition right_of (f : jsnum) (ps : bezier) : bezier :=
  reverse (omap last (levels (length ps) f ps)).
Definition at_ (f : jsnum) (ps : bezier) : Point jsnum :=
  default (pt 0 0) (last (left_of f ps)).

Definition split_range (ps : bezier) (t1 t2 : jsnum) : bezier :=
  left_of (div (sub t2 t1) (sub (Fin 1) t1)) (right_of t1 ps).

(** The parameters [0, 1/8, ..., 1] at which a curve is sampled. *)
Definition samples : list jsnum :=
  (λ k, Fin (Qred (inject_Z (Z.of_nat k) / 8))) <$> seq 0 9.

Definition project_sample (ps : bezier) (p : Point jsnum) (f : jsnum) : Projection jsnum :=
  mkProjection (at_ f ps) f (dist (at_ f ps) p).

Definition nearer (best cand : Projection jsnum) : Projection jsnum :=
  if ltb (proj_d cand) (proj_d best) then cand else best.

Definition project_on (ps : bezier) (p : Point jsnum) : Projection jsnum :=
  foldl nearer (project_sample ps p (Fin 0)) (project_sample ps p <$> tail samples).

Definition chord_length (ps : bezier) : jsnum :=
  let qs := (λ f, at_ f ps) <$> samples in
  foldl add (Fin 0) (zip_with dist qs (tail qs)).

Definition bbox_of (ps : bezier) : BBox jsnum :=
  let qs := (λ f, at_ f ps) <$> samples in
  mkBBox (foldl min PosInf (pt_x <$> qs)) (foldl max NegInf (pt_x <$> qs))
         (foldl min PosInf (pt_y <$> qs)) (foldl max NegInf (pt_y <$> qs)).

(** The arc is replaced by its chord, as one straight cubic. *)
Definition chord (x0 y0 rx ry rot large sweep x1 y1 : jsnum) : list jsnum :=
  [x0; y0; x0; y0; x1; y1; x1; y1].

#[global] Instance geometry : Geometry jsnum bezier := {|
  new_Bezier := λ ps, ps;
  bez_start := λ ps, default (pt 0 0) (head ps);
  bez_cp1 := λ ps, default (pt 0 0) (ps !! 1);
  bez_cp2 := λ ps, default (pt 0 0) (ps !! 2);
  bez_end := λ ps, default (pt 0 0) (last ps);
  bez_length := chord_length;
  bez_bbox := bbox_of;
  bez_project := project_on;
  bez_split := split_range;
  distance := dist;
  new_Point := pt 0 0;
  arcToBeziers := chord;
|}.

(** Serialisation: the command letter and its coordinates. *)
Definition show_num (a : jsnum) : string :=
  match a with
  | Fin q =>
      let q := Qred q in
      if bool_decide (Qden q = 1%positive) then pretty (Qnum q)
      else pretty (Qnum q) +:+ "/" +:+ pretty (Zpos (Qden q))
  | PosInf => "Infinity"
  | NegInf => "-Infinity"
  | NaN => "NaN"
  end.

Definition show_point (p : option (Point jsnum)) : string :=
  match p with
  | Some p => " " +:+ show_num (pt_x p) +:+ " " +:+ show_num (pt_y p)
  | None => ""
  end.

Definition letter (k : CommandKind) : string :=
  match k with
  | MoveCommand => "M" | LineCommand => "L" | QuadraticCurveCommand => "Q"
  | BezierCurveCommand => "C" | EllipticalArcCommand => "A" | ClosePathCommand => "Z"
  end.

Definition show_command (c : DrawCommand jsnum) : string :=
  match ctor c with
  | ClosePathCommand => "Z"
  | EllipticalArcCommand =>
      "A" +:+ String.concat "" ((λ a, " " +:+ show_num a) <$> drop 2 (args c))
  | k => letter k +:+ String.concat "" (show_point <$> tail (points c))
  end.

Definition show_commands (cs : list (DrawCommand jsnum)) : string :=
  String.concat " " (show_command <$> cs).

(** Command objects as the parser builds them. *)
Definition M (px py : Z) : DrawCommand jsnum :=
  mkDrawCommand MoveCommand [None; Some (pt px py)] [] None.
Definition L (sx sy px py : Z) : DrawCommand jsnum :=
  mkDrawCommand LineCommand [Some (pt sx sy); Some (pt px py)] [] None.
Definition Z_ (sx sy px py : Z) : DrawCommand jsnum :=
  mkDrawCommand ClosePathCommand [Some (pt sx sy); Some (pt px py)] [] None.
Definition A (a : list Q) : DrawCommand jsnum :=
  mkDrawCommand EllipticalArcCommand
    [Some (mkPoint (Fin (nth 0 a 0%Q)) (Fin (nth 1 a 0%Q)));
     Some (mkPoint (Fin (nth 7 a 0%Q)) (Fin (nth 8 a 0%Q)))]
    (Fin <$> a) None.

(** The store holding [cs] at the references [0, 1, ...]. *)
Definition store (cs : list (DrawCommand jsnum)) : gmap loc (DrawCommand jsnum) :=
  list_to_map (zip (seq 0 (length cs)) cs).

(** [new SvgPathData(path)] for a path that parses to [cs]. *)
Definition path_data (h : gmap loc (DrawCommand jsnum)) (path : string)
    (cs : list (DrawCommand jsnum)) :=
  new_SvgPathData (λ _, cs) show_commands h path.

(** The derivation pass over [cs]. *)
Definition derive (cs : list (DrawCommand jsnum)) : result (InternalState jsnum bezier) :=
  initInternalState (store cs) (seq 0 (length cs)).

Definition is_fin (a : jsnum) : bool :=
  match a with Fin _ => true | _ => false end.

(** *** Scenarios *)

Definition empty_path : SvgPathData jsnum bezier :=
  mkSvgPathData [] [] [] "" NaN (mkRect NaN NaN NaN NaN).

(** The value of a run that is known to return. *)
Definition value {A : Type} (d : A) (r : result A) : A :=
  match r with Ok a => a | Err _ => d end.

Definition half : jsnum := Fin (1 # 2).

(** "M 0 0 L 10 0": project (5, 5), split there, then delete the split
    through the closure of the first split command.  Returns the string
    after the split, the string after the delete, and the serialisation
    of the commands after the delete. *)
Definition split_then_delete : result (string * string * string) :=
  '(h1, p1) ← path_data ∅ "M 0 0 L 10 0" [M 0 0; L 0 0 10 0];
  info ← required (project p1 (pt 5 5));
  '(h2, p2) ← invoke_split show_commands h1 p1 info;
  c ← required (flatten (commands_ p2) !! 1);
  f ← required (onDeleteCommandClick (h2 !!! c));
  '(h3, p3) ← invoke_onDeleteCommandClick show_commands h2 p2 f;
  Ok (toString p2, toString p3,
      show_commands ((λ c, h3 !!! c) <$> flatten (commands_ p3))).

(** "L 3 4 M 0 0 L 10 0": does not begin with a Move. *)
Definition headless : list (DrawCommand jsnum) := [L 0 0 3 4; M 0 0; L 0 0 10 0].

(** "M 0 0 L 10 0 L 10 10": (5, 5) is at distance 5 of both lines. *)
Definition corner : list (DrawCommand jsnum) := [M 0 0; L 0 0 10 0; L 10 0 10 10].

Definition corner_path : SvgPathData jsnum bezier :=
  (value (∅, empty_path) (path_data ∅ "M 0 0 L 10 0 L 10 10" corner)).2.

(** A wrapper with the two lines of the corner as its segments. *)
Definition two_segments : DrawCommandWrapper jsnum bezier :=
  mkWrapper 0
    [[pt 0 0; pt 0 0; pt 10 0; pt 10 0]; [pt 10 0; pt 10 0; pt 10 10; pt 10 10]]
    [] [].

(** "M 3 4 A 0 5 0 0 0 6 8 L 12 16": an arc with a zero radius. *)
Definition zero_radius : list (DrawCommand jsnum) :=
  [M 3 4; A [3; 4; 0; 5; 0; 0; 0; 6; 8]%Q; L 6 8 12 16].

(** "M 0 0 A 5 5 0 0 0 0 0": an arc that ends where it starts. *)
Definition point_arc : list (DrawCommand jsnum) :=
  [M 0 0; A [0; 0; 5; 5; 0; 0; 0; 0; 0]%Q].


(** "M 0 0 L 3 4 Z Z": a second consecutive ClosePath. *)
Definition double_close : list (DrawCommand jsnum) :=
  [M 0 0; L 0 0 3 4; Z_ 3 4 0 0; Z_ 0 0 0 0].

(** Three paths in one store: [self] and [start] are "M 0 0 L 0 0", [end]
    is "M 0 0 L 10 10". *)
Definition lines : result (gmap loc (DrawCommand jsnum) * SvgPathData jsnum bezier
                           * SvgPathData jsnum bezier * SvgPathData jsnum bezier) :=
  '(h, start) ← path_data ∅ "M 0 0 L 0 0" [M 0 0; L 0 0 0 0];
  '(h, end_) ← path_data h "M 0 0 L 10 10" [M 0 0; L 0 0 10 10];
  '(h, self) ← path_data h "M 0 0 L 0 0" [M 0 0; L 0 0 0 0];
  Ok (h, self, start, end_).

(** Three arcs in one store that differ in radii and flags. *)
Definition arcs : result (gmap loc (DrawCommand jsnum) * SvgPathData jsnum bezier
                          * SvgPathData jsnum bezier * SvgPathData jsnum bezier) :=
  '(h, start) ← path_data ∅ "M 0 0 A 2 2 0 1 0 10 0"
                  [M 0 0; A [0; 0; 2; 2; 0; 1; 0; 10; 0]%Q];
  '(h, end_) ← path_data h "M 0 0 A 4 6 0 0 1 20 0"
                  [M 0 0; A [0; 0; 4; 6; 0; 0; 1; 20; 0]%Q];
  '(h, self) ← path_data h "M 0 0 A 1 1 0 0 0 5 0"
                  [M 0 0; A [0; 0; 1; 1; 0; 0; 0; 5; 0]%Q];
  Ok (h, self, start, end_).

(** "M 0 0 L 10 0" against "M 0 0 L 10 0 L 10 10": not morphable. *)
Definition mismatch : result (gmap loc (DrawCommand jsnum) * SvgPathData jsnum bezier
                              * SvgPathData jsnum bezier) :=
  '(h, start) ← path_data ∅ "M 0 0 L 10 0 L 10 10" corner;
  '(h, self) ← path_data h "M 0 0 L 10 0" [M 0 0; L 0 0 10 0];
  Ok (h, self, start).


(** A straight segment for the arc of [zero_radius]. *)
Definition arc_with_segment : DrawCommandWrapper jsnum bezier :=
  mkWrapper 1 [[pt 3 4; pt 3 4; pt 6 8; pt 6 8]] [] [].

Definition lines_scene := value (∅, empty_path, empty_path, empty_path) lines.
Definition arcs_scene := value (∅, empty_path, empty_path, empty_path) arcs.
Definition mismatch_scene := value (∅, empty_path, empty_path) mismatch.

(** "M 0 0 L 10 0": its store, and the wrapper of its line without
    splits and with the splits 1/4 and 3/4. *)
Definition line : list (DrawCommand jsnum) := [M 0 0; L 0 0 10 0].
Definition line_wrapper : DrawCommandWrapper jsnum bezier :=
  mkWrapper 1 [[pt 0 0; pt 0 0; pt 10 0; pt 10 0]] [] [].
Definition quarters_wrapper : DrawCommandWrapper jsnum bezier :=
  mkWrapper 1 [[pt 0 0; pt 0 0; pt 10 0; pt 10 0]] [Fin (1 # 4); Fin (3 # 4)] [].

(** The path "M 0 0 L 10 0", the projection of (5, 5) onto it, and the
    store and the path after the [split] closure of that projection. *)
Definition line_scene := value (∅, empty_path) (path_data ∅ "M 0 0 L 10 0" line).
Definition line_info : ProjectionInfo jsnum :=
  mkProjectionInfo (mkProjection (pt 5 0) half (Fin 5)) 1.
Definition line_split_scene :=
  value (∅, empty_path) (invoke_split show_commands line_scene.1 line_scene.2 line_info).

(** The wrapper of the line after [split] at 1/2. *)
Definition line_wrapper_split :=
  value (∅, line_wrapper) (split (store line) line_wrapper half).
Definition quarters_wrapper_split :=
  value (∅, quarters_wrapper) (split (store line) quarters_wrapper half).

(** "M 0 0 A 2 2 0 1 0 10 0": a path with an arc that has a segment. *)
Definition arc_scene :=
  value (∅, empty_path)
    (path_data ∅ "M 0 0 A 2 2 0 1 0 10 0" [M 0 0; A [0; 0; 2; 2; 0; 1; 0; 10; 0]%Q]).

(** A Move followed by a Line without end point. *)
Definition broken : list (DrawCommand jsnum) :=
  [M 0 0; mkDrawCommand LineCommand [Some (pt 0 0)] [] None].
Definition broken_state : InternalState jsnum bezier :=
  value initial_state (initInternalState (store broken) [0]).
Definition corner_state : InternalState jsnum bezier :=
  value initial_state (derive corner).

(** The args of the arc of [self] after [interpolate] at [fraction]. *)
Definition arcs_at (fraction : jsnum) : result (list jsnum) :=
  '(h, self, start, end_) ← arcs;
  '(h, self) ← interpolate show_commands h self start end_ fraction;
  c ← required (flatten (commands_ self) !! 1);
  Ok (args (h !!! c)).
End Sample.

(** * Properties *)

Section GroupingFacts.
Context {num : Type}.
Implicit Types (h : gmap loc (DrawCommand num)) (cmds : list loc).

Lemma before_from_first_move h cmds :
  beforeFirstMove h cmds ++ fromFirstMove h cmds = cmds.
Proof.
  induction cmds as [|c cmds IH]; simpl; [done|].
  destruct (instanceof MoveCommand h c); simpl; [done|]. by rewrite IH.
Qed.

(** Invariant of the backward scan: the pending list holds the commands
    in front of the first Move of what was scanned, the closed groups
    hold the rest. *)
Lemma group_scan h cmds :
  ∀ cmdGroups currentCmdList,
    foldl (group_step h) ([], []) (reverse cmds) = (cmdGroups, currentCmdList) →
    reverse currentCmdList = beforeFirstMove h cmds ∧
    concat (reverse <$> reverse cmdGroups) = fromFirstMove h cmds.
Proof.
  induction cmds as [|c cmds IH]; intros gs cur.
  - simpl. intros [= <- <-]. done.
  - rewrite reverse_cons, foldl_app. simpl.
    destruct (foldl (group_step h) ([], []) (reverse cmds)) as [gs0 cur0] eqn:E.
    destruct (IH _ _ eq_refl) as [Hcur Hgs].
    unfold group_step. destruct (instanceof MoveCommand h c) eqn:Hm.
    + intros [= <- <-]. split; [done|].
      rewrite reverse_app, fmap_app. simpl.
      rewrite reverse_app, Hcur, Hgs. simpl.
      f_equal. apply before_from_first_move.
    + intros [= <- <-]. split; [|done].
      by rewrite reverse_app, Hcur.
Qed.

Lemma createSubPathCommands_flatten h cmds :
  flatten (createSubPathCommands h cmds) = fromFirstMove h cmds.
Proof.
  unfold createSubPathCommands, flatten. case_bool_decide as Hlen.
  - by destruct cmds.
  - destruct (foldl (group_step h) ([], []) (reverse cmds)) as [gs cur] eqn:E.
    destruct (group_scan _ _ _ _ E) as [_ <-].
    by rewrite <- list_fmap_compose.
Qed.
End GroupingFacts.

Section EngineFacts.
Context {num Bezier : Type} `{!Numeric num} `{!Geometry num Bezier}.
Variable parseCommands : string → list (DrawCommand num).
Variable commandsToString : list (DrawCommand num) → string.

Abbreviation heap := (gmap loc (DrawCommand num)).
Abbreviation Wrapper := (DrawCommandWrapper num Bezier).
Abbreviation PathData := (SvgPathData num Bezier).
Abbreviation State := (InternalState num Bezier).

(** *** Grouping *)

(** C1 (amended): for every command sequence that begins with a Move
    command, concatenating the command lists of the sub-paths returned by
    [createSubPathCommands], in order, gives back the sequence exactly:
    the same command objects, nothing added or dropped.  (In general the
    result is the sequence from its first Move on, see
    [createSubPathCommands_flatten].) *)
Theorem createSubPathCommands_round_trip (h : heap) (c : loc) (cmds : list loc) :
  instanceof MoveCommand h c = true →
  flatten (createSubPathCommands h (c :: cmds)) = c :: cmds.
Proof.
  intros Hmove. rewrite createSubPathCommands_flatten. simpl. by rewrite Hmove.
Qed.

(** *** The derivation pass *)

Lemma forEachM_app {A St : Type} (f : St → A → result St) (s : St) (xs ys : list A) :
  forEachM f s (xs ++ ys) = forEachM f s xs ≫= λ s', forEachM f s' ys.
Proof.
  revert s. induction xs as [|a xs IH]; intros s; simpl; [done|].
  destruct (f s a); simpl; [apply IH|done].
Qed.

Lemma arc_loop_wrappers (bc : list num) (ks : list nat) (acc : State * list Bezier) :
  drawCommandWrappers (foldl (arc_iter bc) acc ks).1 = drawCommandWrappers acc.1 ∧
  firstPoint (foldl (arc_iter bc) acc ks).1 = firstPoint acc.1.
Proof.
  revert acc. induction ks as [|i ks IH]; intros acc; [done|].
  change (foldl (arc_iter bc) acc (i :: ks))
    with (foldl (arc_iter bc) (arc_iter bc acc i) ks).
  destruct (IH (arc_iter bc acc i)) as [-> ->]. by destruct acc.
Qed.




(** The command view of wrappers without split commands: their source
    commands, the store untouched. *)
Lemma wrappers_commands_unsplit (h : heap) (ws : list Wrapper) (wi : nat) :
  Forall (λ w, splitCommands w = []) ws →
  wrappers_commands wi h ws = (h, sourceCommand <$> ws).
Proof.
  intros F. revert wi. induction F as [|w ws Hw F IH]; intros wi; simpl; [done|].
  unfold DrawCommandWrapper_commands. rewrite Hw. simpl. by rewrite IH.
Qed.






(** What the pass does on an arc with a zero radius and distinct end
    points: the segment ends at, and the current point becomes,
    [new Point]. *)
Lemma init_step_arc_zero_radius (h : heap) (st : State) (cmd : loc) :
  let a := args (h !!! cmd) in
  ctor (h !!! cmd) = EllipticalArcCommand →
  num_eqb (arg_at a 0) (arg_at a 7) && num_eqb (arg_at a 1) (arg_at a 8) = false →
  num_eqb (arg_at a 2) num_zero || num_eqb (arg_at a 3) num_zero = true →
  init_step h st cmd =
    Ok (mkInternalState
          (num_add (st_length st)
             (distance (mkPoint (arg_at a 0) (arg_at a 1))
                       (mkPoint (arg_at a 7) (arg_at a 8))))
          (expandBounds_ (bounds st) (arg_at a 7) (arg_at a 8))
          (firstPoint st)
          new_Point
          (drawCommandWrappers st ++
             [new_DrawCommandWrapper cmd
                [new_Bezier [currentPoint st; currentPoint st; new_Point; new_Point]]])).
Proof.
  intros a Harc Hne Hzero. unfold init_step. rewrite Harc. fold a.
  by rewrite Hne, Hzero.
Qed.

(** *** Morphability *)

Lemma every_i_true {A : Type} (f : nat → A → result bool) (i0 : nat) (xs : list A) :
  every_i f i0 xs = Ok true ↔ ∀ k a, xs !! k = Some a → f (i0 + k) a = Ok true.
Proof.
  revert i0. induction xs as [|a xs IH]; intros i0; simpl.
  - split; [intros _ k a Hk; done | done].
  - split.
    + intros Hev k a' Hk.
      destruct (f i0 a) as [[|]|e] eqn:Hf; simpl in Hev; try discriminate.
      destruct k as [|k]; simpl in Hk.
      * injection Hk as <-. by rewrite Nat.add_0_r.
      * replace (i0 + S k) with (S i0 + k) by lia. by apply (IH (S i0)).
    + intros Hall. rewrite <- (Nat.add_0_r i0) at 1.
      rewrite (Hall 0 a eq_refl). simpl. apply IH.
      intros k a' Hk. replace (S i0 + k) with (i0 + S k) by lia. by apply Hall.
Qed.

Lemma every_i_total {A : Type} (f : nat → A → result bool) (i0 : nat) (xs : list A) :
  (∀ k a, xs !! k = Some a → ∃ ok, f (i0 + k) a = Ok ok) →
  ∃ ok, every_i f i0 xs = Ok ok.
Proof.
  revert i0. induction xs as [|a xs IH]; intros i0 Hall; simpl; [by eexists|].
  destruct (Hall 0 a eq_refl) as [ok Hok]. rewrite Nat.add_0_r in Hok.
  rewrite Hok. simpl. destruct ok; [|by eexists].
  apply IH. intros k a' Hk. replace (S i0 + k) with (i0 + S k) by lia. by apply Hall.
Qed.

(** The morphability check never throws: each lookup is guarded by the
    comparison of the lengths in front of it. *)
Lemma isMorphableWith_total (h : heap) (self cmd : PathData) :
  ∃ ok, isMorphableWith h self cmd = Ok ok.
Proof.
  unfold isMorphableWith. case_bool_decide as Hlen; [|by eexists].
  apply every_i_total. intros i s Hs. simpl. unfold morphable_sub.
  destruct (lookup_lt_is_Some_2 (commands_ cmd) i) as [other ->].
  { rewrite <- Hlen. by eapply lookup_lt_Some. }
  simpl. case_bool_decide as Hlen'; [|by eexists].
  apply every_i_total. intros j d Hd. simpl. unfold morphable_cmd.
  destruct (lookup_lt_is_Some_2 (spc_commands other) j) as [d' ->].
  { rewrite <- Hlen'. by eapply lookup_lt_Some. }
  simpl. by eexists.
Qed.

Lemma morphable_cmds_shape (h : heap) (s other : SubPathCommand) :
  length (spc_commands s) = length (spc_commands other) →
  every_i (morphable_cmd h other) 0 (spc_commands s) = Ok true ↔
  shape h <$> spc_commands s = shape h <$> spc_commands other.
Proof.
  intros Hlen. rewrite every_i_true. split.
  - intros Hall. apply list_eq. intros j. rewrite !list_lookup_fmap.
    destruct (spc_commands s !! j) as [d|] eqn:Hd.
    + specialize (Hall j d Hd). simpl in Hall. unfold morphable_cmd in Hall.
      destruct (spc_commands other !! j) as [d'|]; simpl in Hall; [|done].
      injection Hall as Hall. apply andb_true_iff in Hall as [Hc Hp].
      apply bool_decide_eq_true in Hc, Hp. simpl. unfold shape. by rewrite Hc, Hp.
    + apply lookup_ge_None in Hd. rewrite Hlen in Hd.
      apply lookup_ge_None in Hd. by rewrite Hd.
  - intros Heq j d Hd. simpl. unfold morphable_cmd.
    assert (Hj : (shape h <$> spc_commands s) !! j = Some (shape h d))
      by (by rewrite list_lookup_fmap, Hd).
    rewrite Heq, list_lookup_fmap in Hj.
    destruct (spc_commands other !! j) as [d'|]; simpl in Hj; [|done].
    unfold shape in Hj. inversion Hj as [[Hc Hp]].
    simpl. by rewrite !bool_decide_eq_true_2.
Qed.

(** Morphable means: same topology. *)
Lemma isMorphableWith_topology (h : heap) (self cmd : PathData) :
  isMorphableWith h self cmd = Ok true ↔ topology h self = topology h cmd.
Proof.
  unfold isMorphableWith, topology. split.
  - case_bool_decide as Hlen; [|done]. rewrite every_i_true. intros Hall.
    apply list_eq. intros i. rewrite !list_lookup_fmap.
    destruct (commands_ self !! i) as [s|] eqn:Hs.
    + specialize (Hall i s Hs). simpl in Hall. unfold morphable_sub in Hall.
      destruct (commands_ cmd !! i) as [other|]; simpl in Hall; [|done].
      case_bool_decide as Hlen'; [|done]. simpl. f_equal.
      by apply morphable_cmds_shape.
    + apply lookup_ge_None in Hs. rewrite Hlen in Hs.
      apply lookup_ge_None in Hs. by rewrite Hs.
  - intros Heq.
    assert (Hlen : length (commands_ self) = length (commands_ cmd)).
    { apply (f_equal length) in Heq. by rewrite !length_fmap in Heq. }
    rewrite bool_decide_eq_true_2 by done. apply every_i_true.
    intros i s Hs. simpl. unfold morphable_sub.
    assert (Hi : ((λ s, shape h <$> spc_commands s) <$> commands_ self) !! i
                 = Some (shape h <$> spc_commands s))
      by (by rewrite list_lookup_fmap, Hs).
    rewrite Heq, list_lookup_fmap in Hi.
    destruct (commands_ cmd !! i) as [other|]; simpl in Hi; [|done].
    injection Hi as Hi. simpl.
    assert (Hlen' : length (spc_commands s) = length (spc_commands other)).
    { apply (f_equal length) in Hi. by rewrite !length_fmap in Hi. }
    rewrite bool_decide_eq_true_2 by done. by apply morphable_cmds_shape.
Qed.

(** *** Interpolation: the rejected request *)

(** C7: when [self] is not morphable with [start] or not morphable with
    [end], [interpolate] returns normally and changes nothing: the store
    of command objects (points, args) and the aggregate with its derived
    state are the ones it was called with. *)
Theorem interpolate_not_morphable (h : heap) (self start end_ : PathData) (fraction : num) :
  isMorphableWith h self start ≠ Ok true ∨ isMorphableWith h self end_ ≠ Ok true →
  interpolate commandsToString h self start end_ fraction = Ok (h, self).
Proof.
  intros Hnot. unfold interpolate.
  destruct (isMorphableWith_total h self start) as [m1 E1].
  destruct (isMorphableWith_total h self end_) as [m2 E2].
  rewrite E1 in *. simpl. destruct m1; simpl; [|done].
  rewrite E2 in *. simpl. destruct m2; simpl; [|done].
  by destruct Hnot.
Qed.

(** *** Interpolation: arcs *)

Lemma set_args_set_args (c : DrawCommand num) (a a' : list num) :
  set_args (set_args c a) a' = set_args c a'.
Proof. done. Qed.

(** The loop over the args of the arc [d]: position by position, reading
    [d1] and [d2] in the store as it stands.  [ak] are the args of [d]
    after the positions below [i0]; the positions from [i0] on are still
    those of the store [h0] the loop started in, also when [d1] or [d2]
    is [d] itself. *)
Lemma interpolate_args_loop (d d1 d2 : loc) (fraction : num) (h0 : heap) (v : nat → num) :
  (∀ k, v k =
     if bool_decide (k = 5) || bool_decide (k = 6)
     then (if num_eqb fraction num_zero
           then arg_at (args (h0 !!! d1)) k else arg_at (args (h0 !!! d2)) k)
     else lerp (arg_at (args (h0 !!! d1)) k) (arg_at (args (h0 !!! d2)) k) fraction) →
  ∀ (xs : list num) (i0 : nat) (h : heap) (ak : list num),
    i0 + length xs = length (args (h0 !!! d)) →
    length ak = length (args (h0 !!! d)) →
    (∀ c, c ≠ d → h !!! c = h0 !!! c) →
    h !!! d = set_args (h0 !!! d) ak →
    (∀ k, i0 ≤ k → ak !! k = args (h0 !!! d) !! k) →
    ∃ h' ak',
      forEachM_i (interpolate_arg d (Some d1) (Some d2) fraction) i0 h xs = Ok h' ∧
      length ak' = length ak ∧
      (∀ c, c ≠ d → h' !!! c = h0 !!! c) ∧
      h' !!! d = set_args (h0 !!! d) ak' ∧
      (∀ k, k < i0 → ak' !! k = ak !! k) ∧
      (∀ k, i0 ≤ k → k < length ak → ak' !! k = Some (v k)).
Proof.
  intros Hv. induction xs as [|x xs IH]; intros i0 h ak Hlen Hak Hframe Hd Hrest.
  - simpl in *. exists h, ak. repeat split; try done. intros k ??. lia.
  - simpl in Hlen.
    assert (Hread : ∀ c, arg_at (args (h !!! c)) i0 = arg_at (args (h0 !!! c)) i0).
    { intros c. destruct (decide (c = d)) as [->|Hne].
      - rewrite Hd. unfold arg_at. simpl. by rewrite Hrest.
      - by rewrite Hframe. }
    assert (Hstep : interpolate_arg d (Some d1) (Some d2) fraction i0 h x
                    = Ok (write_arg h d i0 (v i0))).
    { unfold interpolate_arg. rewrite Hv.
      destruct (bool_decide (i0 = 5) || bool_decide (i0 = 6)).
      - destruct (num_eqb fraction num_zero);
          cbn [required mbind result_bind]; by rewrite Hread.
      - cbn [required mbind result_bind]. by rewrite !Hread. }
    simpl. rewrite Hstep. simpl.
    destruct (IH (S i0) (write_arg h d i0 (v i0)) (<[i0 := v i0]> ak))
      as (h' & ak' & Hrun & Hlen' & Hframe' & Hd' & Hlow & Hhigh).
    + lia.
    + by rewrite length_insert.
    + intros c Hne. unfold write_arg. rewrite lookup_total_insert_ne by done. auto.
    + unfold write_arg. rewrite lookup_total_insert_eq, Hd. done.
    + intros k Hk. rewrite list_lookup_insert_ne by lia. apply Hrest. lia.
    + exists h', ak'. rewrite length_insert in Hlen'. split; [done|].
      repeat split; try done.
      * intros k Hk. rewrite Hlow by lia. apply list_lookup_insert_ne. lia.
      * intros k Hk1 Hk2. destruct (decide (k = i0)) as [->|Hne].
        -- rewrite Hlow by lia. apply list_lookup_insert_eq. lia.
        -- apply Hhigh; [lia|]. by rewrite length_insert.
Qed.

(** The callback of [interpolate] on an arc [d], where the start and the
    end path have the commands [d1] and [d2]: it returns, and [d] gets
    the args [ak']. *)
Lemma interpolate_cmd_arc
    (start end_ : PathData) (fraction : num) (i j : nat) (h : heap)
    (d d1 d2 : loc) (s1 s2 : SubPathCommand) :
  instanceof EllipticalArcCommand h d = true →
  commands_ start !! i = Some s1 → spc_commands s1 !! j = Some d1 →
  commands_ end_ !! i = Some s2 → spc_commands s2 !! j = Some d2 →
  ∃ h' ak',
    interpolate_cmd start end_ fraction i j h d = Ok h' ∧
    (∀ c, c ≠ d → h' !!! c = h !!! c) ∧
    h' !!! d = set_args (h !!! d) ak' ∧
    length ak' = length (args (h !!! d)) ∧
    ∀ k, k < length (args (h !!! d)) →
      ak' !! k = Some
        (if bool_decide (k = 5) || bool_decide (k = 6)
         then (if num_eqb fraction num_zero
               then arg_at (args (h !!! d1)) k else arg_at (args (h !!! d2)) k)
         else lerp (arg_at (args (h !!! d1)) k) (arg_at (args (h !!! d2)) k) fraction).
Proof.
  intros Harc Hs1 Hd1 Hs2 Hd2. unfold interpolate_cmd.
  rewrite Hs1, Hs2. simpl. rewrite Hd1, Hd2, Harc.
  destruct (interpolate_args_loop d d1 d2 fraction h _ (λ k, eq_refl)
              (args (h !!! d)) 0 h (args (h !!! d)))
    as (h' & ak' & Hrun & Hlen & Hframe & Hd & _ & Hval); try done.
  { by destruct (h !!! d). }
  exists h', ak'. repeat split; try done. intros k Hk. apply Hval; lia.
Qed.

(** *** Interpolation keeps the topology *)

Lemma same_shapes_refl (h : heap) : same_shapes h h.
Proof. by intros c. Qed.

Lemma same_shapes_trans (h1 h2 h3 : heap) :
  same_shapes h1 h2 → same_shapes h2 h3 → same_shapes h1 h3.
Proof. intros H12 H23 c. by rewrite H23. Qed.

Lemma same_shapes_update (h : heap) (d : loc) (c' : DrawCommand num) :
  ctor c' = ctor (h !!! d) → length (points c') = length (points (h !!! d)) →
  same_shapes h (<[d := c']> h).
Proof.
  intros Hc Hp c. unfold shape. destruct (decide (c = d)) as [->|Hne].
  - by rewrite lookup_total_insert_eq, Hc, Hp.
  - by rewrite lookup_total_insert_ne.
Qed.

Lemma write_point_shapes (h : heap) (d : loc) (k : nat) (p : Point num) :
  k < length (points (h !!! d)) → same_shapes h (write_point h d k p).
Proof.
  intros Hk. apply same_shapes_update; [done|]. simpl. unfold array_set.
  rewrite bool_decide_eq_true_2 by done. apply length_insert.
Qed.

Lemma interpolate_points_loop (d d1 d2 : loc) (fraction : num) (h0 : heap) (ks : list nat) :
  ∀ h, (∀ k, k ∈ ks → k < length (points (h0 !!! d))) → same_shapes h0 h →
       ∃ h', forEachM (interpolate_point d d1 (Some d2) fraction) h ks = Ok h' ∧
             same_shapes h0 h'.
Proof.
  induction ks as [|k ks IH]; intros h Hks Hsame; simpl; [by exists h|].
  assert (Hstep : ∃ h1, interpolate_point d d1 (Some d2) fraction h k = Ok h1 ∧
                        same_shapes h0 h1).
  { unfold interpolate_point. simpl.
    destruct (point_at (points (h !!! d1)) k); [|by exists h].
    destruct (point_at (points (h !!! d2)) k); [|by exists h].
    eexists. split; [done|]. eapply same_shapes_trans; [exact Hsame|].
    apply write_point_shapes. pose proof (Hsame d) as Hd. unfold shape in Hd.
    injection Hd as _ ->. apply Hks. by left. }
  destruct Hstep as (h1 & -> & Hsame1). simpl.
  apply IH; [|done]. intros k' Hk'. apply Hks. by right.
Qed.

(** One command of [self], at a place where the start and the end path
    have a command and the start command has the shape of [d]. *)
Lemma interpolate_cmd_shapes (start end_ : PathData) (fraction : num) (i j : nat)
    (h0 h : heap) (d d1 d2 : loc) (s1 s2 : SubPathCommand) :
  same_shapes h0 h →
  commands_ start !! i = Some s1 → spc_commands s1 !! j = Some d1 →
  commands_ end_ !! i = Some s2 → spc_commands s2 !! j = Some d2 →
  shape h0 d1 = shape h0 d →
  ∃ h', interpolate_cmd start end_ fraction i j h d = Ok h' ∧ same_shapes h0 h'.
Proof.
  intros Hsame Hs1 Hd1 Hs2 Hd2 Hshape.
  destruct (instanceof EllipticalArcCommand h d) eqn:Harc.
  - destruct (interpolate_cmd_arc start end_ fraction i j h d d1 d2 s1 s2)
      as (h' & ak' & Hrun & Hframe & Hd & _); try done.
    exists h'. split; [done|]. eapply same_shapes_trans; [exact Hsame|].
    intros c. unfold shape. destruct (decide (c = d)) as [->|Hne].
    + by rewrite Hd.
    + by rewrite Hframe.
  - unfold interpolate_cmd. rewrite Hs1, Hs2. simpl. rewrite Hd1, Hd2, Harc. simpl.
    apply interpolate_points_loop; [|done].
    intros k Hk%elem_of_seq.
    pose proof (Hsame d1) as H1. rewrite Hshape in H1. unfold shape in H1.
    injection H1 as _ H1. lia.
Qed.

Lemma interpolate_subpath_loop (start end_ : PathData) (fraction : num) (i : nat)
    (h0 : heap) (s1 s2 : SubPathCommand) (xs : list loc) :
  commands_ start !! i = Some s1 → commands_ end_ !! i = Some s2 →
  ∀ j0 h,
    same_shapes h0 h →
    (∀ k d, xs !! k = Some d →
       ∃ d1 d2, spc_commands s1 !! (j0 + k) = Some d1 ∧
                spc_commands s2 !! (j0 + k) = Some d2 ∧ shape h0 d1 = shape h0 d) →
    ∃ h', forEachM_i (interpolate_cmd start end_ fraction i) j0 h xs = Ok h' ∧
          same_shapes h0 h'.
Proof.
  intros Hs1 Hs2. induction xs as [|d xs IH]; intros j0 h Hsame Hall; simpl; [by exists h|].
  destruct (Hall 0 d eq_refl) as (d1 & d2 & Hd1 & Hd2 & Hshape).
  rewrite Nat.add_0_r in Hd1, Hd2.
  destruct (interpolate_cmd_shapes start end_ fraction i j0 h0 h d d1 d2 s1 s2)
    as (h1 & -> & Hsame1); try done.
  simpl. apply IH; [done|]. intros k d' Hk.
  replace (S j0 + k) with (j0 + S k) by lia. by apply Hall.
Qed.

Lemma interpolate_path_loop (start end_ : PathData) (fraction : num) (h0 : heap)
    (ss : list SubPathCommand) :
  ∀ i0 h,
    same_shapes h0 h →
    (∀ k s, ss !! k = Some s →
       ∃ s1 s2, commands_ start !! (i0 + k) = Some s1 ∧
                commands_ end_ !! (i0 + k) = Some s2 ∧
                shape h0 <$> spc_commands s = shape h0 <$> spc_commands s1 ∧
                shape h0 <$> spc_commands s = shape h0 <$> spc_commands s2) →
    ∃ h', forEachM_i
            (λ i h s, forEachM_i (interpolate_cmd start end_ fraction i) 0 h (spc_commands s))
            i0 h ss = Ok h' ∧
          same_shapes h0 h'.
Proof.
  induction ss as [|s ss IH]; intros i0 h Hsame Hall; simpl; [by exists h|].
  destruct (Hall 0 s eq_refl) as (s1 & s2 & Hs1 & Hs2 & Hsh1 & Hsh2).
  rewrite Nat.add_0_r in Hs1, Hs2.
  destruct (interpolate_subpath_loop start end_ fraction i0 h0 s1 s2 (spc_commands s)
              Hs1 Hs2 0 h Hsame) as (h1 & -> & Hsame1).
  { intros k d Hd. simpl.
    assert (H1 : (shape h0 <$> spc_commands s) !! k = Some (shape h0 d))
      by (by rewrite list_lookup_fmap, Hd).
    pose proof H1 as H2. rewrite Hsh1, list_lookup_fmap in H1.
    rewrite Hsh2, list_lookup_fmap in H2.
    destruct (spc_commands s1 !! k) as [d1|]; [|done].
    destruct (spc_commands s2 !! k) as [d2|]; [|done].
    exists d1, d2. simpl in H1. repeat split; try done. congruence. }
  simpl. apply IH; [done|]. intros k s' Hk.
  replace (S i0 + k) with (i0 + S k) by lia. by apply Hall.
Qed.

(** The getter [commands] touches only the delete closures, and the
    commands it returns do not depend on the store. *)
Lemma install_delete_shapes (wi : nat) (cw : Wrapper) (ks : list nat) (h : heap) :
  same_shapes h (foldl (install_delete wi cw) h ks).
Proof.
  revert h. induction ks as [|k ks IH]; intros h; simpl; [apply same_shapes_refl|].
  eapply same_shapes_trans; [|apply IH].
  unfold install_delete. destruct (splitCommands cw !! k); [|apply same_shapes_refl].
  by apply same_shapes_update.
Qed.

Lemma wrappers_commands_shapes (ws : list Wrapper) (wi : nat) (h : heap) :
  same_shapes h (wrappers_commands wi h ws).1.
Proof.
  revert wi h. induction ws as [|cw ws IH]; intros wi h; simpl; [apply same_shapes_refl|].
  destruct (DrawCommandWrapper_commands wi h cw) as [h1 cmds] eqn:E1.
  destruct (wrappers_commands (S wi) h1 ws) as [h2 rest] eqn:E2. simpl.
  eapply same_shapes_trans; [|pose proof (IH (S wi) h1) as IH'; by rewrite E2 in IH'].
  unfold DrawCommandWrapper_commands in E1. case_bool_decide.
  - injection E1 as <- _. apply install_delete_shapes.
  - injection E1 as <- _. apply same_shapes_refl.
Qed.

Lemma wrappers_commands_view (ws : list Wrapper) (wi : nat) (h h' : heap) :
  (wrappers_commands wi h ws).2 = (wrappers_commands wi h' ws).2.
Proof.
  revert wi h h'. induction ws as [|cw ws IH]; intros wi h h'; simpl; [done|].
  destruct (DrawCommandWrapper_commands wi h cw) as [h1 cmds] eqn:E1.
  destruct (DrawCommandWrapper_commands wi h' cw) as [h1' cmds'] eqn:E1'.
  destruct (wrappers_commands (S wi) h1 ws) as [h2 rest] eqn:E2.
  destruct (wrappers_commands (S wi) h1' ws) as [h2' rest'] eqn:E2'. simpl.
  pose proof (IH (S wi) h1 h1') as IH'. rewrite E2, E2' in IH'. simpl in IH'. subst rest'.
  unfold DrawCommandWrapper_commands in E1, E1'.
  case_bool_decide; injection E1 as _ <-; injection E1' as _ <-; done.
Qed.

(** Grouping looks at the variant of the commands only. *)
Lemma createSubPathCommands_shapes (h h' : heap) (cmds : list loc) :
  same_shapes h h' → createSubPathCommands h' cmds = createSubPathCommands h cmds.
Proof.
  intros Hsame. unfold createSubPathCommands. case_bool_decide; [done|].
  assert (Hstep : ∀ st c, group_step h' st c = group_step h st c).
  { intros [gs cur] c. unfold group_step, instanceof.
    pose proof (Hsame c) as Hc. unfold shape in Hc. injection Hc as -> _. done. }
  assert (Hfold : ∀ xs st, foldl (group_step h') st xs = foldl (group_step h) st xs).
  { induction xs as [|c xs IH]; intros st; simpl; [done|]. by rewrite Hstep, IH. }
  by rewrite Hfold.
Qed.

Lemma topology_shapes (h h' : heap) (p : PathData) :
  same_shapes h h' → topology h' p = topology h p.
Proof.
  intros Hsame. unfold topology. apply list_fmap_ext. intros _ s _.
  apply list_fmap_ext. intros _ d _. apply Hsame.
Qed.

(** An aggregate in sync is not changed by a rebuild in a store with the
    same shapes. *)
Lemma rebuild_in_sync (h h' : heap) (p : PathData) :
  in_sync commandsToString h p → same_shapes h h' →
  (rebuildInternalState commandsToString false h' p).2 = p.
Proof.
  unfold in_sync, rebuildInternalState. intros Hsync Hsame.
  pose proof (wrappers_commands_view (drawCommandWrappers_ p) 0 h h') as Hview.
  pose proof (wrappers_commands_shapes (drawCommandWrappers_ p) 0 h) as Hsh.
  pose proof (wrappers_commands_shapes (drawCommandWrappers_ p) 0 h') as Hsh'.
  destruct (wrappers_commands 0 h (drawCommandWrappers_ p)) as [h1 view].
  destruct (wrappers_commands 0 h' (drawCommandWrappers_ p)) as [h1' view'].
  simpl in *. subst view'. etransitivity; [|exact Hsync]. f_equal.
  transitivity (createSubPathCommands h view).
  - apply createSubPathCommands_shapes.
    eapply same_shapes_trans; [exact Hsame|exact Hsh'].
  - symmetry. by apply createSubPathCommands_shapes.
Qed.

(** *** Projection *)

Lemma closer_fold_Some {A : Type} (d : A → num) (xs : list A) (a : A) :
  ∃ r, foldl (closer d) (Some a) xs = Some r.
Proof.
  revert a. induction xs as [|c xs IH]; intros a; simpl; [by eexists|].
  destruct (num_ltb (d a) (d c)); apply IH.
Qed.

(** [reduce] yields no candidate only when there is none. *)
Lemma closer_fold_None {A : Type} (d : A → num) (xs : list A) :
  foldl (closer d) None xs = None ↔ xs = [].
Proof.
  split; [|by intros ->]. destruct xs as [|c xs]; [done|]. simpl.
  destruct (closer_fold_Some d xs c) as [r ->]. done.
Qed.

Lemma ordered_distances_subseteq (ds ds' : list num) :
  (∀ a, a ∈ ds' → a ∈ ds) → ordered_distances ds → ordered_distances ds'.
Proof. intros Hsub [Ht Hn]. split; intros a b c ???; [apply Ht|apply Hn]; auto. Qed.

(** The [reduce] with the callback [closer] returns the last of the
    closest candidates. *)
Lemma closer_fold_last_closest {A : Type} (d : A → num) (xs : list A) (r : A) :
  ordered_distances (d <$> xs) →
  foldl (closer d) None xs = Some r → last_closest d xs r.
Proof.
  revert r. induction xs as [|c xs IH] using rev_ind; intros r Hord; [done|].
  rewrite foldl_app. simpl.
  destruct (foldl (closer d) None xs) as [p0|] eqn:Hprev; simpl.
  - assert (Hord' : ordered_distances (d <$> xs)).
    { eapply ordered_distances_subseteq; [|exact Hord].
      intros a Ha. rewrite fmap_app. apply elem_of_app. by left. }
    destruct (IH p0 Hord' eq_refl) as (pre & post & -> & Hpre & Hpost).
    destruct Hord as [Htrans Hneg].
    assert (Hin : ∀ q, q ∈ (pre ++ p0 :: post) ++ [c] →
                       d q ∈ d <$> (pre ++ p0 :: post) ++ [c]).
    { intros q Hq. by apply list_elem_of_fmap_2. }
    assert (Hp0 : p0 ∈ (pre ++ p0 :: post) ++ [c]).
    { apply elem_of_app. left. apply elem_of_app. right. by left. }
    assert (Hc : c ∈ (pre ++ p0 :: post) ++ [c]).
    { apply elem_of_app. right. by left. }
    destruct (num_ltb (d p0) (d c)) eqn:Hlt; intros [= <-].
    + exists pre, (post ++ [c]). rewrite <- app_assoc. split; [done|].
      split; [done|]. intros q [Hq| ->%list_elem_of_singleton]%elem_of_app; auto.
    + exists (pre ++ p0 :: post), []. split; [done|]. split; [|by intros q Hq%elem_of_nil].
      intros q Hq.
      assert (Hq' : q ∈ (pre ++ p0 :: post) ++ [c]) by (apply elem_of_app; by left).
      destruct (num_ltb (d q) (d c)) eqn:Hqc; [exfalso|done].
      apply elem_of_app in Hq as [Hq|Hq]; [|apply elem_of_cons in Hq as [->|Hq]].
      * destruct (Hneg (d q) (d p0) (d c)) as [Hx|Hx]; auto.
        -- by rewrite Hpre in Hx.
        -- by rewrite Hlt in Hx.
      * by rewrite Hlt in Hqc.
      * pose proof (Htrans (d p0) (d q) (d c)) as Hx.
        rewrite Hlt in Hx. by (discriminate Hx; auto).
  - apply closer_fold_None in Hprev as ->. intros [= <-].
    exists [], []. split; [done|]. split; by intros q Hq%elem_of_nil.
Qed.

Lemma closer_fold_elem_of {A : Type} (d : A → num) (xs : list A) (acc : option A) (r : A) :
  foldl (closer d) acc xs = Some r → acc = Some r ∨ r ∈ xs.
Proof.
  revert acc. induction xs as [|c xs IH]; intros acc; simpl; [by left|].
  intros [Hr|Hr]%IH; [|right; by right].
  unfold closer in Hr. destruct acc as [p0|].
  - destruct (num_ltb (d p0) (d c)); [by left|]. injection Hr as ->. right; by left.
  - injection Hr as ->. right; by left.
Qed.

(** Every candidate of [project] is the projection of the wrapper whose
    closure it carries. *)
Lemma project_candidates_wrapper (ws : list Wrapper) (wi : nat) (point : Point num)
    (item : ProjectionInfo num) :
  item ∈ project_candidates wi ws point →
  ∃ k cw, split_wrapper item = wi + k ∧ ws !! k = Some cw ∧
          DrawCommandWrapper_project cw point = Some (projection item).
Proof.
  revert wi. induction ws as [|cw ws IH]; intros wi; simpl; [by intros ?%elem_of_nil|].
  intros Hin.
  assert (Htail : item ∈ project_candidates (S wi) ws point →
                  ∃ k cw', split_wrapper item = wi + k ∧ (cw :: ws) !! k = Some cw' ∧
                           DrawCommandWrapper_project cw' point = Some (projection item)).
  { intros (k & cw' & Hk & Hcw & Hp)%IH. exists (S k), cw'. split; [lia|done]. }
  destruct (DrawCommandWrapper_project cw point) as [pr|] eqn:Hpr; [|auto].
  apply elem_of_cons in Hin as [->|Hin]; [|auto].
  exists 0, cw. simpl. split; [lia|done].
Qed.

(** C3 (amended): on equal minimal distances the candidate evaluated
    last wins, at both levels: [project] returns the last of the closest
    wrappers, and its projection is the last of the closest segments of
    that wrapper.  An earlier candidate is kept only when its distance is
    strictly less than that of the later one.  The distances of the
    segments are assumed to be ordered by [<] (no NaN among them). *)
Theorem project_keeps_last_closest
    (self : PathData) (point : Point num) (info : ProjectionInfo num) :
  ordered_distances
    ((λ bez, proj_d (bez_project bez point)) <$> (drawCommandWrappers_ self ≫= sourceBeziers)) →
  project self point = Some info →
  last_closest (λ item, proj_d (projection item))
    (project_candidates 0 (drawCommandWrappers_ self) point) info ∧
  ∃ cw, drawCommandWrappers_ self !! split_wrapper info = Some cw ∧
    DrawCommandWrapper_project cw point = Some (projection info) ∧
    last_closest proj_d ((λ bez, bez_project bez point) <$> sourceBeziers cw)
      (projection info).
Proof.
  intros Hord Hproj. unfold project in Hproj.
  assert (Hseg : ∀ k cw pr, drawCommandWrappers_ self !! k = Some cw →
            DrawCommandWrapper_project cw point = Some pr →
            proj_d pr ∈ (λ bez, proj_d (bez_project bez point)) <$>
                          (drawCommandWrappers_ self ≫= sourceBeziers)).
  { intros k cw pr Hk Hpr. unfold DrawCommandWrapper_project in Hpr.
    apply closer_fold_elem_of in Hpr as [?|Hpr]; [done|].
    apply list_elem_of_fmap in Hpr as (bez & -> & Hbez).
    apply (list_elem_of_fmap_2' _ _ bez); [|done].
    apply list_elem_of_bind. exists cw. split; [done|]. by eapply list_elem_of_lookup_2. }
  split.
  - apply closer_fold_last_closest; [|done].
    eapply ordered_distances_subseteq; [|exact Hord].
    intros a (item & -> & Hitem)%list_elem_of_fmap.
    apply project_candidates_wrapper in Hitem as (k & cw & _ & Hk & Hpr). eauto.
  - apply closer_fold_elem_of in Hproj as [?|Hin]; [done|].
    apply project_candidates_wrapper in Hin as (k & cw & Hwi & Hk & Hpr).
    simpl in Hwi. subst k. exists cw. split; [done|]. split; [done|].
    apply closer_fold_last_closest; [|done].
    eapply ordered_distances_subseteq; [|exact Hord].
    intros a (pr & -> & Hpr')%list_elem_of_fmap.
    apply list_elem_of_fmap in Hpr' as (bez & -> & Hbez).
    apply (list_elem_of_fmap_2' _ _ bez); [|done].
    apply list_elem_of_bind. exists cw. split; [done|]. by eapply list_elem_of_lookup_2.
Qed.

(** *** Split *)

Lemma split_no_beziers (h : heap) (cw : Wrapper) (t : num) :
  sourceBeziers cw = [] → split h cw t = Ok (h, cw).
Proof. intros E. unfold split. by rewrite E. Qed.

(** C6 (amended): [split] first checks for Bezier segments.  A wrapper
    without segments is left alone, whatever its command, arcs included;
    a wrapper of an EllipticalArc with at least one segment makes
    [split] throw, for every [t], and nothing is produced. *)
Theorem split_guards (h : heap) (cw : Wrapper) (t : num) :
  (sourceBeziers cw = [] → split h cw t = Ok (h, cw)) ∧
  (sourceBeziers cw ≠ [] → instanceof EllipticalArcCommand h (sourceCommand cw) = true →
   split h cw t =
     Err (UnsupportedOperation "TODO: implement split support for elliptical arcs")).
Proof.
  split; [apply split_no_beziers|].
  intros Hne Harc. unfold split. rewrite Harc.
  case_bool_decide as Hlen; [|done].
  destruct (sourceBeziers cw); [done|discriminate].
Qed.

(** *** Rebuilds *)

(** Whatever the state before, a rebuild leaves the aggregate in sync. *)
Lemma rebuild_establishes_sync (rebuildPathString : bool) (h : heap) (p : PathData) :
  in_sync commandsToString
    (rebuildInternalState commandsToString rebuildPathString h p).1
    (rebuildInternalState commandsToString rebuildPathString h p).2.
Proof.
  unfold in_sync, rebuildInternalState.
  pose proof (wrappers_commands_shapes (drawCommandWrappers_ p) 0 h) as Hsh.
  destruct (wrappers_commands 0 h (drawCommandWrappers_ p)) as [h1 view] eqn:E1.
  simpl.
  pose proof (wrappers_commands_view (drawCommandWrappers_ p) 0 h h1) as Hview.
  pose proof (wrappers_commands_shapes (drawCommandWrappers_ p) 0 h1) as Hsh1.
  destruct (wrappers_commands 0 h1 (drawCommandWrappers_ p)) as [h2 view2].
  rewrite E1 in Hview. simpl in *. subst view2. f_equal.
  by apply createSubPathCommands_shapes.
Qed.

Lemma construct_in_sync (h h' : heap) (path : string) (cmds : list loc) (p : PathData) :
  construct commandsToString h path cmds = Ok (h', p) → in_sync commandsToString h' p.
Proof.
  unfold construct. destruct (initInternalState h cmds) as [st|]; simpl; [|done].
  intros [= E].
  pose proof (rebuild_establishes_sync false h
    (mkSvgPathData cmds (drawCommandWrappers st) [] path (st_length st) (bounds st))) as Hs.
  apply (f_equal fst) in E as E1. apply (f_equal snd) in E as E2. simpl in E1, E2.
  by rewrite E1, E2 in Hs.
Qed.

(** The delete closure rebuilds without [rebuildPathString]: the string
    of the aggregate is the one from before the delete. *)
Lemma onDeleteCommandClick_keeps_string
    (h h' : heap) (self self' : PathData) (f : DeleteClosure) :
  invoke_onDeleteCommandClick commandsToString h self f = Ok (h', self') →
  toString self' = toString self.
Proof.
  unfold invoke_onDeleteCommandClick.
  destruct (drawCommandWrappers_ self !! del_wrapper f) as [cw|]; simpl; [|done].
  destruct (rebuildSplitCommands _ _) as [[h1 cw1]|]; simpl; [|done].
  unfold rebuildInternalState. simpl.
  destruct (wrappers_commands _ _ _). by intros [= _ <-].
Qed.

(** Every public mutation ends with a rebuild, hence in sync. *)
Lemma interpolate_in_sync (h h' : heap) (self self' start end_ : PathData) (fraction : num) :
  in_sync commandsToString h self →
  interpolate commandsToString h self start end_ fraction = Ok (h', self') →
  in_sync commandsToString h' self'.
Proof.
  intros Hsync. unfold interpolate.
  destruct (isMorphableWith h self start) as [m1|]; simpl; [|done].
  destruct (if m1 then isMorphableWith h self end_ else Ok false) as [m2|]; simpl; [|done].
  destruct (negb m1 || negb m2); [by intros [= <- <-]|].
  destruct (forEachM_i _ 0 h (commands_ self)) as [h1|]; simpl; [|done].
  intros [= E]. pose proof (rebuild_establishes_sync false h1 self) as Hs.
  apply (f_equal fst) in E as E1. apply (f_equal snd) in E as E2. simpl in E1, E2.
  by rewrite E1, E2 in Hs.
Qed.

(** The split closure rebuilds with [rebuildPathString]: the string is
    the serialisation of the command view after the split, and the
    sub-paths group that view. *)
Lemma invoke_split_string
    (h h' : heap) (self self' : PathData) (info : ProjectionInfo num) :
  invoke_split commandsToString h self info = Ok (h', self') →
  in_sync commandsToString h' self' ∧
  ∃ h1 view,
    wrappers_commands 0 h1 (drawCommandWrappers_ self') = (h', view) ∧
    toString self' = commandsToString ((λ c, h' !!! c) <$> view) ∧
    commands_ self' = createSubPathCommands h' view.
Proof.
  unfold invoke_split.
  destruct (drawCommandWrappers_ self !! split_wrapper info) as [cw|]; simpl; [|done].
  destruct (split h cw _) as [[h1 cw1]|]; simpl; [|done].
  intros [= E].
  pose proof (rebuild_establishes_sync true h1 (set_wrapper self (split_wrapper info) cw1))
    as Hs.
  apply (f_equal fst) in E as E1. apply (f_equal snd) in E as E2. simpl in E1, E2.
  rewrite E1, E2 in Hs. split; [done|].
  unfold rebuildInternalState in E1, E2.
  destruct (wrappers_commands 0 h1 (drawCommandWrappers_ (set_wrapper self _ cw1)))
    as [h2 view] eqn:Ev.
  simpl in E1, E2. subst h2 self'. simpl. by exists h1, view.
Qed.

(** [project] finds a candidate whenever some wrapper has a segment. *)
Lemma project_is_Some (self : PathData) (point : Point num) :
  project_candidates 0 (drawCommandWrappers_ self) point ≠ [] →
  is_Some (project self point).
Proof.
  intros Hne. unfold project.
  destruct (foldl _ None _) eqn:E; [done|]. by apply closer_fold_None in E.
Qed.

(** *** Interpolation of an arc, from the call to the result *)

Lemma forEachM_i_app {A St : Type} (f : nat → St → A → result St) (i0 : nat) (s : St)
    (xs ys : list A) :
  forEachM_i f i0 s (xs ++ ys)
    = forEachM_i f i0 s xs ≫= λ s', forEachM_i f (i0 + length xs) s' ys.
Proof.
  revert i0 s. induction xs as [|a xs IH]; intros i0 s; simpl.
  - by rewrite Nat.add_0_r.
  - destruct (f i0 s a); simpl; [|done]. rewrite IH. by rewrite Nat.add_succ_r.
Qed.

Lemma flatten_app (xs ys : list SubPathCommand) : flatten (xs ++ ys) = flatten xs ++ flatten ys.
Proof. unfold flatten. by rewrite fmap_app, concat_app. Qed.

Lemma interpolate_arg_frame (d : loc) (d1 d2 : option loc) (fraction : num)
    (k : nat) (h h' : heap) (a : num) (c : loc) :
  interpolate_arg d d1 d2 fraction k h a = Ok h' → c ≠ d → h' !!! c = h !!! c.
Proof.
  unfold interpolate_arg, write_arg. intros Hrun Hne.
  destruct (bool_decide (k = 5) || bool_decide (k = 6)); [destruct (num_eqb fraction num_zero)|];
    destruct d1, d2; simpl in Hrun; try discriminate;
    injection Hrun as <-; by rewrite lookup_total_insert_ne.
Qed.

Lemma interpolate_point_frame (d d1 : loc) (d2 : option loc) (fraction : num)
    (k : nat) (h h' : heap) (c : loc) :
  interpolate_point d d1 d2 fraction h k = Ok h' → c ≠ d → h' !!! c = h !!! c.
Proof.
  unfold interpolate_point, write_point. intros Hrun Hne.
  destruct d2 as [d2|]; simpl in Hrun; [|done].
  destruct (point_at (points (h !!! d1)) k); [|by injection Hrun as <-].
  destruct (point_at (points (h !!! d2)) k); [|by injection Hrun as <-].
  injection Hrun as <-. by rewrite lookup_total_insert_ne.
Qed.

(** The callback for the command [d] writes to [d] only. *)
Lemma interpolate_cmd_frame (start end_ : PathData) (fraction : num) (i j : nat)
    (h h' : heap) (d c : loc) :
  interpolate_cmd start end_ fraction i j h d = Ok h' → c ≠ d → h' !!! c = h !!! c.
Proof.
  unfold interpolate_cmd. intros Hrun Hne.
  destruct (commands_ start !! i) as [s1|]; simpl in Hrun; [|done].
  destruct (commands_ end_ !! i) as [s2|]; simpl in Hrun; [|done].
  destruct (instanceof EllipticalArcCommand h d).
  - revert Hrun. generalize 0 at 1. generalize (args (h !!! d)). intros xs.
    revert h. induction xs as [|a xs IH]; intros h k0; simpl; [by intros [= <-]|].
    destruct (interpolate_arg _ _ _ _ k0 h a) as [h1|] eqn:E1; simpl; [|done].
    intros Hrun. rewrite (IH _ _ Hrun). by eapply interpolate_arg_frame.
  - destruct (spc_commands s1 !! j) as [d1|]; simpl in Hrun; [|done].
    revert Hrun. generalize (seq 0 (length (points (h !!! d1)))). intros ks.
    revert h. induction ks as [|k ks IH]; intros h; simpl; [by intros [= <-]|].
    destruct (interpolate_point _ _ _ _ h k) as [h1|] eqn:E1; simpl; [|done].
    intros Hrun. rewrite (IH _ Hrun). by eapply interpolate_point_frame.
Qed.

Lemma interpolate_subpath_frame (start end_ : PathData) (fraction : num) (i : nat)
    (xs : list loc) (c : loc) :
  ∀ j0 h h', forEachM_i (interpolate_cmd start end_ fraction i) j0 h xs = Ok h' →
             c ∉ xs → h' !!! c = h !!! c.
Proof.
  induction xs as [|d xs IH]; intros j0 h h'; simpl; [by intros [= <-]|].
  destruct (interpolate_cmd _ _ _ _ j0 h d) as [h1|] eqn:E1; simpl; [|done].
  intros Hrun [Hne Hnot]%not_elem_of_cons.
  rewrite (IH _ _ _ Hrun Hnot). by eapply interpolate_cmd_frame.
Qed.

Lemma interpolate_path_frame (start end_ : PathData) (fraction : num)
    (ss : list SubPathCommand) (c : loc) :
  ∀ i0 h h',
    forEachM_i
      (λ i h s, forEachM_i (interpolate_cmd start end_ fraction i) 0 h (spc_commands s))
      i0 h ss = Ok h' →
    c ∉ flatten ss → h' !!! c = h !!! c.
Proof.
  induction ss as [|s ss IH]; intros i0 h h'; simpl; [by intros [= <-]|].
  destruct (forEachM_i _ 0 h (spc_commands s)) as [h1|] eqn:E1; simpl; [|done].
  intros Hrun Hnot. change (flatten (s :: ss)) with (spc_commands s ++ flatten ss) in Hnot.
  apply not_elem_of_app in Hnot as [Hs Hss].
  rewrite (IH _ _ _ Hrun Hss). by eapply interpolate_subpath_frame.
Qed.

(** The getter [commands] leaves points and args alone. *)
Lemma wrappers_commands_payload (ws : list Wrapper) (wi : nat) (h : heap) (c : loc) :
  points ((wrappers_commands wi h ws).1 !!! c) = points (h !!! c) ∧
  args ((wrappers_commands wi h ws).1 !!! c) = args (h !!! c).
Proof.
  revert wi h. induction ws as [|cw ws IH]; intros wi h; simpl; [done|].
  destruct (DrawCommandWrapper_commands wi h cw) as [h1 cmds] eqn:E1.
  pose proof (IH (S wi) h1) as IH'.
  destruct (wrappers_commands (S wi) h1 ws) as [h2 rest]. simpl in *.
  destruct IH' as [-> ->].
  unfold DrawCommandWrapper_commands in E1.
  case_bool_decide; injection E1 as <- _; [|done].
  generalize (seq 0 (length (splitCommands cw) - 1)). intros ks.
  revert h. induction ks as [|k ks IHk]; intros h; simpl; [done|].
  destruct (IHk (install_delete wi cw h k)) as [-> ->].
  unfold install_delete. destruct (splitCommands cw !! k) as [cmd|]; [|done].
  destruct (decide (c = cmd)) as [->|Hne].
  - by rewrite lookup_total_insert_eq.
  - by rewrite lookup_total_insert_ne.
Qed.

(** Morphable paths have, at every place of [self], a command of the
    same shape. *)
Lemma morphable_at (h : heap) (self cmd : PathData) (i j : nat)
    (s : SubPathCommand) (d : loc) :
  isMorphableWith h self cmd = Ok true →
  commands_ self !! i = Some s → spc_commands s !! j = Some d →
  ∃ s1 d1, commands_ cmd !! i = Some s1 ∧ spc_commands s1 !! j = Some d1 ∧
           shape h d1 = shape h d.
Proof.
  intros Hm%isMorphableWith_topology Hs Hd. unfold topology in Hm.
  assert (H1 : ((λ s, shape h <$> spc_commands s) <$> commands_ self) !! i
               = Some (shape h <$> spc_commands s))
    by (by rewrite list_lookup_fmap, Hs).
  rewrite Hm, list_lookup_fmap in H1.
  destruct (commands_ cmd !! i) as [s1|]; [|done]. simpl in H1. injection H1 as H1.
  assert (H2 : (shape h <$> spc_commands s) !! j = Some (shape h d))
    by (by rewrite list_lookup_fmap, Hd).
  rewrite <- H1, list_lookup_fmap in H2.
  destruct (spc_commands s1 !! j) as [d1|] eqn:Ed1; [|done]. simpl in H2.
  exists s1, d1. repeat split; try done. congruence.
Qed.

(** The run of [interpolate] on a path with distinct command objects,
    cut at the callback for the command [d] at the place [(i, j)]: the
    callback starts in a store [hb] that is the store of the call on [d]
    and on every object that is no command of [self], and what it leaves
    in [d] is what the call returns in [d]. *)
Lemma interpolate_run_at
    (h : heap) (self start end_ : PathData) (fraction : num) (i j : nat)
    (s : SubPathCommand) (d : loc) :
  isMorphableWith h self start = Ok true →
  isMorphableWith h self end_ = Ok true →
  commands_ self !! i = Some s → spc_commands s !! j = Some d →
  NoDup (flatten (commands_ self)) →
  ∃ hb hc h' self',
    interpolate commandsToString h self start end_ fraction = Ok (h', self') ∧
    interpolate_cmd start end_ fraction i j hb d = Ok hc ∧
    (∀ c, c = d ∨ c ∉ flatten (commands_ self) → hb !!! c = h !!! c) ∧
    ctor (h' !!! d) = ctor (hc !!! d) ∧
    points (h' !!! d) = points (hc !!! d) ∧
    args (h' !!! d) = args (hc !!! d).
Proof.
  intros Hm1 Hm2 Hs Hd Hnodup.
  unfold interpolate. rewrite Hm1. simpl. rewrite Hm2. simpl.
  apply isMorphableWith_topology in Hm1, Hm2.
  destruct (interpolate_path_loop start end_ fraction h (commands_ self) 0 h)
    as (h1 & Hrun & _); [apply same_shapes_refl| |].
  { intros k s' Hs'. simpl. unfold topology in Hm1, Hm2.
    assert (H1 : ((λ s, shape h <$> spc_commands s) <$> commands_ self) !! k
                 = Some (shape h <$> spc_commands s'))
      by (by rewrite list_lookup_fmap, Hs').
    pose proof H1 as H2. rewrite Hm1, list_lookup_fmap in H1.
    rewrite Hm2, list_lookup_fmap in H2.
    destruct (commands_ start !! k) as [s1'|]; [|done].
    destruct (commands_ end_ !! k) as [s2'|]; [|done].
    exists s1', s2'. simpl in H1, H2. injection H1 as H1. injection H2 as H2. done. }
  rewrite Hrun. simpl.
  (* the run, cut at the sub-path [i] and at the command [j] *)
  pose proof (take_drop_middle _ _ _ Hs) as Hcs.
  pose proof (take_drop_middle _ _ _ Hd) as Hcmds.
  assert (Hi : length (take i (commands_ self)) = i).
  { rewrite length_take. apply lookup_lt_Some in Hs. lia. }
  assert (Hj : length (take j (spc_commands s)) = j).
  { rewrite length_take. apply lookup_lt_Some in Hd. lia. }
  assert (Hflat : flatten (commands_ self)
                  = flatten (take i (commands_ self))
                    ++ (take j (spc_commands s) ++ d :: drop (S j) (spc_commands s))
                    ++ flatten (drop (S i) (commands_ self))).
  { rewrite <- Hcs at 1. rewrite flatten_app.
    change (flatten (s :: drop (S i) (commands_ self)))
      with (spc_commands s ++ flatten (drop (S i) (commands_ self))).
    by rewrite Hcmds. }
  rewrite <- Hcs in Hrun.
  rewrite forEachM_i_app in Hrun. simpl in Hrun. rewrite Hi in Hrun.
  destruct (forEachM_i _ 0 h (take i (commands_ self))) as [ha|] eqn:Ea;
    simpl in Hrun; [|done].
  destruct (forEachM_i (interpolate_cmd start end_ fraction i) 0 ha (spc_commands s))
    as [hd|] eqn:Es; simpl in Hrun; [|done].
  rewrite <- Hcmds in Es. rewrite forEachM_i_app in Es. simpl in Es. rewrite Hj in Es.
  destruct (forEachM_i _ 0 ha (take j (spc_commands s))) as [hb|] eqn:Eb;
    simpl in Es; [|done].
  destruct (interpolate_cmd start end_ fraction i j hb d) as [hc|] eqn:Ec;
    simpl in Es; [|done].
  (* where [d] is, and is not *)
  rewrite Hflat in Hnodup.
  apply NoDup_app in Hnodup as (_ & Hpre & Hnodup).
  apply NoDup_app in Hnodup as (Hnodup & Hpost & _).
  apply NoDup_app in Hnodup as (_ & Hpre' & Hnodup).
  apply NoDup_cons in Hnodup as [Hpost' _].
  assert (Hin : d ∈ (take j (spc_commands s) ++ d :: drop (S j) (spc_commands s))).
  { apply elem_of_app. right. by left. }
  assert (Hpre_d : d ∉ flatten (take i (commands_ self))).
  { intros Hx. apply (Hpre d Hx). apply elem_of_app. by left. }
  assert (Hpre'_d : d ∉ take j (spc_commands s)).
  { intros Hx. apply (Hpre' d Hx). by left. }
  assert (Hpost_d : d ∉ flatten (drop (S i) (commands_ self))).
  { intros Hx. by apply (Hpost d Hin). }
  (* the store in front of the callback for [d] *)
  assert (Hb : ∀ c, c = d ∨ c ∉ flatten (commands_ self) → hb !!! c = h !!! c).
  { intros c Hc.
    assert (Hca : c ∉ flatten (take i (commands_ self))).
    { destruct Hc as [->|Hc]; [done|]. intros Hx. apply Hc. rewrite Hflat.
      apply elem_of_app. by left. }
    assert (Hcb : c ∉ take j (spc_commands s)).
    { destruct Hc as [->|Hc]; [done|]. intros Hx. apply Hc. rewrite Hflat.
      apply elem_of_app. right. apply elem_of_app. left. apply elem_of_app. by left. }
    rewrite (interpolate_subpath_frame _ _ _ _ _ _ _ _ _ Eb Hcb).
    by rewrite (interpolate_path_frame _ _ _ _ _ _ _ _ Ea Hca). }
  (* the store behind it *)
  assert (He : h1 !!! d = hc !!! d).
  { rewrite (interpolate_path_frame _ _ _ _ _ _ _ _ Hrun Hpost_d).
    by rewrite (interpolate_subpath_frame _ _ _ _ _ _ _ _ _ Es Hpost'). }
  destruct (rebuildInternalState commandsToString false h1 self) as [h2 self'] eqn:E.
  assert (Hh2 : h2 = (wrappers_commands 0 h1 (drawCommandWrappers_ self)).1).
  { unfold rebuildInternalState in E.
    destruct (wrappers_commands 0 h1 (drawCommandWrappers_ self)). by injection E as <- _. }
  destruct (wrappers_commands_payload (drawCommandWrappers_ self) 0 h1 d) as [Hpts Hargs].
  pose proof (wrappers_commands_shapes (drawCommandWrappers_ self) 0 h1 d) as Hshape.
  unfold shape in Hshape. injection Hshape as Hctor _.
  exists hb, hc, h2, self'. split; [reflexivity|]. split; [done|]. split; [done|].
  rewrite Hh2, Hctor, Hpts, Hargs, He. done.
Qed.

(** C5: [interpolate] on a path [self] with distinct command objects that
    is morphable with [start] and [end], at an EllipticalArc command [d]
    of [self], with [d1] and [d2] the commands of [start] and [end] at
    the same place (each of them [d] itself or no command of [self]):
    the call returns, and every arg position of [d] other than 5 and 6
    is [lerp (d1.arg, d2.arg, fraction)] of the args before the call;
    positions 5 and 6 (the large-arc and sweep flags) are not
    interpolated: they are those of [d1] when [fraction === 0] and those
    of [d2] for every other fraction.  The variant, the points and the
    number of args of [d] stay. *)
Theorem interpolate_arc_args
    (h : heap) (self start end_ : PathData) (fraction : num) (i j : nat)
    (s s1 s2 : SubPathCommand) (d d1 d2 : loc) :
  isMorphableWith h self start = Ok true →
  isMorphableWith h self end_ = Ok true →
  commands_ self !! i = Some s → spc_commands s !! j = Some d →
  commands_ start !! i = Some s1 → spc_commands s1 !! j = Some d1 →
  commands_ end_ !! i = Some s2 → spc_commands s2 !! j = Some d2 →
  instanceof EllipticalArcCommand h d = true →
  NoDup (flatten (commands_ self)) →
  d1 = d ∨ d1 ∉ flatten (commands_ self) →
  d2 = d ∨ d2 ∉ flatten (commands_ self) →
  ∃ h' self',
    interpolate commandsToString h self start end_ fraction = Ok (h', self') ∧
    ctor (h' !!! d) = ctor (h !!! d) ∧
    points (h' !!! d) = points (h !!! d) ∧
    length (args (h' !!! d)) = length (args (h !!! d)) ∧
    ∀ k, k < length (args (h !!! d)) →
      (k ≠ 5 → k ≠ 6 →
       args (h' !!! d) !! k
         = Some (lerp (arg_at (args (h !!! d1)) k) (arg_at (args (h !!! d2)) k) fraction)) ∧
      (k = 5 ∨ k = 6 → num_eqb fraction num_zero = true →
       args (h' !!! d) !! k = Some (arg_at (args (h !!! d1)) k)) ∧
      (k = 5 ∨ k = 6 → num_eqb fraction num_zero = false →
       args (h' !!! d) !! k = Some (arg_at (args (h !!! d2)) k)).
Proof.
  intros Hm1 Hm2 Hs Hd Hs1 Hd1 Hs2 Hd2 Harc Hnodup Hd1n Hd2n.
  destruct (interpolate_run_at h self start end_ fraction i j s d)
    as (hb & hc & h' & self' & Hrun & Hcb & Hb & Hctor & Hpts & Hargs); try done.
  assert (Harc' : instanceof EllipticalArcCommand hb d = true).
  { unfold instanceof in *. rewrite (Hb d) by (by left). done. }
  destruct (interpolate_cmd_arc start end_ fraction i j hb d d1 d2 s1 s2)
    as (hc' & ak' & Hrun' & _ & Hnew & Hlen & Hval); try done.
  rewrite Hcb in Hrun'. injection Hrun' as <-.
  rewrite (Hb d) in Hnew, Hlen, Hval by (by left).
  rewrite (Hb d1), (Hb d2) in Hval by done.
  exists h', self'. split; [done|]. rewrite Hctor, Hpts, Hargs, Hnew. simpl.
  repeat split; try done.
  - intros H5 H6. rewrite Hval by done. by rewrite !bool_decide_eq_false_2.
  - intros H56 Hz. rewrite Hval by done. rewrite Hz. by destruct H56 as [-> | ->].
  - intros H56 Hz. rewrite Hval by done. rewrite Hz. by destruct H56 as [-> | ->].
Qed.
(** *** What interpolation changes *)

Lemma values_only_refl (h : heap) : values_only h h.
Proof. intros c. done. Qed.

Lemma values_only_trans (h1 h2 h3 : heap) :
  values_only h1 h2 → values_only h2 h3 → values_only h1 h3.
Proof.
  intros H12 H23 c. destruct (H12 c) as (Hc & Hf & Harc & Hother).
  destruct (H23 c) as (Hc' & Hf' & Harc' & Hother').
  split; [congruence|]. split; [congruence|]. split.
  - intros Hk. destruct (Harc Hk) as [Hp Ha].
    destruct Harc' as [Hp' Ha']; [congruence|]. split; congruence.
  - intros Hk. rewrite Hother' by congruence. by apply Hother.
Qed.

Lemma values_only_update (h : heap) (d : loc) (c' : DrawCommand num) :
  ctor c' = ctor (h !!! d) →
  onDeleteCommandClick c' = onDeleteCommandClick (h !!! d) →
  (ctor (h !!! d) = EllipticalArcCommand →
   points c' = points (h !!! d) ∧ length (args c') = length (args (h !!! d))) →
  (ctor (h !!! d) ≠ EllipticalArcCommand → args c' = args (h !!! d)) →
  values_only h (<[d := c']> h).
Proof.
  intros Hc Hf Harc Hother c. destruct (decide (c = d)) as [->|Hne].
  - by rewrite lookup_total_insert_eq.
  - by rewrite lookup_total_insert_ne.
Qed.

(** An assignment to an arg of an arc. *)
Lemma interpolate_arg_values (d : loc) (d1 d2 : option loc) (fraction : num)
    (k : nat) (h h' : heap) (a : num) :
  interpolate_arg d d1 d2 fraction k h a = Ok h' →
  ctor (h !!! d) = EllipticalArcCommand → values_only h h'.
Proof.
  unfold interpolate_arg, write_arg. intros Hrun Harc.
  destruct (bool_decide (k = 5) || bool_decide (k = 6)); [destruct (num_eqb fraction num_zero)|];
    destruct d1, d2; simpl in Hrun; try discriminate;
    injection Hrun as <-;
    (apply values_only_update; simpl;
     [done|done|intros _; split; [done|apply length_insert]|intros Hne; by destruct Hne]).
Qed.

(** An assignment to a point of a command that is no arc. *)
Lemma interpolate_point_values (d d1 : loc) (d2 : option loc) (fraction : num)
    (k : nat) (h h' : heap) :
  interpolate_point d d1 d2 fraction h k = Ok h' →
  ctor (h !!! d) ≠ EllipticalArcCommand → values_only h h'.
Proof.
  unfold interpolate_point, write_point. intros Hrun Hne.
  destruct d2 as [d2|]; simpl in Hrun; [|done].
  destruct (point_at (points (h !!! d1)) k);
    [|injection Hrun as <-; apply values_only_refl].
  destruct (point_at (points (h !!! d2)) k);
    [|injection Hrun as <-; apply values_only_refl].
  injection Hrun as <-. apply values_only_update; simpl; try done.
Qed.

Lemma interpolate_cmd_values (start end_ : PathData) (fraction : num) (i j : nat)
    (h h' : heap) (d : loc) :
  interpolate_cmd start end_ fraction i j h d = Ok h' → values_only h h'.
Proof.
  unfold interpolate_cmd. intros Hrun.
  destruct (commands_ start !! i) as [s1|]; simpl in Hrun; [|done].
  destruct (commands_ end_ !! i) as [s2|]; simpl in Hrun; [|done].
  destruct (instanceof EllipticalArcCommand h d) eqn:Harc; unfold instanceof in Harc.
  - apply bool_decide_eq_true_1 in Harc.
    revert Hrun. generalize 0 at 1. generalize (args (h !!! d)). intros xs.
    revert h Harc. induction xs as [|a xs IH]; intros h Harc k0; simpl;
      [intros [= <-]; apply values_only_refl|].
    destruct (interpolate_arg _ _ _ _ k0 h a) as [h1|] eqn:E1; simpl; [|done].
    intros Hrun. pose proof (interpolate_arg_values _ _ _ _ _ _ _ _ E1 Harc) as H1.
    eapply values_only_trans; [exact H1|]. eapply (IH h1); [|exact Hrun].
    destruct (H1 d) as [-> _]. done.
  - apply bool_decide_eq_false_1 in Harc.
    destruct (spc_commands s1 !! j) as [d1|]; simpl in Hrun; [|done].
    revert Hrun. generalize (seq 0 (length (points (h !!! d1)))). intros ks.
    revert h Harc. induction ks as [|k ks IH]; intros h Harc; simpl;
      [intros [= <-]; apply values_only_refl|].
    destruct (interpolate_point _ _ _ _ h k) as [h1|] eqn:E1; simpl; [|done].
    intros Hrun. pose proof (interpolate_point_values _ _ _ _ _ _ _ E1 Harc) as H1.
    eapply values_only_trans; [exact H1|]. apply (IH h1); [|exact Hrun].
    destruct (H1 d) as [-> _]. done.
Qed.

Lemma interpolate_subpath_values (start end_ : PathData) (fraction : num) (i : nat)
    (xs : list loc) :
  ∀ j0 h h', forEachM_i (interpolate_cmd start end_ fraction i) j0 h xs = Ok h' →
             values_only h h'.
Proof.
  induction xs as [|d xs IH]; intros j0 h h'; simpl;
    [intros [= <-]; apply values_only_refl|].
  destruct (interpolate_cmd _ _ _ _ j0 h d) as [h1|] eqn:E1; simpl; [|done].
  intros Hrun. eapply values_only_trans; [by eapply interpolate_cmd_values|].
  by eapply IH.
Qed.

Lemma interpolate_path_values (start end_ : PathData) (fraction : num)
    (ss : list SubPathCommand) :
  ∀ i0 h h',
    forEachM_i
      (λ i h s, forEachM_i (interpolate_cmd start end_ fraction i) 0 h (spc_commands s))
      i0 h ss = Ok h' →
    values_only h h'.
Proof.
  induction ss as [|s ss IH]; intros i0 h h'; simpl;
    [intros [= <-]; apply values_only_refl|].
  destruct (forEachM_i _ 0 h (spc_commands s)) as [h1|] eqn:E1; simpl; [|done].
  intros Hrun. eapply values_only_trans; [by eapply interpolate_subpath_values|].
  by eapply IH.
Qed.

(** The delete closures that the getter [commands] installs do not
    depend on the points and the args of the store. *)
Lemma install_delete_closures (wi : nat) (cw : Wrapper) (ks : list nat) :
  ∀ h h1 : heap,
    (∀ c, onDeleteCommandClick (h1 !!! c) = onDeleteCommandClick (h !!! c)) →
    ∀ c, onDeleteCommandClick (foldl (install_delete wi cw) h1 ks !!! c)
         = onDeleteCommandClick (foldl (install_delete wi cw) h ks !!! c).
Proof.
  induction ks as [|k ks IH]; intros h h1 Hsame; simpl; [done|].
  apply IH. intros c. unfold install_delete.
  destruct (splitCommands cw !! k) as [cmd|]; [|done].
  destruct (decide (c = cmd)) as [->|Hne].
  - by rewrite !lookup_total_insert_eq.
  - by rewrite !lookup_total_insert_ne.
Qed.

Lemma wrappers_commands_closures (ws : list Wrapper) :
  ∀ (wi : nat) (h h1 : heap),
    (∀ c, onDeleteCommandClick (h1 !!! c) = onDeleteCommandClick (h !!! c)) →
    ∀ c, onDeleteCommandClick ((wrappers_commands wi h1 ws).1 !!! c)
         = onDeleteCommandClick ((wrappers_commands wi h ws).1 !!! c).
Proof.
  induction ws as [|cw ws IH]; intros wi h h1 Hsame; simpl; [done|].
  destruct (DrawCommandWrapper_commands wi h cw) as [ha cmds] eqn:E.
  destruct (DrawCommandWrapper_commands wi h1 cw) as [ha1 cmds1] eqn:E1.
  pose proof (IH (S wi) ha ha1) as IH'.
  destruct (wrappers_commands (S wi) ha ws) as [hb rest].
  destruct (wrappers_commands (S wi) ha1 ws) as [hb1 rest1]. simpl in *.
  apply IH'. unfold DrawCommandWrapper_commands in E, E1.
  case_bool_decide; injection E as <- _; injection E1 as <- _; [|done].
  by apply install_delete_closures.
Qed.

(** C9: for [self] in sync and morphable with [start] and with [end],
    [interpolate] returns normally and leaves the topology as it was:
    the same sub-paths with the same command objects, every command with
    its variant and its number of points; [self] stays morphable with
    [start] and with [end].  What it assigns, in place, are points of
    commands that are no arcs and args of arcs, the flags at positions 5
    and 6 among them: an arc keeps its points, every other command keeps
    its args, the number of args of every command stays, an object that
    is no command of [self] keeps its points and its args, and the
    delete closures are those that a rebuild of [self] installs. *)
Theorem interpolate_keeps_topology
    (h : heap) (self start end_ : PathData) (fraction : num) :
  in_sync commandsToString h self →
  isMorphableWith h self start = Ok true →
  isMorphableWith h self end_ = Ok true →
  ∃ h' self',
    interpolate commandsToString h self start end_ fraction = Ok (h', self') ∧
    commands_ self' = commands_ self ∧
    same_shapes h h' ∧
    topology h' self' = topology h self ∧
    isMorphableWith h' self' start = Ok true ∧
    isMorphableWith h' self' end_ = Ok true ∧
    (∀ c, ctor (h !!! c) = EllipticalArcCommand → points (h' !!! c) = points (h !!! c)) ∧
    (∀ c, ctor (h !!! c) ≠ EllipticalArcCommand → args (h' !!! c) = args (h !!! c)) ∧
    (∀ c, length (args (h' !!! c)) = length (args (h !!! c))) ∧
    (∀ c, c ∉ flatten (commands_ self) →
       points (h' !!! c) = points (h !!! c) ∧ args (h' !!! c) = args (h !!! c)) ∧
    (∀ c, onDeleteCommandClick (h' !!! c)
          = onDeleteCommandClick
              ((rebuildInternalState commandsToString false h self).1 !!! c)).
Proof.
  intros Hsync Hm1 Hm2. unfold interpolate. rewrite Hm1. simpl. rewrite Hm2. simpl.
  apply isMorphableWith_topology in Hm1, Hm2.
  destruct (interpolate_path_loop start end_ fraction h (commands_ self) 0 h)
    as (h1 & Hrun & Hsame1); [apply same_shapes_refl| |].
  { intros k s Hs. simpl. unfold topology in Hm1, Hm2.
    assert (H1 : ((λ s, shape h <$> spc_commands s) <$> commands_ self) !! k
                 = Some (shape h <$> spc_commands s))
      by (by rewrite list_lookup_fmap, Hs).
    pose proof H1 as H2. rewrite Hm1, list_lookup_fmap in H1.
    rewrite Hm2, list_lookup_fmap in H2.
    destruct (commands_ start !! k) as [s1|]; [|done].
    destruct (commands_ end_ !! k) as [s2|]; [|done].
    exists s1, s2. simpl in H1, H2. injection H1 as H1. injection H2 as H2. done. }
  rewrite Hrun. simpl.
  pose proof (interpolate_path_values _ _ _ _ _ _ _ Hrun) as Hvalues.
  pose proof (rebuild_in_sync h h1 self Hsync Hsame1) as Hself.
  pose proof (wrappers_commands_shapes (drawCommandWrappers_ self) 0 h1) as Hsame2.
  pose proof (wrappers_commands_payload (drawCommandWrappers_ self) 0 h1) as Hpayload.
  pose proof (wrappers_commands_closures (drawCommandWrappers_ self) 0 h h1) as Hclosures.
  destruct (rebuildInternalState commandsToString false h1 self) as [h2 self'] eqn:E.
  assert (Hh2 : h2 = (wrappers_commands 0 h1 (drawCommandWrappers_ self)).1).
  { unfold rebuildInternalState in E.
    destruct (wrappers_commands 0 h1 (drawCommandWrappers_ self)). by injection E as <- _. }
  assert (Hh0 : (rebuildInternalState commandsToString false h self).1
                = (wrappers_commands 0 h (drawCommandWrappers_ self)).1).
  { unfold rebuildInternalState.
    by destruct (wrappers_commands 0 h (drawCommandWrappers_ self)). }
  simpl in Hself. subst self'. rewrite <- Hh2 in Hsame2, Hpayload, Hclosures.
  assert (Hsame : same_shapes h h2) by (by eapply same_shapes_trans).
  exists h2, self. split; [done|]. split; [done|]. split; [done|].
  split; [by apply topology_shapes|].
  split; [apply isMorphableWith_topology; by rewrite !(topology_shapes h h2) by done|].
  split; [apply isMorphableWith_topology; by rewrite !(topology_shapes h h2) by done|].
  split; [|split; [|split; [|split]]].
  - intros c Hc. destruct (Hpayload c) as [-> _].
    destruct (Hvalues c) as (_ & _ & Harc & _). by apply Harc.
  - intros c Hc. destruct (Hpayload c) as [_ ->].
    destruct (Hvalues c) as (_ & _ & _ & Hother). by apply Hother.
  - intros c. destruct (Hpayload c) as [_ ->].
    destruct (Hvalues c) as (_ & _ & Harc & Hother).
    destruct (decide (ctor (h !!! c) = EllipticalArcCommand)) as [Hk|Hk].
    + by apply Harc.
    + by rewrite Hother.
  - intros c Hc. destruct (Hpayload c) as [-> ->].
    by rewrite (interpolate_path_frame _ _ _ _ _ _ _ _ Hrun Hc).
  - intros c. rewrite Hh0. apply Hclosures. intros c'.
    by destruct (Hvalues c') as (_ & -> & _).
Qed.
End EngineFacts.

(** * Further properties of the engine *)

Section MoreFacts.
Context {num Bezier : Type} `{!Numeric num} `{!Geometry num Bezier}.
Variable commandsToString : list (DrawCommand num) → string.

Abbreviation heap := (gmap loc (DrawCommand num)).
Abbreviation Wrapper := (DrawCommandWrapper num Bezier).
Abbreviation PathData := (SvgPathData num Bezier).
Abbreviation State := (InternalState num Bezier).

(** *** Morphability is an equivalence on topologies *)

Lemma isMorphableWith_bool (h : heap) (a b : PathData) (m : bool) :
  isMorphableWith h a b = Ok m → (m = true ↔ topology h a = topology h b).
Proof.
  intros E. rewrite <- isMorphableWith_topology, E. split; [by intros ->|by intros [= ->]].
Qed.

(** X1: [isMorphableWith] is symmetric: [a.isMorphableWith(b)] and
    [b.isMorphableWith(a)] return the same boolean, and neither throws. *)
Theorem isMorphableWith_symmetric (h : heap) (a b : PathData) :
  ∃ m, isMorphableWith h a b = Ok m ∧ isMorphableWith h b a = Ok m.
Proof.
  destruct (isMorphableWith_total h a b) as [m1 E1].
  destruct (isMorphableWith_total h b a) as [m2 E2].
  exists m1. split; [done|]. rewrite E2. f_equal.
  apply isMorphableWith_bool in E1, E2.
  destruct m1, m2; try done.
  - assert (false = true) as [=]. apply E2. symmetry. by apply E1.
  - assert (false = true) as [=]. apply E1. symmetry. by apply E2.
Qed.

(** X2: every path is morphable with itself, and a path morphable with a
    second one that is morphable with a third is morphable with the
    third. *)
Theorem isMorphableWith_reflexive_transitive (h : heap) (a b c : PathData) :
  isMorphableWith h a a = Ok true ∧
  (isMorphableWith h a b = Ok true → isMorphableWith h b c = Ok true →
   isMorphableWith h a c = Ok true).
Proof.
  rewrite !isMorphableWith_topology. split; [done|]. by intros -> ->.
Qed.

(** X3: morphability looks at the variant and the number of points of
    the commands only: in a store where every command has the same
    variant and as many points (coordinates, arc args and flags may all
    differ) the check gives the same answer. *)
Theorem isMorphableWith_shapes_only (h h' : heap) (a b : PathData) :
  same_shapes h h' → isMorphableWith h' a b = isMorphableWith h a b.
Proof.
  intros Hsame.
  destruct (isMorphableWith_total h a b) as [m1 E1].
  destruct (isMorphableWith_total h' a b) as [m2 E2].
  rewrite E1, E2. f_equal.
  apply isMorphableWith_bool in E1, E2.
  rewrite !(topology_shapes h h') in E2 by done.
  destruct m1, m2; try done.
  - assert (false = true) as [=]. apply E2. by apply E1.
  - assert (false = true) as [=]. apply E1. by apply E2.
Qed.

(** *** The groups of [createSubPathCommands] *)

Lemma group_scan_groups (h : heap) (cmds : list loc) :
  ∀ cmdGroups currentCmdList,
    foldl (group_step h) ([], []) (reverse cmds) = (cmdGroups, currentCmdList) →
    Forall (λ g, ∃ m rest, reverse g = m :: rest ∧ instanceof MoveCommand h m = true ∧
                           Forall (λ c, instanceof MoveCommand h c = false) rest) cmdGroups ∧
    Forall (λ c, instanceof MoveCommand h c = false) currentCmdList ∧
    length cmdGroups = length (filter (λ c, ctor (h !!! c) = MoveCommand) cmds).
Proof.
  induction cmds as [|c cmds IH]; intros gs cur.
  - simpl. intros [= <- <-]. done.
  - rewrite reverse_cons, foldl_app. simpl.
    destruct (foldl (group_step h) ([], []) (reverse cmds)) as [gs0 cur0] eqn:E.
    destruct (IH _ _ eq_refl) as (Hgs & Hcur & Hlen).
    unfold group_step. destruct (instanceof MoveCommand h c) eqn:Hm.
    + intros [= <- <-]. split; [|split; [done|]].
      * apply Forall_app. split; [done|]. constructor; [|done].
        exists c, (reverse cur0). rewrite reverse_app. repeat split; try done.
        by apply Forall_reverse.
      * rewrite length_app, filter_cons_True by (by apply bool_decide_eq_true in Hm).
        simpl. lia.
    + intros [= <- <-]. split; [done|]. split.
      * apply Forall_app. split; [done|]. by constructor.
      * rewrite filter_cons_False; [done|].
        intros Hc. unfold instanceof in Hm. by rewrite bool_decide_eq_true_2 in Hm.
Qed.

(** X4: every sub-path returned by [createSubPathCommands] begins with a
    Move command and holds no other Move command; in particular none is
    empty. *)
Theorem createSubPathCommands_groups (h : heap) (cmds : list loc) (s : SubPathCommand) :
  s ∈ createSubPathCommands h cmds →
  ∃ m rest, spc_commands s = m :: rest ∧
    instanceof MoveCommand h m = true ∧
    Forall (λ c, instanceof MoveCommand h c = false) rest.
Proof.
  unfold createSubPathCommands. case_bool_decide; [by intros ?%elem_of_nil|].
  destruct (foldl (group_step h) ([], []) (reverse cmds)) as [gs cur] eqn:E.
  destruct (group_scan_groups _ _ _ _ E) as (Hgs & _ & _).
  intros (g & -> & Hg)%list_elem_of_fmap. rewrite elem_of_reverse in Hg.
  rewrite Forall_forall in Hgs.
  destruct (Hgs g Hg) as (m & rest & Hrev & Hm & Hrest). by exists m, rest.
Qed.

(** X5: [createSubPathCommands] returns as many sub-paths as there are
    Move commands in the sequence: none for the empty sequence and none
    for a sequence without a Move. *)
Theorem createSubPathCommands_length (h : heap) (cmds : list loc) :
  length (createSubPathCommands h cmds)
    = length (filter (λ c, ctor (h !!! c) = MoveCommand) cmds).
Proof.
  unfold createSubPathCommands. case_bool_decide as Hlen.
  - by destruct cmds.
  - destruct (foldl (group_step h) ([], []) (reverse cmds)) as [gs cur] eqn:E.
    destruct (group_scan_groups _ _ _ _ E) as (_ & _ & <-).
    by rewrite length_fmap, length_reverse.
Qed.

Lemma createSubPathCommands_cons_other (h : heap) (c : loc) (cmds : list loc) :
  instanceof MoveCommand h c = false →
  createSubPathCommands h (c :: cmds) = createSubPathCommands h cmds.
Proof.
  intros Hc. unfold createSubPathCommands. simpl bool_decide at 1.
  rewrite reverse_cons, foldl_app. simpl.
  destruct (foldl (group_step h) ([], []) (reverse cmds)) as [gs cur] eqn:E.
  unfold group_step. rewrite Hc. case_bool_decide as Hlen; [|done].
  destruct cmds; [|done]. simpl in E. by injection E as <- <-.
Qed.

(** X6: grouping is stable: grouping the flattened sub-paths again gives
    the same sub-paths. *)
Theorem createSubPathCommands_regroup (h : heap) (cmds : list loc) :
  createSubPathCommands h (flatten (createSubPathCommands h cmds))
    = createSubPathCommands h cmds.
Proof.
  rewrite createSubPathCommands_flatten.
  induction cmds as [|c cmds IH]; [done|]. simpl.
  destruct (instanceof MoveCommand h c) eqn:Hc; [done|].
  by rewrite IH, createSubPathCommands_cons_other.
Qed.

(** *** The wrappers of the derivation pass *)

(** One iteration pushes no wrapper (a ClosePath without first point) or
    one wrapper for the command at hand: without segments for a Move,
    with one segment for a Line, a ClosePath or a curve. *)
Lemma init_step_pushes (h : heap) (st st' : State) (c : loc) :
  init_step h st c = Ok st' →
  drawCommandWrappers st' = drawCommandWrappers st ∨
  ∃ bs, drawCommandWrappers st' = drawCommandWrappers st ++ [new_DrawCommandWrapper c bs] ∧
        (ctor (h !!! c) = MoveCommand → bs = []) ∧
        (splittable (ctor (h !!! c)) = true → ∃ b, bs = [b]).
Proof.
  unfold init_step. destruct (ctor (h !!! c)) eqn:Hk.
  - destruct (point_at _ 1); simpl; [|done]. intros [= <-]. simpl.
    right. eexists. split; [done|]. done.
  - destruct (point_at _ 1); simpl; [|done]. intros [= <-]. simpl.
    right. eexists. split; [done|]. split; [done|]. by eexists.
  - destruct (point_at _ 1); simpl; [|done].
    destruct (point_at _ 2); simpl; [|done]. intros [= <-]. simpl.
    right. eexists. split; [done|]. split; [done|]. by eexists.
  - destruct (point_at _ 1); simpl; [|done].
    destruct (point_at _ 2); simpl; [|done].
    destruct (point_at _ 3); simpl; [|done]. intros [= <-]. simpl.
    right. eexists. split; [done|]. split; [done|]. by eexists.
  - destruct (_ && _).
    { intros [= <-]. simpl. right. eexists. split; [done|]. done. }
    destruct (_ || _).
    { intros [= <-]. simpl. right. eexists. split; [done|]. done. }
    match goal with |- context [foldl (arc_iter ?bc) ?a ?ks] =>
      pose proof (arc_loop_wrappers bc ks a) as [Hw _];
      destruct (foldl (arc_iter bc) a ks) as [st1 bs] end.
    simpl in Hw. intros [= <-]. simpl. rewrite Hw.
    right. eexists. split; [done|]. done.
  - destruct (firstPoint st); intros [= <-]; simpl; [|by left].
    right. eexists. split; [done|]. split; [done|]. by eexists.
Qed.

Lemma init_run_pushes (h : heap) (cmds : list loc) (st st' : State) :
  forEachM (init_step h) st cmds = Ok st' →
  ∃ ws, drawCommandWrappers st' = drawCommandWrappers st ++ ws ∧
    (sourceCommand <$> ws) `sublist_of` cmds ∧
    Forall (λ w, splits w = [] ∧ splitCommands w = [] ∧
                 (ctor (h !!! sourceCommand w) = MoveCommand → sourceBeziers w = []) ∧
                 (splittable (ctor (h !!! sourceCommand w)) = true →
                  ∃ b, sourceBeziers w = [b])) ws.
Proof.
  revert st. induction cmds as [|c cmds IH]; intros st; simpl.
  - intros [= <-]. exists []. rewrite app_nil_r. repeat split; by constructor.
  - destruct (init_step h st c) as [st1|] eqn:E1; simpl; [|done]. intros Hrun.
    destruct (IH _ Hrun) as (ws & Hws & Hsub & Hall).
    destruct (init_step_pushes _ _ _ _ E1) as [Hsame|(bs & Hpush & Hmove & Hseg)].
    + exists ws. rewrite Hws, Hsame. split; [done|]. split; [by apply sublist_cons|done].
    + exists (new_DrawCommandWrapper c bs :: ws).
      rewrite Hws, Hpush, <- app_assoc. split; [done|].
      split; [by apply sublist_skip|]. by constructor.
Qed.

Lemma initInternalState_wrappers_in_order_aux (h : heap) (cmds : list loc) (st : State) :
  initInternalState h cmds = Ok st →
  (sourceCommand <$> drawCommandWrappers st) `sublist_of` cmds ∧
  Forall (λ w, splitCommands w = []) (drawCommandWrappers st).
Proof.
  intros Hrun. destruct (init_run_pushes _ _ _ _ Hrun) as (ws & Hws & Hsub & Hall).
  simpl in Hws. rewrite Hws. split; [done|].
  eapply Forall_impl; [exact Hall|]. by intros w (? & ? & _).
Qed.

(** X7: the wrappers of the pass belong to the commands of the sequence
    in their order, at most one wrapper per command, and start without
    split parameters and split commands. *)
Theorem initInternalState_wrappers_in_order (h : heap) (cmds : list loc) (st : State) :
  initInternalState h cmds = Ok st →
  (sourceCommand <$> drawCommandWrappers st) `sublist_of` cmds ∧
  length (drawCommandWrappers st) ≤ length cmds ∧
  Forall (λ w, splits w = [] ∧ splitCommands w = []) (drawCommandWrappers st).
Proof.
  intros Hrun. destruct (init_run_pushes _ _ _ _ Hrun) as (ws & Hws & Hsub & Hall).
  simpl in Hws. rewrite Hws. split; [done|]. split.
  - apply sublist_length in Hsub. by rewrite length_fmap in Hsub.
  - eapply Forall_impl; [exact Hall|]. by intros w (? & ? & _).
Qed.

(** X8: in the wrappers of the pass, the wrapper of a Move has no Bezier
    segment and the wrapper of a Line, a ClosePath, a QuadraticCurve or a
    BezierCurve has exactly one; only the wrapper of an EllipticalArc can
    have none or several. *)
Theorem initInternalState_segments (h : heap) (cmds : list loc) (st : State) (w : Wrapper) :
  initInternalState h cmds = Ok st →
  w ∈ drawCommandWrappers st →
  (ctor (h !!! sourceCommand w) = MoveCommand → sourceBeziers w = []) ∧
  (splittable (ctor (h !!! sourceCommand w)) = true → ∃ b, sourceBeziers w = [b]).
Proof.
  intros Hrun Hw. destruct (init_run_pushes _ _ _ _ Hrun) as (ws & Hws & _ & Hall).
  simpl in Hws. rewrite Hws in Hw. rewrite Forall_forall in Hall.
  by destruct (Hall w Hw) as (_ & _ & ? & ?).
Qed.

(** X9: a Move or a Line command whose end point (the point at index 1)
    is absent makes the pass throw a TypeError, and with it the
    construction of the path. *)
Theorem absent_end_point_throws
    (h : heap) (path : string) (pre post : list loc) (c : loc) (st : State) :
  forEachM (init_step h) initial_state pre = Ok st →
  ctor (h !!! c) = MoveCommand ∨ ctor (h !!! c) = LineCommand →
  point_at (points (h !!! c)) 1 = None →
  initInternalState h (pre ++ c :: post) = Err TypeError ∧
  construct commandsToString h path (pre ++ c :: post) = Err TypeError.
Proof.
  intros Hpre Hk Hpoint.
  assert (Hrun : initInternalState h (pre ++ c :: post) = Err TypeError).
  { unfold initInternalState. rewrite forEachM_app, Hpre. simpl.
    unfold init_step. destruct Hk as [-> | ->]; by rewrite Hpoint. }
  split; [done|]. unfold construct. by rewrite Hrun.
Qed.

Lemma fromFirstMove_sublist (h : heap) (cmds : list loc) :
  fromFirstMove h cmds `sublist_of` cmds.
Proof.
  induction cmds as [|c cmds IH]; simpl; [done|].
  destruct (instanceof MoveCommand h c); [done|]. by apply sublist_cons.
Qed.

(** X10: a path that is constructed leaves the command objects as the
    parser made them, keeps the given string as its string (it is not
    serialised anew), caches the length and the bounds of the pass, and
    its sub-paths list commands of the parsed sequence in their order; it
    is in sync with its wrappers. *)
Theorem construct_result
    (h h' : heap) (path : string) (cmds : list loc) (p : PathData) :
  construct commandsToString h path cmds = Ok (h', p) →
  h' = h ∧
  toString p = path ∧
  originalDrawCommands_ p = cmds ∧
  (∃ st, initInternalState h cmds = Ok st ∧
         drawCommandWrappers_ p = drawCommandWrappers st ∧
         length_ p = st_length st ∧ bounds_ p = bounds st) ∧
  flatten (commands_ p) `sublist_of` cmds ∧
  in_sync commandsToString h' p.
Proof.
  intros Hc. pose proof (construct_in_sync _ _ _ _ _ _ Hc) as Hsync.
  unfold construct in Hc.
  destruct (initInternalState h cmds) as [st|] eqn:Hrun; simpl in Hc; [|done].
  destruct (initInternalState_wrappers_in_order_aux h cmds st Hrun) as [Hsub Hfresh].
  unfold rebuildInternalState in Hc. simpl in Hc.
  rewrite wrappers_commands_unsplit in Hc by done.
  injection Hc as <- <-. simpl. repeat split; try done.
  - by exists st.
  - rewrite createSubPathCommands_flatten.
    etransitivity; [apply fromFirstMove_sublist|done].
Qed.

(** *** Distinct command objects

    The paths that the constructor makes have distinct command objects:
    the parser returns new objects, and the sub-paths list them at most
    once. *)

Lemma alloc_all_distinct (cs : list (DrawCommand num)) :
  ∀ h h' locs, alloc_all h cs = (h', locs) →
    NoDup locs ∧ (∀ c, c ∈ locs → c ∉ dom h) ∧ (∀ c, c ∈ dom h → c ∈ dom h').
Proof.
  induction cs as [|v cs IH]; intros h h' locs; simpl.
  - intros [= <- <-]. split; [constructor|]. split; [|done]. by intros c ?%elem_of_nil.
  - pose proof (is_fresh (dom h)) as Ha. set (a := fresh (dom h)) in *.
    destruct (alloc_all (<[a := v]> h) cs) as [h2 rest] eqn:E.
    intros [= <- <-]. destruct (IH _ _ _ E) as (Hnd & Hnew & Hold).
    assert (Hsub : ∀ c, c ∈ dom h → c ∈ dom (<[a := v]> h)).
    { intros c Hc. by apply (dom_insert_subseteq h a v). }
    assert (Hin : a ∈ dom (<[a := v]> h)).
    { apply elem_of_dom. rewrite lookup_insert_eq. by eexists. }
    split; [|split].
    + constructor; [|done]. intros Hx. by apply (Hnew a Hx).
    + intros c [->|Hc]%elem_of_cons; [done|]. intros Hd. by apply (Hnew c Hc), Hsub.
    + intros c Hc. by apply Hold, Hsub.
Qed.

Lemma construct_distinct (h h' : heap) (path : string) (cmds : list loc) (p : PathData) :
  construct commandsToString h path cmds = Ok (h', p) →
  NoDup cmds → NoDup (flatten (commands_ p)).
Proof.
  intros Hc Hnd. unfold construct in Hc.
  destruct (initInternalState h cmds) as [st|] eqn:Hrun; simpl in Hc; [|done].
  destruct (initInternalState_wrappers_in_order_aux h cmds st Hrun) as [Hsub Hfresh].
  unfold rebuildInternalState in Hc. simpl in Hc.
  rewrite wrappers_commands_unsplit in Hc by done.
  injection Hc as <- <-. simpl. rewrite createSubPathCommands_flatten.
  apply (sublist_NoDup _ cmds); [exact Hnd|].
  etransitivity; [apply fromFirstMove_sublist|done].
Qed.

Lemma new_SvgPathData_distinct (parseCommands : string → list (DrawCommand num))
    (h h' : heap) (path : string) (p : PathData) :
  new_SvgPathData parseCommands commandsToString h path = Ok (h', p) →
  NoDup (flatten (commands_ p)).
Proof.
  unfold new_SvgPathData.
  destruct (alloc_all h (parseCommands path)) as [h1 locs] eqn:E.
  intros Hc. destruct (alloc_all_distinct _ _ _ _ E) as (Hnd & _).
  by eapply construct_distinct.
Qed.

(** *** Projection: the search space and the closure *)

Lemma DrawCommandWrapper_project_None (cw : Wrapper) (point : Point num) :
  DrawCommandWrapper_project cw point = None ↔ sourceBeziers cw = [].
Proof.
  unfold DrawCommandWrapper_project. rewrite closer_fold_None. split.
  - apply fmap_nil_inv.
  - by intros ->.
Qed.

Lemma project_candidates_nil (ws : list Wrapper) (wi : nat) (point : Point num) :
  project_candidates wi ws point = [] ↔ Forall (λ cw, sourceBeziers cw = []) ws.
Proof.
  revert wi. induction ws as [|cw ws IH]; intros wi; simpl; [done|].
  destruct (DrawCommandWrapper_project cw point) as [pr|] eqn:Hpr.
  - split; [done|]. intros [Hcw _]%Forall_cons.
    apply (DrawCommandWrapper_project_None cw point) in Hcw. congruence.
  - apply DrawCommandWrapper_project_None in Hpr. rewrite IH, Forall_cons.
    split; [by intros ?|by intros [_ ?]].
Qed.

(** X11: [project] returns null exactly when no wrapper has a Bezier
    segment (no wrappers at all, or only Moves and arcs that end where
    they start). *)
Theorem project_None_iff (self : PathData) (point : Point num) :
  project self point = None ↔
  Forall (λ cw, sourceBeziers cw = []) (drawCommandWrappers_ self).
Proof.
  unfold project. by rewrite closer_fold_None, project_candidates_nil.
Qed.

(** X12: the result of [project] is the kernel's projection onto a
    segment of some wrapper of the path, and its [split] closure is bound
    to that wrapper. *)
Theorem project_result_of_segment
    (self : PathData) (point : Point num) (info : ProjectionInfo num) :
  project self point = Some info →
  ∃ cw bez, drawCommandWrappers_ self !! split_wrapper info = Some cw ∧
            bez ∈ sourceBeziers cw ∧
            projection info = bez_project bez point.
Proof.
  unfold project. intros [?|Hin]%closer_fold_elem_of; [done|].
  apply project_candidates_wrapper in Hin as (k & cw & Hwi & Hk & Hpr).
  simpl in Hwi. subst k. unfold DrawCommandWrapper_project in Hpr.
  apply closer_fold_elem_of in Hpr as [?|Hpr]; [done|].
  apply list_elem_of_fmap in Hpr as (bez & Hbez & Hin). by exists cw, bez.
Qed.

(** X13: when the closest point lies on an EllipticalArc, invoking the
    [split] closure of the projection throws; it never returns. *)
Theorem project_split_on_arc
    (h : heap) (self : PathData) (point : Point num) (info : ProjectionInfo num)
    (cw : Wrapper) :
  project self point = Some info →
  drawCommandWrappers_ self !! split_wrapper info = Some cw →
  instanceof EllipticalArcCommand h (sourceCommand cw) = true →
  invoke_split commandsToString h self info
    = Err (UnsupportedOperation "TODO: implement split support for elliptical arcs").
Proof.
  intros Hproj Hcw Harc. unfold project in Hproj.
  apply closer_fold_elem_of in Hproj as [?|Hin]; [done|].
  apply project_candidates_wrapper in Hin as (k & cw' & Hwi & Hk & Hpr).
  simpl in Hwi. subst k. rewrite Hcw in Hk. injection Hk as <-.
  assert (Hseg : sourceBeziers cw ≠ []).
  { intros Hnil. apply (DrawCommandWrapper_project_None cw point) in Hnil.
    congruence. }
  unfold invoke_split. rewrite Hcw. simpl. unfold split. rewrite Harc.
  case_bool_decide as Hlen; [|done]. by destruct (sourceBeziers cw).
Qed.

(** *** [execute] *)

Lemma execute_cmd_call (h : heap) (calls calls' : list (CanvasCall (num := num))) (d : loc) :
  execute_cmd h calls d = Ok calls' →
  ∃ op, calls' = calls ++ [op] ∧ call_kind op = Some (ctor (h !!! d)).
Proof.
  unfold execute_cmd. destruct (ctor (h !!! d)).
  - destruct (draw_end _); simpl; [|done]. intros [= <-]. by eexists.
  - destruct (draw_end _); simpl; [|done]. intros [= <-]. by eexists.
  - destruct (point_at _ 1); simpl; [|done].
    destruct (point_at _ 2); simpl; [|done]. intros [= <-]. by eexists.
  - destruct (point_at _ 1); simpl; [|done].
    destruct (point_at _ 2); simpl; [|done].
    destruct (point_at _ 3); simpl; [|done]. intros [= <-]. by eexists.
  - intros [= <-]. by eexists.
  - intros [= <-]. by eexists.
Qed.

Lemma execute_subpath_calls (h : heap) (ds : list loc) :
  ∀ calls calls', forEachM (execute_cmd h) calls ds = Ok calls' →
    ∃ ops, calls' = calls ++ ops ∧
           call_kind <$> ops = (λ d, Some (ctor (h !!! d))) <$> ds.
Proof.
  induction ds as [|d ds IH]; intros calls calls'; simpl.
  - intros [= <-]. exists []. by rewrite app_nil_r.
  - destruct (execute_cmd h calls d) as [calls1|] eqn:E1; simpl; [|done]. intros Hrun.
    destruct (execute_cmd_call _ _ _ _ E1) as (op & -> & Hop).
    destruct (IH _ _ Hrun) as (ops & -> & Hops).
    exists (op :: ops). rewrite <- app_assoc. split; [done|].
    by rewrite !fmap_cons, Hop, Hops.
Qed.

(** X14: when [execute] returns it has called [beginPath] and then, for
    every command of the sub-paths in their order, the one canvas method
    of the command's variant. *)
Theorem execute_calls (h : heap) (self : PathData) (calls : list CanvasCall) :
  execute h self = Ok calls →
  ∃ ops, calls = beginPath :: ops ∧
         call_kind <$> ops = (λ d, Some (ctor (h !!! d))) <$> flatten (commands_ self).
Proof.
  unfold execute. generalize (commands_ self). intros ss.
  assert (Hgen : ∀ calls0 calls1,
            forEachM (λ calls s, forEachM (execute_cmd h) calls (spc_commands s)) calls0 ss
              = Ok calls1 →
            ∃ ops, calls1 = calls0 ++ ops ∧
                   call_kind <$> ops = (λ d, Some (ctor (h !!! d))) <$> flatten ss).
  { induction ss as [|s ss IH]; intros calls0 calls1; simpl.
    - intros [= <-]. exists []. by rewrite app_nil_r.
    - destruct (forEachM (execute_cmd h) calls0 (spc_commands s)) as [calls2|] eqn:E1;
        simpl; [|done].
      intros Hrun.
      destruct (execute_subpath_calls _ _ _ _ E1) as (ops1 & -> & Hops1).
      destruct (IH _ _ Hrun) as (ops2 & -> & Hops2).
      exists (ops1 ++ ops2). rewrite <- app_assoc. split; [done|].
      change (flatten (s :: ss)) with (spc_commands s ++ flatten ss).
      by rewrite !fmap_app, Hops1, Hops2. }
  intros Hrun. destruct (Hgen _ _ Hrun) as (ops & -> & Hops). by exists ops.
Qed.

(** *** Interpolation: what stays and what moves *)

(** X15: [interpolate] never touches the string, the cached length, the
    cached bounds or the wrappers (with their Bezier segments) of the
    path, whether it interpolates or rejects the request: after it,
    [toString], [length] and the projection geometry are those from
    before the call. *)
Theorem interpolate_keeps_cached
    (h h' : heap) (self self' start end_ : PathData) (fraction : num) :
  interpolate commandsToString h self start end_ fraction = Ok (h', self') →
  toString self' = toString self ∧
  length_ self' = length_ self ∧
  bounds_ self' = bounds_ self ∧
  drawCommandWrappers_ self' = drawCommandWrappers_ self ∧
  ∀ point, project self' point = project self point.
Proof.
  unfold interpolate.
  destruct (isMorphableWith h self start) as [m1|]; simpl; [|done].
  destruct (if m1 then isMorphableWith h self end_ else Ok false) as [m2|]; simpl; [|done].
  destruct (negb m1 || negb m2); [by intros [= <- <-]|].
  destruct (forEachM_i _ 0 h (commands_ self)) as [h1|]; simpl; [|done].
  unfold rebuildInternalState. destruct (wrappers_commands _ _ _) as [h2 view].
  intros [= <- <-]. done.
Qed.

(** The loop over the points of [d]: the counterpart of
    [interpolate_args_loop]. *)
Lemma interpolate_points_loop_values (d d1 d2 : loc) (fraction : num) (h0 : heap)
    (v : nat → option (option (Point num))) :
  (∀ k, v k =
     match point_at (points (h0 !!! d1)) k, point_at (points (h0 !!! d2)) k with
     | Some p, Some q =>
         Some (Some (mkPoint (lerp (pt_x p) (pt_x q) fraction)
                             (lerp (pt_y p) (pt_y q) fraction)))
     | _, _ => points (h0 !!! d) !! k
     end) →
  ∀ (n i0 : nat) (h : heap) (pk : list (option (Point num))),
    i0 + n ≤ length (points (h0 !!! d)) →
    length pk = length (points (h0 !!! d)) →
    (∀ c, c ≠ d → h !!! c = h0 !!! c) →
    h !!! d = set_points (h0 !!! d) pk →
    (∀ k, i0 ≤ k → pk !! k = points (h0 !!! d) !! k) →
    ∃ h' pk',
      forEachM (interpolate_point d d1 (Some d2) fraction) h (seq i0 n) = Ok h' ∧
      length pk' = length pk ∧
      (∀ c, c ≠ d → h' !!! c = h0 !!! c) ∧
      h' !!! d = set_points (h0 !!! d) pk' ∧
      (∀ k, k < i0 → pk' !! k = pk !! k) ∧
      (∀ k, i0 ≤ k → k < i0 + n → pk' !! k = v k) ∧
      (∀ k, i0 + n ≤ k → pk' !! k = points (h0 !!! d) !! k).
Proof.
  intros Hv. induction n as [|n IH]; intros i0 h pk Hle Hpk Hframe Hd Hrest.
  - simpl. exists h, pk. repeat split; try done.
    + intros k ??. lia.
    + intros k Hk. apply Hrest. lia.
  - assert (Hread : ∀ c, point_at (points (h !!! c)) i0 = point_at (points (h0 !!! c)) i0).
    { intros c. destruct (decide (c = d)) as [->|Hne].
      - rewrite Hd. unfold point_at. simpl. by rewrite Hrest.
      - by rewrite Hframe. }
    assert (Hstep : ∃ h1 pk1,
              interpolate_point d d1 (Some d2) fraction h i0 = Ok h1 ∧
              length pk1 = length pk ∧
              (∀ c, c ≠ d → h1 !!! c = h0 !!! c) ∧
              h1 !!! d = set_points (h0 !!! d) pk1 ∧
              (∀ k, k ≠ i0 → pk1 !! k = pk !! k) ∧
              pk1 !! i0 = v i0).
    { unfold interpolate_point. cbn [required mbind result_bind]. rewrite !Hread, Hv.
      destruct (point_at (points (h0 !!! d1)) i0) as [p|];
        [destruct (point_at (points (h0 !!! d2)) i0) as [q|]|].
      - eexists _, (<[i0 := Some _]> pk). split; [done|].
        split; [by rewrite length_insert|]. split.
        { intros c Hne. unfold write_point. rewrite lookup_total_insert_ne by done. auto. }
        split.
        { unfold write_point. rewrite lookup_total_insert_eq, Hd. simpl.
          unfold array_set. rewrite bool_decide_eq_true_2 by lia. done. }
        split.
        { intros k Hk. by rewrite list_lookup_insert_ne. }
        apply list_lookup_insert_eq. lia.
      - exists h, pk. repeat split; try done. apply Hrest. lia.
      - exists h, pk. repeat split; try done. apply Hrest. lia. }
    destruct Hstep as (h1 & pk1 & Hrun1 & Hlen1 & Hframe1 & Hd1 & Hother & Hat).
    simpl. rewrite Hrun1. simpl.
    destruct (IH (S i0) h1 pk1) as (h' & pk' & Hrun & Hlen' & Hframe' & Hd' & Hlow & Hmid & Hhigh);
      try done; try lia.
    { intros k Hk. rewrite Hother by lia. apply Hrest. lia. }
    exists h', pk'. split; [done|]. split; [lia|]. repeat split; try done.
    + intros k Hk. rewrite Hlow by lia. apply Hother. lia.
    + intros k Hk1 Hk2. destruct (decide (k = i0)) as [->|Hne].
      * by rewrite Hlow by lia.
      * apply Hmid; lia.
    + intros k Hk. apply Hhigh. lia.
Qed.

(** The callback of [interpolate] on a command [d] that is no arc, where
    the start and the end path have the commands [d1] and [d2] and [d1]
    has no more points than [d]: the counterpart of
    [interpolate_cmd_arc]. *)
Lemma interpolate_cmd_nonarc
    (start end_ : PathData) (fraction : num) (i j : nat) (h : heap)
    (d d1 d2 : loc) (s1 s2 : SubPathCommand) :
  instanceof EllipticalArcCommand h d = false →
  commands_ start !! i = Some s1 → spc_commands s1 !! j = Some d1 →
  commands_ end_ !! i = Some s2 → spc_commands s2 !! j = Some d2 →
  length (points (h !!! d1)) ≤ length (points (h !!! d)) →
  ∃ h', interpolate_cmd start end_ fraction i j h d = Ok h' ∧
    (∀ c, c ≠ d → h' !!! c = h !!! c) ∧
    ctor (h' !!! d) = ctor (h !!! d) ∧
    args (h' !!! d) = args (h !!! d) ∧
    length (points (h' !!! d)) = length (points (h !!! d)) ∧
    ∀ k, points (h' !!! d) !! k =
      match point_at (points (h !!! d1)) k, point_at (points (h !!! d2)) k with
      | Some p, Some q =>
          Some (Some (mkPoint (lerp (pt_x p) (pt_x q) fraction)
                              (lerp (pt_y p) (pt_y q) fraction)))
      | _, _ => points (h !!! d) !! k
      end.
Proof.
  intros Harc Hs1 Hd1 Hs2 Hd2 Hle. unfold interpolate_cmd.
  rewrite Hs1, Hs2. simpl. rewrite Hd1, Hd2, Harc. simpl.
  destruct (interpolate_points_loop_values d d1 d2 fraction h _ (λ k, eq_refl)
              (length (points (h !!! d1))) 0 h (points (h !!! d)))
    as (h' & pk' & Hrun & Hlen & Hframe & Hd & _ & Hmid & Hhigh); try done.
  { by destruct (h !!! d). }
  exists h'. split; [done|]. split; [done|]. rewrite Hd. simpl.
  repeat split; try done. intros k.
  destruct (decide (k < length (points (h !!! d1)))) as [Hk|Hk].
  - apply Hmid; lia.
  - rewrite Hhigh by lia.
    assert (Hnone : point_at (points (h !!! d1)) k = None).
    { unfold point_at. rewrite (lookup_ge_None_2 (points (h !!! d1)) k) by lia. done. }
    by rewrite Hnone.
Qed.

(** X16: [interpolate] on a path [self] with distinct command objects
    that is morphable with [start] and [end], at a command [d] of [self]
    that is no arc, with [d1] and [d2] the commands of [start] and [end]
    at the same place (each of them [d] itself or no command of [self]):
    the call returns, and the point of [d] at each index where both [d1]
    and [d2] have a point is the point with the interpolated coordinates
    of their points before the call; the points of [d] at the other
    indices, the number of its points, its variant and its args stay. *)
Theorem interpolate_points
    (h : heap) (self start end_ : PathData) (fraction : num) (i j : nat)
    (s s1 s2 : SubPathCommand) (d d1 d2 : loc) :
  isMorphableWith h self start = Ok true →
  isMorphableWith h self end_ = Ok true →
  commands_ self !! i = Some s → spc_commands s !! j = Some d →
  commands_ start !! i = Some s1 → spc_commands s1 !! j = Some d1 →
  commands_ end_ !! i = Some s2 → spc_commands s2 !! j = Some d2 →
  instanceof EllipticalArcCommand h d = false →
  NoDup (flatten (commands_ self)) →
  d1 = d ∨ d1 ∉ flatten (commands_ self) →
  d2 = d ∨ d2 ∉ flatten (commands_ self) →
  ∃ h' self',
    interpolate commandsToString h self start end_ fraction = Ok (h', self') ∧
    ctor (h' !!! d) = ctor (h !!! d) ∧
    args (h' !!! d) = args (h !!! d) ∧
    length (points (h' !!! d)) = length (points (h !!! d)) ∧
    ∀ k, points (h' !!! d) !! k =
      match point_at (points (h !!! d1)) k, point_at (points (h !!! d2)) k with
      | Some p, Some q =>
          Some (Some (mkPoint (lerp (pt_x p) (pt_x q) fraction)
                              (lerp (pt_y p) (pt_y q) fraction)))
      | _, _ => points (h !!! d) !! k
      end.
Proof.
  intros Hm1 Hm2 Hs Hd Hs1 Hd1 Hs2 Hd2 Harc Hnodup Hd1n Hd2n.
  destruct (morphable_at h self start i j s d Hm1 Hs Hd)
    as (s1' & d1' & Hs1' & Hd1' & Hshape).
  rewrite Hs1 in Hs1'. injection Hs1' as <-. rewrite Hd1 in Hd1'. injection Hd1' as <-.
  destruct (interpolate_run_at commandsToString h self start end_ fraction i j s d)
    as (hb & hc & h' & self' & Hrun & Hcb & Hb & Hctor & Hpts & Hargs); try done.
  assert (Harc' : instanceof EllipticalArcCommand hb d = false).
  { unfold instanceof in *. rewrite (Hb d) by (by left). done. }
  destruct (interpolate_cmd_nonarc start end_ fraction i j hb d d1 d2 s1 s2)
    as (hc' & Hrun' & _ & Hc' & Ha' & Hl' & Hval); try done.
  { rewrite (Hb d) by (by left). rewrite (Hb d1) by done.
    unfold shape in Hshape. injection Hshape as _ ->. done. }
  rewrite Hcb in Hrun'. injection Hrun' as <-.
  rewrite (Hb d) in Hc', Ha', Hl', Hval by (by left).
  assert (Hval' : ∀ k, points (hc !!! d) !! k =
            match point_at (points (h !!! d1)) k, point_at (points (h !!! d2)) k with
            | Some p, Some q =>
                Some (Some (mkPoint (lerp (pt_x p) (pt_x q) fraction)
                                    (lerp (pt_y p) (pt_y q) fraction)))
            | _, _ => points (h !!! d) !! k
            end).
  { intros k. rewrite Hval. by rewrite (Hb d1), (Hb d2) by done. }
  exists h', self'. split; [done|]. rewrite Hctor, Hpts, Hargs. done.
Qed.

(** *** Splitting a wrapper *)

Lemma lookup_total_of_lookup (h h' : heap) (c : loc) :
  h' !! c = h !! c → h' !!! c = h !!! c.
Proof. intros E. by rewrite !lookup_total_alt, E. Qed.

Lemma bezierToDrawCommand_ctor (h : heap) (cw : Wrapper) (bez : Bezier) (v : DrawCommand num) :
  bezierToDrawCommand h cw bez = Ok v → ctor v = ctor (h !!! sourceCommand cw).
Proof.
  unfold bezierToDrawCommand. destruct (ctor (h !!! sourceCommand cw)); try done;
    by intros [= <-].
Qed.

Lemma bezierToDrawCommand_splittable (h : heap) (cw : Wrapper) (bez : Bezier) :
  splittable (ctor (h !!! sourceCommand cw)) = true →
  ∃ v, bezierToDrawCommand h cw bez = Ok v.
Proof.
  unfold bezierToDrawCommand. destruct (ctor (h !!! sourceCommand cw)); try done;
    by eexists.
Qed.

Lemma bezierToDrawCommand_store (h h' : heap) (cw : Wrapper) (bez : Bezier) :
  h' !! sourceCommand cw = h !! sourceCommand cw →
  bezierToDrawCommand h' cw bez = bezierToDrawCommand h cw bez.
Proof. intros E%lookup_total_of_lookup. unfold bezierToDrawCommand. by rewrite E. Qed.

Lemma split_iter_step (h : heap) (cw : Wrapper) (bez0 : Bezier) (rest : list Bezier)
    (prev t : num) (cmds : list loc) (v : DrawCommand num) :
  sourceBeziers cw = bez0 :: rest →
  bezierToDrawCommand h cw (bez_split bez0 prev t) = Ok v →
  split_iter cw (h, prev, cmds) t
    = Ok (<[fresh (dom h) := v]> h, t, cmds ++ [fresh (dom h)]).
Proof. intros Hbez Hv. unfold split_iter. rewrite Hbez. simpl. by rewrite Hv. Qed.

(** The loop of [rebuildSplitCommands]: one fresh command per parameter,
    cut between the parameter in front and the parameter itself. *)
Lemma split_loop (h0 : heap) (cw : Wrapper) (bez0 : Bezier) (rest : list Bezier) :
  sourceBeziers cw = bez0 :: rest →
  splittable (ctor (h0 !!! sourceCommand cw)) = true →
  sourceCommand cw ∈ dom h0 →
  ∀ (ts : list num) (h : heap) (prev : num) (cmds : list loc),
    (∀ c, c ∈ dom h0 → h !! c = h0 !! c) →
    ∃ h' cmds' tlast,
      forEachM (split_iter cw) (h, prev, cmds) ts = Ok (h', tlast, cmds ++ cmds') ∧
      (∀ c, c ∈ dom h → h' !! c = h !! c) ∧
      length cmds' = length ts ∧
      NoDup cmds' ∧
      (∀ c, c ∈ cmds' → c ∉ dom h) ∧
      Forall2 (λ c ab, bezierToDrawCommand h0 cw (bez_split bez0 ab.1 ab.2) = Ok (h' !!! c))
        cmds' (zip (prev :: ts) ts).
Proof.
  intros Hbez Hkind Hsrc. induction ts as [|t ts IH]; intros h prev cmds Hold.
  - simpl. exists h, [], prev. rewrite app_nil_r. repeat split; try done.
    + constructor.
    + by intros c ?%elem_of_nil.
  - destruct (bezierToDrawCommand_splittable h0 cw (bez_split bez0 prev t) Hkind) as [v Hv].
    cbn [forEachM].
    rewrite (split_iter_step h cw bez0 rest prev t cmds v Hbez)
      by (by rewrite (bezierToDrawCommand_store h0 h) by (by apply Hold)).
    cbn [mbind result_bind].
    pose proof (is_fresh (dom h)) as Ha. set (a := fresh (dom h)) in *.
    assert (Hdom : ∀ c, c ∈ dom h0 → c ∈ dom h).
    { intros c Hc. apply elem_of_dom. rewrite Hold by done. by apply elem_of_dom. }
    destruct (IH (<[a := v]> h) t (cmds ++ [a])) as (h' & cmds' & tlast & Hrun & Hframe & Hlen & Hnd & Hnew & Hval).
    { intros c Hc. rewrite lookup_insert_ne; [by apply Hold|].
      intros ->. by apply Ha, Hdom. }
    exists h', (a :: cmds'), tlast. rewrite <- app_assoc in Hrun. split; [exact Hrun|].
    assert (Ha' : a ∈ dom (<[a := v]> h)).
    { apply elem_of_dom. rewrite lookup_insert_eq. by eexists. }
    assert (Hsub : ∀ c, c ∈ dom h → c ∈ dom (<[a := v]> h)).
    { intros c Hc. by apply (dom_insert_subseteq h a v). }
    split; [|split; [|split; [|split]]].
    + intros c Hc. rewrite Hframe by (by apply Hsub).
      apply lookup_insert_ne. intros ->. done.
    + simpl. lia.
    + constructor; [|done]. intros Hin. by apply (Hnew a Hin).
    + intros c [->|Hc]%elem_of_cons; [done|].
      intros Hd. by apply (Hnew c Hc), Hsub.
    + simpl. constructor; [|done]. simpl.
      rewrite (lookup_total_of_lookup (<[a := v]> h) h' a) by (by apply Hframe).
      by rewrite lookup_total_insert_eq.
Qed.

Lemma rebuildSplitCommands_fields (h h' : heap) (cw cw' : Wrapper) :
  rebuildSplitCommands h cw = Ok (h', cw') →
  sourceCommand cw' = sourceCommand cw ∧ sourceBeziers cw' = sourceBeziers cw ∧
  splits cw' = splits cw.
Proof.
  unfold rebuildSplitCommands. case_bool_decide; [by intros [= <- <-]|].
  destruct (forEachM _ _ _) as [[[h1 t1] cmds]|]; simpl; [|done]. by intros [= <- <-].
Qed.

(** What [rebuildSplitCommands] gives for a wrapper that has a segment,
    an existing command of a variant with a constructor in
    [bezierToDrawCommand], and at least one split parameter. *)
Lemma rebuildSplitCommands_result (h : heap) (cw : Wrapper) (bez0 : Bezier) (rest : list Bezier) :
  sourceBeziers cw = bez0 :: rest →
  splittable (ctor (h !!! sourceCommand cw)) = true →
  sourceCommand cw ∈ dom h →
  splits cw ≠ [] →
  ∃ h' cmds,
    rebuildSplitCommands h cw
      = Ok (h', mkWrapper (sourceCommand cw) (sourceBeziers cw) (splits cw) cmds) ∧
    (∀ c, c ∈ dom h → h' !! c = h !! c) ∧
    length cmds = S (length (splits cw)) ∧
    NoDup cmds ∧
    (∀ c, c ∈ cmds → c ∉ dom h) ∧
    Forall2 (λ c ab, bezierToDrawCommand h cw (bez_split bez0 ab.1 ab.2) = Ok (h' !!! c))
      cmds (zip (num_zero :: splits cw ++ [num_one]) (splits cw ++ [num_one])).
Proof.
  intros Hbez Hkind Hsrc Hne. unfold rebuildSplitCommands.
  rewrite bool_decide_eq_false_2 by (by destruct (splits cw)).
  destruct (split_loop h cw bez0 rest Hbez Hkind Hsrc (splits cw ++ [num_one]) h num_zero [])
    as (h' & cmds & tlast & Hrun & Hframe & Hlen & Hnd & Hnew & Hval); [done|].
  rewrite Hrun. simpl. exists h', cmds. split; [done|]. split; [done|].
  split; [by rewrite Hlen, length_app, Nat.add_comm|]. done.
Qed.

(** X17: [split] on a wrapper with a segment whose command exists and is
    a Line, a ClosePath, a QuadraticCurve or a BezierCurve returns
    normally: [t] is inserted at its sorted index, the wrapper gets one
    split command more than it has split parameters, all of them new
    objects of the variant of the source command, and no object that
    existed is changed. *)
Theorem split_pieces (h : heap) (cw : Wrapper) (t : num) :
  sourceBeziers cw ≠ [] →
  splittable (ctor (h !!! sourceCommand cw)) = true →
  sourceCommand cw ∈ dom h →
  ∃ h' cw', split h cw t = Ok (h', cw') ∧
    sourceCommand cw' = sourceCommand cw ∧
    sourceBeziers cw' = sourceBeziers cw ∧
    splits cw' = splice_insert (splits cw) (sortedIndex (splits cw) t) t ∧
    length (splitCommands cw') = S (length (splits cw')) ∧
    NoDup (splitCommands cw') ∧
    (∀ c, c ∈ splitCommands cw' →
       (c ∉ dom h) ∧ ctor (h' !!! c) = ctor (h !!! sourceCommand cw)) ∧
    (∀ c, c ∈ dom h → h' !! c = h !! c).
Proof.
  intros Hseg Hkind Hsrc. unfold split.
  destruct (sourceBeziers cw) as [|bez0 rest] eqn:Hbez; [done|]. simpl.
  assert (Harc : instanceof EllipticalArcCommand h (sourceCommand cw) = false).
  { unfold instanceof. apply bool_decide_eq_false_2. intros E. by rewrite E in Hkind. }
  rewrite Harc.
  set (cw0 := mkWrapper (sourceCommand cw) (bez0 :: rest)
                (splice_insert (splits cw) (sortedIndex (splits cw) t) t) (splitCommands cw)).
  destruct (rebuildSplitCommands_result h cw0 bez0 rest)
    as (h' & cmds & Hrun & Hframe & Hlen & Hnd & Hnew & Hval); try done.
  { unfold cw0, splice_insert. simpl. by destruct (take _ _). }
  rewrite Hrun. eexists _, _. split; [done|]. simpl. repeat split; try done.
  - by apply Hnew.
  - apply list_elem_of_lookup in H as [i Hi].
    destruct (Forall2_lookup_l _ _ _ _ _ Hval Hi) as (ab & _ & Hv).
    apply bezierToDrawCommand_ctor in Hv. done.
Qed.

(** X18: the split commands are the pieces between consecutive
    boundaries [0, t1, ..., tn, 1] of the first segment: the k-th one is
    the command that [bezierToDrawCommand] makes of the cut of that
    segment from boundary k to boundary k + 1. *)
Theorem split_pieces_boundaries
    (h : heap) (cw : Wrapper) (t : num) (bez0 : Bezier) (rest : list Bezier) :
  sourceBeziers cw = bez0 :: rest →
  splittable (ctor (h !!! sourceCommand cw)) = true →
  sourceCommand cw ∈ dom h →
  ∃ h' cw', split h cw t = Ok (h', cw') ∧
    let boundaries := num_zero :: splits cw' ++ [num_one] in
    Forall2 (λ c ab, bezierToDrawCommand h cw (bez_split bez0 ab.1 ab.2) = Ok (h' !!! c))
      (splitCommands cw') (zip boundaries (tail boundaries)).
Proof.
  intros Hbez Hkind Hsrc. unfold split. rewrite Hbez. simpl.
  assert (Harc : instanceof EllipticalArcCommand h (sourceCommand cw) = false).
  { unfold instanceof. apply bool_decide_eq_false_2. intros E. by rewrite E in Hkind. }
  rewrite Harc.
  set (cw0 := mkWrapper (sourceCommand cw) (bez0 :: rest)
                (splice_insert (splits cw) (sortedIndex (splits cw) t) t) (splitCommands cw)).
  destruct (rebuildSplitCommands_result h cw0 bez0 rest)
    as (h' & cmds & Hrun & _ & _ & _ & _ & Hval); try done.
  { unfold cw0, splice_insert. simpl. by destruct (take _ _). }
  rewrite Hrun. eexists _, _. split; [done|]. exact Hval.
Qed.

Lemma delete_splice_insert {A : Type} (xs : list A) (i : nat) (v : A) :
  i ≤ length xs → delete i (splice_insert xs i v) = xs.
Proof.
  unfold splice_insert. revert i. induction xs as [|a xs IH]; intros [|i] Hi; simpl in *;
    try done; try lia.
  f_equal. apply IH. lia.
Qed.

Lemma sortedIndex_le (xs : list num) (v : num) : sortedIndex xs v ≤ length xs.
Proof. induction xs as [|a xs IH]; simpl; [done|]. destruct (num_ltb a v); lia. Qed.

Lemma split_splits (h h' : heap) (cw cw' : Wrapper) (t : num) :
  split h cw t = Ok (h', cw') → sourceBeziers cw ≠ [] →
  splits cw' = splice_insert (splits cw) (sortedIndex (splits cw) t) t ∧
  sourceCommand cw' = sourceCommand cw ∧ sourceBeziers cw' = sourceBeziers cw.
Proof.
  unfold split. intros Hrun Hseg.
  rewrite bool_decide_eq_false_2 in Hrun by (by destruct (sourceBeziers cw)).
  destruct (instanceof _ _ _); [done|].
  by apply rebuildSplitCommands_fields in Hrun as (? & ? & ?).
Qed.

Lemma splice_insert_ascending (xs : list num) (t : num) :
  ascending xs →
  (∀ a, a ∈ xs → num_ltb a t = true → num_ltb t a = false) →
  ascending (splice_insert xs (sortedIndex xs t) t).
Proof.
  unfold ascending, splice_insert. induction 1 as [|a xs Hxs IH Hhd]; intros Hasym; simpl.
  - by repeat constructor.
  - destruct (num_ltb a t) eqn:Hat; simpl.
    + constructor.
      * apply IH. intros b Hb. apply Hasym. by right.
      * destruct Hhd as [|b xs' Hab]; simpl.
        -- constructor. apply Hasym; [by left|done].
        -- destruct (num_ltb b t); simpl; constructor; [done|].
           apply Hasym; [by left|done].
    + constructor; [by constructor|]. by constructor.
Qed.

(** X20: [split] keeps the split parameters in ascending order, for a
    parameter that [<] does not place on both sides of one in the list
    (no two numbers are each less than the other). *)
Theorem split_keeps_ascending (h h1 : heap) (cw cw1 : Wrapper) (t : num) :
  split h cw t = Ok (h1, cw1) →
  ascending (splits cw) →
  (∀ a, a ∈ splits cw → num_ltb a t = true → num_ltb t a = false) →
  ascending (splits cw1).
Proof.
  intros Hrun Hasc Hasym.
  destruct (sourceBeziers cw) as [|bez0 rest] eqn:Hbez.
  - unfold split in Hrun. rewrite Hbez in Hrun. simpl in Hrun. by injection Hrun as _ <-.
  - destruct (split_splits _ _ _ _ _ Hrun) as (-> & _ & _); [by rewrite Hbez|].
    by apply splice_insert_ascending.
Qed.

(** *** The getter [commands] and the delete closures *)

Lemma install_delete_loop (wi : nat) (cw : Wrapper) (h : heap) (m : nat) :
  NoDup (splitCommands cw) →
  m ≤ length (splitCommands cw) →
  (∀ i c, i < m → splitCommands cw !! i = Some c →
     foldl (install_delete wi cw) h (seq 0 m) !!! c
       = set_onDeleteCommandClick (h !!! c) (Some (mkDeleteClosure wi i))) ∧
  (∀ c, c ∉ take m (splitCommands cw) →
     foldl (install_delete wi cw) h (seq 0 m) !!! c = h !!! c).
Proof.
  intros Hnd. induction m as [|m IH]; intros Hm.
  - split; [intros i c Hi; lia|done].
  - destruct IH as [IHa IHb]; [lia|].
    rewrite seq_S, foldl_app. simpl. unfold install_delete at 1 3.
    destruct (lookup_lt_is_Some_2 (splitCommands cw) m) as [cm Hcm]; [lia|].
    rewrite Hcm.
    assert (Hfresh : cm ∉ take m (splitCommands cw)).
    { intros (i & Hi & Hlt)%elem_of_take.
      pose proof (NoDup_lookup _ _ _ _ Hnd Hi Hcm). lia. }
    split.
    + intros i c Hi Hc. destruct (decide (i = m)) as [->|Hne].
      * rewrite Hcm in Hc. injection Hc as <-.
        by rewrite lookup_total_insert_eq, IHb.
      * rewrite lookup_total_insert_ne; [apply IHa; [lia|done]|].
        intros ->. pose proof (NoDup_lookup _ _ _ _ Hnd Hc Hcm). lia.
    + intros c Hc. rewrite (take_S_r _ _ _ Hcm) in Hc.
      apply not_elem_of_app in Hc as [Hc1 Hc2].
      rewrite lookup_total_insert_ne; [by apply IHb|].
      intros ->. apply Hc2. by left.
Qed.

(** X21: reading [commands] of a wrapper with distinct split commands
    returns the split commands and gives each of them but the last the
    delete closure of this wrapper for its own index; the last split
    command and every other object are left as they are. *)
Theorem commands_getter_installs (wi : nat) (h : heap) (cw : Wrapper) :
  NoDup (splitCommands cw) →
  splitCommands cw ≠ [] →
  ∃ h', DrawCommandWrapper_commands wi h cw = (h', splitCommands cw) ∧
    (∀ i c, splitCommands cw !! i = Some c → S i < length (splitCommands cw) →
       h' !!! c = set_onDeleteCommandClick (h !!! c) (Some (mkDeleteClosure wi i))) ∧
    (∀ c, last (splitCommands cw) = Some c → h' !!! c = h !!! c) ∧
    (∀ c, c ∉ splitCommands cw → h' !!! c = h !!! c).
Proof.
  intros Hnd Hne. unfold DrawCommandWrapper_commands.
  rewrite bool_decide_eq_true_2 by (by destruct (splitCommands cw)).
  destruct (install_delete_loop wi cw h (length (splitCommands cw) - 1) Hnd) as [Ha Hb];
    [lia|].
  eexists. split; [done|]. split; [|split].
  - intros i c Hc Hi. apply Ha; [lia|done].
  - intros c Hlast. apply Hb. rewrite last_lookup in Hlast.
    intros (i & Hi & Hlt)%elem_of_take.
    pose proof (NoDup_lookup _ _ _ _ Hnd Hi Hlast). lia.
  - intros c Hc. apply Hb. intros Hin. apply Hc. by eapply subseteq_take.
Qed.

(** X22: when the [split] closure of a projection returns, the path is
    in sync with its wrappers, its string is the serialisation of the
    flattened command view of the wrappers, and its sub-paths hold that
    view from the first Move on; the cached length and bounds are those
    from before the split. *)
Theorem invoke_split_result
    (h h' : heap) (self self' : PathData) (info : ProjectionInfo num) :
  invoke_split commandsToString h self info = Ok (h', self') →
  let view := (wrappers_commands 0 h' (drawCommandWrappers_ self')).2 in
  in_sync commandsToString h' self' ∧
  toString self' = commandsToString ((λ c, h' !!! c) <$> view) ∧
  flatten (commands_ self') = fromFirstMove h' view ∧
  length_ self' = length_ self ∧
  bounds_ self' = bounds_ self.
Proof.
  intros Hrun view.
  destruct (invoke_split_string _ _ _ _ _ _ Hrun) as (Hsync & h1 & view1 & Hview & Hstr & Hcmds).
  assert (Hv : view = view1).
  { unfold view. rewrite (wrappers_commands_view _ 0 h' h1), Hview. done. }
  rewrite Hv. split; [done|]. split; [done|].
  split; [by rewrite Hcmds, createSubPathCommands_flatten|].
  unfold invoke_split in Hrun.
  destruct (drawCommandWrappers_ self !! split_wrapper info) as [cw|]; simpl in Hrun; [|done].
  destruct (split h cw _) as [[h2 cw2]|]; simpl in Hrun; [|done].
  unfold rebuildInternalState in Hrun. destruct (wrappers_commands _ _ _) in Hrun.
  by injection Hrun as _ <-.
Qed.

(** *** A split and its delete closure *)

Lemma install_delete_frame (wi : nat) (cw : Wrapper) (ks : list nat) (c : loc) :
  c ∉ splitCommands cw → ∀ h, foldl (install_delete wi cw) h ks !!! c = h !!! c.
Proof.
  intros Hc. induction ks as [|k ks IH]; intros h; simpl; [done|].
  rewrite IH. unfold install_delete.
  destruct (splitCommands cw !! k) as [cmd|] eqn:Ek; [|done].
  apply lookup_total_insert_ne. intros ->. apply Hc. by eapply list_elem_of_lookup_2.
Qed.

(** Reading the commands of wrappers changes no object that is not one
    of their split commands. *)
Lemma wrappers_commands_frame (ws : list Wrapper) (c : loc) :
  Forall (λ w, c ∉ splitCommands w) ws →
  ∀ wi h, (wrappers_commands wi h ws).1 !!! c = h !!! c.
Proof.
  induction 1 as [|cw ws Hc F IH]; intros wi h; simpl; [done|].
  destruct (DrawCommandWrapper_commands wi h cw) as [h1 cmds] eqn:E1.
  pose proof (IH (S wi) h1) as IH'.
  destruct (wrappers_commands (S wi) h1 ws) as [h2 rest]. simpl in *. rewrite IH'.
  unfold DrawCommandWrapper_commands in E1.
  case_bool_decide; injection E1 as <- _; [|done]. by apply install_delete_frame.
Qed.

Lemma wrappers_commands_dom (ws : list Wrapper) (c : loc) :
  ∀ wi h, c ∈ dom h → c ∈ dom (wrappers_commands wi h ws).1.
Proof.
  induction ws as [|cw ws IH]; intros wi h Hc; simpl; [done|].
  destruct (DrawCommandWrapper_commands wi h cw) as [h1 cmds] eqn:E1.
  pose proof (IH (S wi) h1) as IH'.
  destruct (wrappers_commands (S wi) h1 ws) as [h2 rest]. simpl in *. apply IH'.
  clear IH IH'. unfold DrawCommandWrapper_commands in E1.
  case_bool_decide; injection E1 as <- _; [|done].
  generalize (seq 0 (length (splitCommands cw) - 1)). intros ks.
  revert h Hc. induction ks as [|k ks IHk]; intros h Hc; simpl; [done|].
  apply IHk. unfold install_delete. destruct (splitCommands cw !! k); [|done].
  by apply dom_insert_subseteq.
Qed.

(** The commands that the wrappers return are their source commands and
    their split commands. *)
Lemma wrappers_commands_elem (ws : list Wrapper) (c : loc) :
  ∀ wi h, c ∈ (wrappers_commands wi h ws).2 →
          ∃ w, w ∈ ws ∧ (c = sourceCommand w ∨ c ∈ splitCommands w).
Proof.
  induction ws as [|cw ws IH]; intros wi h; simpl; [by intros ?%elem_of_nil|].
  destruct (DrawCommandWrapper_commands wi h cw) as [h1 cmds] eqn:E1.
  pose proof (IH (S wi) h1) as IH'.
  destruct (wrappers_commands (S wi) h1 ws) as [h2 rest]. simpl in *.
  intros [Hc|Hc]%elem_of_app.
  - exists cw. split; [by left|]. unfold DrawCommandWrapper_commands in E1.
    case_bool_decide; injection E1 as _ <-; [by right|].
    apply list_elem_of_singleton in Hc. by left.
  - destruct (IH' Hc) as (w & Hw & Hor). exists w. split; [by right|done].
Qed.

(** The closure that a rebuild leaves on a split command which only one
    wrapper has: that of the wrapper for the index of the command. *)
Lemma wrappers_commands_installs (ws : list Wrapper) :
  ∀ (i0 wi : nat) (h : heap) (cw : Wrapper) (k : nat) (c : loc),
    ws !! wi = Some cw →
    NoDup (splitCommands cw) →
    splitCommands cw !! k = Some c →
    S k < length (splitCommands cw) →
    (∀ j w, ws !! j = Some w → j ≠ wi → c ∉ splitCommands w) →
    onDeleteCommandClick ((wrappers_commands i0 h ws).1 !!! c)
      = Some (mkDeleteClosure (i0 + wi) k).
Proof.
  induction ws as [|w0 ws IH]; intros i0 wi h cw k c Hcw Hnd Hc Hk Hothers; [done|].
  simpl. destruct (DrawCommandWrapper_commands i0 h w0) as [h1 cmds] eqn:E1.
  destruct wi as [|wi].
  - injection Hcw as ->.
    pose proof (wrappers_commands_frame ws c) as Hframe.
    destruct (wrappers_commands (S i0) h1 ws) as [h2 rest] eqn:E2. simpl.
    specialize (Hframe ltac:(apply Forall_forall; intros w Hw;
      apply list_elem_of_lookup in Hw as [j Hj]; by apply (Hothers (S j) w)) (S i0) h1).
    rewrite E2 in Hframe. simpl in Hframe. rewrite Hframe.
    unfold DrawCommandWrapper_commands in E1.
    rewrite bool_decide_eq_true_2 in E1 by (intros E; rewrite E in Hk; lia).
    injection E1 as <- _.
    destruct (install_delete_loop i0 cw h (length (splitCommands cw) - 1) Hnd) as [Ha _];
      [lia|].
    rewrite (Ha k c) by (done || lia). by rewrite Nat.add_0_r.
  - simpl in Hcw.
    pose proof (IH (S i0) wi h1 cw k c Hcw Hnd Hc Hk) as IH'.
    destruct (wrappers_commands (S i0) h1 ws) as [h2 rest]. simpl in *.
    rewrite IH'; [by rewrite Nat.add_succ_r|].
    intros j w Hj Hne. apply (Hothers (S j) w); [done|lia].
Qed.

(** Grouping reads the variants of the commands it groups, and nothing
    else of the store. *)
Lemma createSubPathCommands_ctor (h h' : heap) (cmds : list loc) :
  (∀ c, c ∈ cmds → ctor (h' !!! c) = ctor (h !!! c)) →
  createSubPathCommands h' cmds = createSubPathCommands h cmds.
Proof.
  intros Hsame. unfold createSubPathCommands. case_bool_decide; [done|].
  assert (Hfold : ∀ xs st, (∀ c, c ∈ xs → c ∈ cmds) →
            foldl (group_step h') st xs = foldl (group_step h) st xs).
  { induction xs as [|c xs IH]; intros st Hxs; simpl; [done|].
    assert (Hstep : group_step h' st c = group_step h st c).
    { destruct st as [gs cur]. unfold group_step, instanceof.
      rewrite Hsame; [done|]. apply Hxs. by left. }
    rewrite Hstep. apply IH. intros c' Hc'. apply Hxs. by right. }
  rewrite Hfold; [done|]. intros c Hc. by rewrite elem_of_reverse in Hc.
Qed.

(** [rebuildSplitCommands] on a wrapper with a segment whose command
    exists and has a constructor in [bezierToDrawCommand] returns, with
    or without split parameters. *)
Lemma rebuildSplitCommands_returns (h : heap) (cw : Wrapper) :
  sourceBeziers cw ≠ [] →
  splittable (ctor (h !!! sourceCommand cw)) = true →
  sourceCommand cw ∈ dom h →
  ∃ h' cmds,
    rebuildSplitCommands h cw
      = Ok (h', mkWrapper (sourceCommand cw) (sourceBeziers cw) (splits cw) cmds) ∧
    (∀ c, c ∈ dom h → h' !! c = h !! c) ∧
    (splits cw = [] → h' = h ∧ cmds = []).
Proof.
  intros Hseg Hkind Hsrc. destruct (splits cw) as [|t ts] eqn:Hsp.
  - exists h, []. unfold rebuildSplitCommands. rewrite Hsp. simpl. done.
  - destruct (sourceBeziers cw) as [|bez0 rest] eqn:Hbez; [done|].
    destruct (rebuildSplitCommands_result h cw bez0 rest)
      as (h' & cmds & Hrun & Hframe & _); try done.
    { by rewrite Hsp. }
    exists h', cmds. rewrite Hrun, Hbez, Hsp. done.
Qed.

(** X19: splitting and deleting the split is a round trip on the
    wrappers.  On a path whose wrappers list objects of the store, for a
    projection bound to a wrapper that has a segment and a Line, a
    ClosePath, a QuadraticCurve or a BezierCurve as its command: the
    [split] closure returns, and the split command at the index where
    the parameter went (the piece that ends at the parameter) carries
    the delete closure of that wrapper for that index; invoking this
    closure returns and gives the wrapper the split parameters from
    before the split, the other wrappers being untouched; and when the
    wrapper had no splits, the wrappers of the path are again those from
    before the split and, for a path that was in sync, so are its
    sub-path commands. *)
Theorem split_then_delete_restores
    (h : heap) (self : PathData) (info : ProjectionInfo num) (cw : Wrapper) :
  drawCommandWrappers_ self !! split_wrapper info = Some cw →
  sourceBeziers cw ≠ [] →
  splittable (ctor (h !!! sourceCommand cw)) = true →
  wrappers_in_store h (drawCommandWrappers_ self) →
  ∃ h1 self1 cw1 c f,
    invoke_split commandsToString h self info = Ok (h1, self1) ∧
    drawCommandWrappers_ self1 !! split_wrapper info = Some cw1 ∧
    splitCommands cw1 !! sortedIndex (splits cw) (proj_t (projection info)) = Some c ∧
    onDeleteCommandClick (h1 !!! c) = Some f ∧
    f = mkDeleteClosure (split_wrapper info)
          (sortedIndex (splits cw) (proj_t (projection info))) ∧
    ∃ h2 self2 cw2,
      invoke_onDeleteCommandClick commandsToString h1 self1 f = Ok (h2, self2) ∧
      drawCommandWrappers_ self2 = <[split_wrapper info := cw2]> (drawCommandWrappers_ self) ∧
      sourceCommand cw2 = sourceCommand cw ∧
      sourceBeziers cw2 = sourceBeziers cw ∧
      splits cw2 = splits cw ∧
      (splits cw = [] → splitCommands cw = [] →
       drawCommandWrappers_ self2 = drawCommandWrappers_ self ∧
       (in_sync commandsToString h self → commands_ self2 = commands_ self)).
Proof.
  intros Hcw Hseg Hkind Hstore.
  set (wi := split_wrapper info) in *. set (t := proj_t (projection info)).
  set (k := sortedIndex (splits cw) t).
  set (ws := drawCommandWrappers_ self) in *.
  assert (Hwi : wi < length ws) by (by eapply lookup_lt_Some).
  unfold wrappers_in_store in Hstore. rewrite Forall_forall in Hstore.
  destruct (Hstore cw) as [Hsrc _]; [by eapply list_elem_of_lookup_2|].
  (* the split *)
  assert (Harc : instanceof EllipticalArcCommand h (sourceCommand cw) = false).
  { unfold instanceof. apply bool_decide_eq_false_2. intros E. by rewrite E in Hkind. }
  destruct (sourceBeziers cw) as [|bez0 rest] eqn:Hbez; [done|].
  set (cw0 := mkWrapper (sourceCommand cw) (bez0 :: rest)
                (splice_insert (splits cw) k t) (splitCommands cw)).
  destruct (rebuildSplitCommands_result h cw0 bez0 rest)
    as (hs & cmds & Hsplit & Hframe & Hlen & Hnd & Hnew & _); try done.
  { unfold cw0, splice_insert. simpl. by destruct (take _ _). }
  simpl in Hsplit, Hlen.
  set (cw1 := mkWrapper (sourceCommand cw) (bez0 :: rest) (splice_insert (splits cw) k t) cmds)
    in *.
  assert (Hsp : split h cw t = Ok (hs, cw1)).
  { unfold split. rewrite Hbez. simpl. rewrite Harc. exact Hsplit. }
  assert (Hk : k ≤ length (splits cw)) by apply sortedIndex_le.
  assert (Hlen' : length cmds = S (S (length (splits cw)))).
  { rewrite Hlen. unfold splice_insert. rewrite length_app, length_take. simpl.
    rewrite length_drop. lia. }
  destruct (lookup_lt_is_Some_2 cmds k) as [c Hc]; [lia|].
  assert (Hcnew : c ∉ dom h) by (apply Hnew; by eapply list_elem_of_lookup_2).
  (* the rebuild that ends the split closure *)
  set (ws1 := <[wi := cw1]> ws).
  assert (Hws1 : ws1 !! wi = Some cw1) by (by apply list_lookup_insert_eq).
  pose proof (wrappers_commands_installs ws1 0 wi hs cw1 k c Hws1 Hnd Hc) as Hclosure.
  pose proof (wrappers_commands_shapes ws1 0 hs) as Hshapes1.
  pose proof (wrappers_commands_dom ws1 (sourceCommand cw) 0 hs) as Hdom1.
  destruct (wrappers_commands 0 hs ws1) as [h1 view1] eqn:Ev1. simpl in *.
  assert (Hcl : onDeleteCommandClick (h1 !!! c) = Some (mkDeleteClosure wi k)).
  { apply Hclosure; [lia|]. intros j w Hj Hne Hin. unfold ws1 in Hj.
    rewrite list_lookup_insert_ne in Hj by done.
    destruct (Hstore w) as [_ Hw]; [by eapply list_elem_of_lookup_2|].
    rewrite Forall_forall in Hw. by apply Hcnew, Hw. }
  assert (Hsrcs : hs !! sourceCommand cw = h !! sourceCommand cw) by (by apply Hframe).
  assert (Hsrc1 : sourceCommand cw ∈ dom h1).
  { apply Hdom1. apply elem_of_dom. rewrite Hsrcs. by apply elem_of_dom. }
  assert (Hkind1 : splittable (ctor (h1 !!! sourceCommand cw)) = true).
  { pose proof (Hshapes1 (sourceCommand cw)) as Hsh. unfold shape in Hsh.
    injection Hsh as -> _. by rewrite (lookup_total_of_lookup h hs). }
  (* the delete *)
  set (cwd := mkWrapper (sourceCommand cw) (bez0 :: rest) (splits cw) cmds).
  destruct (rebuildSplitCommands_returns h1 cwd) as (h1' & cmds2 & Hdel & Hframe1 & Hnil);
    try done.
  simpl in Hdel, Hnil.
  set (cw2 := mkWrapper (sourceCommand cw) (bez0 :: rest) (splits cw) cmds2) in *.
  destruct (rebuildInternalState commandsToString false h1'
              (set_wrapper (mkSvgPathData (originalDrawCommands_ self) ws1
                              (createSubPathCommands h1 view1)
                              (commandsToString ((λ c, h1 !!! c) <$> view1))
                              (length_ self) (bounds_ self)) wi cw2))
    as [h2 self2] eqn:E2.
  exists h1, (mkSvgPathData (originalDrawCommands_ self) ws1
                (createSubPathCommands h1 view1)
                (commandsToString ((λ c, h1 !!! c) <$> view1))
                (length_ self) (bounds_ self)), cw1, c, (mkDeleteClosure wi k).
  split.
  { unfold invoke_split. fold wi ws t. rewrite Hcw. simpl. rewrite Hsp. simpl.
    unfold rebuildInternalState. simpl. fold ws ws1. by rewrite Ev1. }
  split; [done|]. split; [done|]. split; [done|]. split; [done|].
  exists h2, self2, cw2. split.
  { unfold invoke_onDeleteCommandClick. simpl. rewrite Hws1. simpl.
    fold k. rewrite delete_splice_insert by done. fold cwd. rewrite Hdel. simpl.
    by rewrite E2. }
  assert (Hws2 : drawCommandWrappers_ self2 = <[wi := cw2]> ws).
  { unfold rebuildInternalState in E2. simpl in E2.
    destruct (wrappers_commands 0 h1' _) as [h2' view2]. injection E2 as _ <-. simpl.
    unfold ws1. apply list_insert_insert_eq. }
  split; [done|]. split; [done|]. split; [done|]. split; [done|].
  intros Hsplits Hcmds. destruct (Hnil Hsplits) as [-> ->].
  assert (Hcw2 : cw2 = cw).
  { unfold cw2. destruct cw. simpl in *. by subst. }
  assert (Hws : <[wi := cw2]> ws = ws) by (rewrite Hcw2; by apply list_insert_id).
  split; [by rewrite Hws2|].
  intros Hsync. unfold in_sync, rebuildInternalState in Hsync.
  unfold rebuildInternalState in E2. simpl in E2.
  unfold ws1 in E2. rewrite list_insert_insert_eq, Hws in E2. fold ws in Hsync.
  pose proof (wrappers_commands_view ws 0 h h1) as Hview.
  pose proof (wrappers_commands_shapes ws 0 h) as Hsh0.
  pose proof (wrappers_commands_shapes ws 0 h1) as Hsh2.
  pose proof (λ c', wrappers_commands_elem ws c' 0 h1) as Helem.
  destruct (wrappers_commands 0 h ws) as [hr viewr].
  destruct (wrappers_commands 0 h1 ws) as [h2' view2]. simpl in *. subst view2.
  injection E2 as _ <-. simpl. rewrite <- Hsync. simpl.
  apply createSubPathCommands_ctor. intros c' Hc'.
  assert (Hin : c' ∈ dom h).
  { destruct (Helem c' Hc') as (w & Hw & [->|Hor]).
    - by destruct (Hstore w Hw).
    - destruct (Hstore w Hw) as [_ Hall]. rewrite Forall_forall in Hall. by apply Hall. }
  pose proof (Hsh2 c') as Ha. pose proof (Hshapes1 c') as Hb. pose proof (Hsh0 c') as Hc0.
  unfold shape in Ha, Hb, Hc0. injection Ha as -> _. injection Hb as -> _.
  injection Hc0 as -> _. by rewrite (lookup_total_of_lookup h hs) by (by apply Hframe).
Qed.

(** *** Operations that do not throw *)

(** X23: [interpolate] never throws, whatever the three paths: the
    lookups in the start and the end path are made only after both
    morphability checks have passed, and then they succeed. *)
Theorem interpolate_returns (h : heap) (self start end_ : PathData) (fraction : num) :
  ∃ h' self', interpolate commandsToString h self start end_ fraction = Ok (h', self').
Proof.
  unfold interpolate.
  destruct (isMorphableWith_total h self start) as [m1 E1]. rewrite E1. simpl.
  destruct m1; simpl; [|by eexists _, _].
  destruct (isMorphableWith_total h self end_) as [m2 E2]. rewrite E2. simpl.
  destruct m2; simpl; [|by eexists _, _].
  apply isMorphableWith_topology in E1, E2.
  destruct (interpolate_path_loop start end_ fraction h (commands_ self) 0 h)
    as (h1 & -> & _); [apply same_shapes_refl| |].
  { intros k s Hs. simpl. unfold topology in E1, E2.
    assert (H1 : ((λ s, shape h <$> spc_commands s) <$> commands_ self) !! k
                 = Some (shape h <$> spc_commands s))
      by (by rewrite list_lookup_fmap, Hs).
    pose proof H1 as H2. rewrite E1, list_lookup_fmap in H1.
    rewrite E2, list_lookup_fmap in H2.
    destruct (commands_ start !! k) as [s1|]; [|done].
    destruct (commands_ end_ !! k) as [s2|]; [|done].
    exists s1, s2. simpl in H1, H2. injection H1 as H1. injection H2 as H2. done. }
  simpl. destruct (rebuildInternalState _ _ _ _) as [h2 self']. by exists h2, self'.
Qed.

(** X24: on a path constructed from command objects of the store, the
    [split] closure of any projection either returns or throws the
    error for elliptical arcs: the wrapper it is bound to has a segment,
    so it is no Move, and a Line, ClosePath or curve wrapper has the one
    segment that [rebuildSplitCommands] cuts. *)
Theorem split_closure_of_constructed_path
    (h h' : heap) (path : string) (cmds : list loc) (p : PathData)
    (point : Point num) (info : ProjectionInfo num) :
  construct commandsToString h path cmds = Ok (h', p) →
  (∀ c, c ∈ cmds → c ∈ dom h) →
  project p point = Some info →
  (∃ h2 p2, invoke_split commandsToString h' p info = Ok (h2, p2)) ∨
  invoke_split commandsToString h' p info
    = Err (UnsupportedOperation "TODO: implement split support for elliptical arcs").
Proof.
  intros Hc Hdom Hproj. unfold construct in Hc.
  destruct (initInternalState h cmds) as [st|] eqn:Hrun; simpl in Hc; [|done].
  destruct (init_run_pushes _ _ _ _ Hrun) as (ws & Hws & Hsub & Hall). simpl in Hws.
  unfold rebuildInternalState in Hc. simpl in Hc.
  rewrite wrappers_commands_unsplit in Hc
    by (rewrite Hws; eapply Forall_impl; [exact Hall|]; by intros w (? & ? & _)).
  injection Hc as <- <-. simpl in Hproj. unfold project in Hproj. simpl in Hproj.
  apply closer_fold_elem_of in Hproj as [?|Hin]; [done|].
  apply project_candidates_wrapper in Hin as (k & cw & Hwi & Hk & Hpr).
  simpl in Hwi. subst k.
  assert (Hseg : sourceBeziers cw ≠ []).
  { intros Hnil. apply (DrawCommandWrapper_project_None cw point) in Hnil. congruence. }
  assert (Hcw : cw ∈ ws) by (rewrite <- Hws; by eapply list_elem_of_lookup_2).
  rewrite Forall_forall in Hall. destruct (Hall cw Hcw) as (_ & _ & Hmove & Hone).
  assert (Hsrc : sourceCommand cw ∈ dom h).
  { apply Hdom. eapply (sublist_subseteq _ _ Hsub). by apply list_elem_of_fmap_2. }
  unfold invoke_split. simpl. rewrite Hk. simpl. unfold split.
  rewrite bool_decide_eq_false_2 by (by destruct (sourceBeziers cw)).
  destruct (ctor (h !!! sourceCommand cw)) eqn:Hk0;
    try (by exfalso; apply Hseg, Hmove);
    try (right; unfold instanceof; by rewrite Hk0);
    (left; unfold instanceof; rewrite Hk0; simpl;
     destruct (Hone eq_refl) as [b Hb];
     match goal with |- context [rebuildSplitCommands h ?cw0] =>
       destruct (rebuildSplitCommands_result h cw0 b []) as (h1 & cs & -> & _);
         [done|by simpl; rewrite Hk0|done|unfold splice_insert; simpl; by destruct (take _ _)|]
     end;
     simpl; destruct (rebuildInternalState _ _ _ _) as [h2 p2]; by exists h2, p2).
Qed.
End MoreFacts.

(** * The engine on concrete paths *)

Section Runs.
Import Sample.

(** C1, on "M 0 0 L 10 0 L 10 10". *)
Lemma createSubPathCommands_round_trip_witness :
  flatten (createSubPathCommands (store corner) [0; 1; 2]) = [0; 1; 2].
Proof. apply createSubPathCommands_round_trip. vm_compute. reflexivity. Defined.

(** C1 as stated fails on "L 3 4 M 0 0 L 10 0": the Line in front of
    the Move is in no sub-path. *)
Lemma createSubPathCommands_headless :
  [0; 1; 2] ≠ @nil loc ∧
  flatten (createSubPathCommands (store headless) [0; 1; 2]) = [1; 2] ∧
  flatten (createSubPathCommands (store headless) [0; 1; 2]) ≠ [0; 1; 2].
Proof.
  split; [done|]. split; [vm_compute; reflexivity|].
  intros E. vm_compute in E. discriminate E.
Qed.

(** C2 fails on "M 0 0 L 10 0": after the split at the projection of
    (5, 5) the string is regenerated; after the delete of that split the
    commands are again "M 0 0 L 10 0" but [toString] still gives the
    string of the split path. *)
Theorem split_then_delete_stale_string :
  split_then_delete = Ok ("M 0 0 L 5 0 L 10 0", "M 0 0 L 5 0 L 10 0", "M 0 0 L 10 0").
Proof. vm_compute. reflexivity. Qed.

Lemma ltb_Fin (p q : Q) : ltb (Fin p) (Fin q) = true ↔ (p < q)%Q.
Proof.
  unfold ltb. rewrite negb_true_iff. split.
  - intros Hle. apply Qnot_le_lt. intros Hqp. apply Qle_bool_iff in Hqp. congruence.
  - intros Hlt. destruct (Qle_bool q p) eqn:E; [|done].
    apply Qle_bool_iff in E. by apply Qlt_not_le in Hlt.
Qed.

(** On finite numbers [<] is a strict weak order. *)
Lemma finite_ordered (ds : list jsnum) : forallb is_fin ds = true → ordered_distances ds.
Proof.
  intros Hfin.
  assert (Hall : ∀ a, a ∈ ds → ∃ q, a = Fin q).
  { induction ds as [|a ds IH]; [by intros a ?%elem_of_nil|].
    simpl in Hfin. apply andb_true_iff in Hfin as [Ha Hds].
    intros a' [->|Ha']%elem_of_cons; [|by apply IH].
    destruct a; try discriminate. by eexists. }
  split; intros a b c (p & ->)%Hall (q & ->)%Hall (r & ->)%Hall;
    cbn [num_ltb numeric]; rewrite !ltb_Fin.
  - apply Qlt_trans.
  - intros Hpr. destruct (Qlt_le_dec p q) as [Hpq|Hqp]; [by left|right].
    by eapply Qle_lt_trans.
Qed.

(** C3, on "M 0 0 L 10 0 L 10 10" and the point (5, 5). *)
Lemma project_keeps_last_closest_witness :
  last_closest (λ item, proj_d (projection item))
    (project_candidates 0 (drawCommandWrappers_ corner_path) (pt 5 5))
    (mkProjectionInfo (mkProjection (pt 10 5) half (Fin 5)) 2) ∧
  ∃ cw, drawCommandWrappers_ corner_path !! 2 = Some cw ∧
    DrawCommandWrapper_project cw (pt 5 5) = Some (mkProjection (pt 10 5) half (Fin 5)) ∧
    last_closest proj_d ((λ bez, bez_project bez (pt 5 5)) <$> sourceBeziers cw)
      (mkProjection (pt 10 5) half (Fin 5)).
Proof.
  apply (project_keeps_last_closest corner_path (pt 5 5)
           (mkProjectionInfo (mkProjection (pt 10 5) half (Fin 5)) 2)).
  - apply finite_ordered. vm_compute. reflexivity.
  - vm_compute. reflexivity.
Defined.

(** C3 as stated fails: (5, 5) is at distance 5 of both lines of
    "M 0 0 L 10 0 L 10 10"; [project] returns the candidate of the later
    line, and a wrapper with the two lines as segments returns the
    projection onto the later segment. *)
Lemma project_tie_keeps_later :
  project_candidates 0 (drawCommandWrappers_ corner_path) (pt 5 5)
    = [mkProjectionInfo (mkProjection (pt 5 0) half (Fin 5)) 1;
       mkProjectionInfo (mkProjection (pt 10 5) half (Fin 5)) 2] ∧
  project corner_path (pt 5 5)
    = Some (mkProjectionInfo (mkProjection (pt 10 5) half (Fin 5)) 2) ∧
  (λ bez, bez_project bez (pt 5 5)) <$> sourceBeziers two_segments
    = [mkProjection (pt 5 0) half (Fin 5); mkProjection (pt 10 5) half (Fin 5)] ∧
  DrawCommandWrapper_project two_segments (pt 5 5)
    = Some (mkProjection (pt 10 5) half (Fin 5)).
Proof. repeat split; vm_compute; reflexivity. Qed.

(** C4 fails on "M 3 4 A 0 5 0 0 0 6 8 L 12 16": the segment of the arc
    runs from (3, 4) to (0, 0), the value of [new Point], instead of the
    declared end (6, 8); the following line starts at (0, 0), and the
    length is 5 + 20 instead of 5 + 10. *)
Theorem zero_radius_arc_ends_at_new_Point :
  (λ st, (sourceBeziers <$> drawCommandWrappers st, st_length st)) <$> derive zero_radius
    = Ok ([ [];
            [[pt 3 4; pt 3 4; pt 0 0; pt 0 0]];
            [[pt 0 0; pt 0 0; pt 12 16; pt 12 16]] ],
          Fin 25) ∧
  currentPoint <$> initInternalState (store zero_radius) [0; 1] = Ok (pt 0 0).
Proof. split; vm_compute; reflexivity. Qed.

(** C5, on the arc of [self] in [arcs] at fraction 1/10000. *)
Lemma interpolate_arc_args_witness :
  let '(h, self, start, end_) := arcs_scene in
  ∃ h' self',
    interpolate show_commands h self start end_ (Fin (1 # 10000)) = Ok (h', self') ∧
    ctor (h' !!! 5) = ctor (h !!! 5) ∧
    points (h' !!! 5) = points (h !!! 5) ∧
    length (args (h' !!! 5)) = length (args (h !!! 5)) ∧
    ∀ k, k < length (args (h !!! 5)) →
      (k ≠ 5 → k ≠ 6 →
       args (h' !!! 5) !! k
         = Some (lerp (arg_at (args (h !!! 1)) k) (arg_at (args (h !!! 3)) k)
                   (Fin (1 # 10000)))) ∧
      (k = 5 ∨ k = 6 → num_eqb (Fin (1 # 10000)) num_zero = true →
       args (h' !!! 5) !! k = Some (arg_at (args (h !!! 1)) k)) ∧
      (k = 5 ∨ k = 6 → num_eqb (Fin (1 # 10000)) num_zero = false →
       args (h' !!! 5) !! k = Some (arg_at (args (h !!! 3)) k)).
Proof.
  destruct arcs_scene as [[[h self] start] end_] eqn:E.
  apply (interpolate_arc_args show_commands h self start end_ (Fin (1 # 10000)) 0 1
           (mkSubPathCommand [4; 5]) (mkSubPathCommand [0; 1]) (mkSubPathCommand [2; 3])
           5 1 3);
    vm_compute in E; injection E as <- <- <- <-;
    try (vm_compute; reflexivity).
  - apply (bool_decide_unpack _). vm_compute. exact I.
  - right. apply (bool_decide_unpack _). vm_compute. exact I.
  - right. apply (bool_decide_unpack _). vm_compute. exact I.
Defined.

(** The flags of the arc of [self]: those of [start] (1, 0) at fraction
    0, those of [end] (0, 1) at fraction 1/10000 and at fraction 1. *)
Example arcs_flags :
  arcs_at (Fin 0)
    = Ok [Fin 0; Fin 0; Fin 2; Fin 2; Fin 0; Fin 1; Fin 0; Fin 10; Fin 0] ∧
  arcs_at (Fin (1 # 10000))
    = Ok [Fin 0; Fin 0; Fin (10001 # 5000); Fin (5001 # 2500); Fin 0; Fin 0; Fin 1;
          Fin (10001 # 1000); Fin 0] ∧
  arcs_at (Fin 1)
    = Ok [Fin 0; Fin 0; Fin 4; Fin 6; Fin 0; Fin 0; Fin 1; Fin 20; Fin 0].
Proof. repeat split; vm_compute; reflexivity. Qed.

(** C6, on the wrappers of "M 0 0 A 5 5 0 0 0 0 0" (no segment) and of
    the arc of [zero_radius] with a segment. *)
Lemma split_guards_witness :
  split (store point_arc) (new_DrawCommandWrapper 1 []) half
    = Ok (store point_arc, new_DrawCommandWrapper 1 []) ∧
  split (store zero_radius) arc_with_segment half
    = Err (UnsupportedOperation "TODO: implement split support for elliptical arcs").
Proof.
  split.
  - apply (proj1 (split_guards (store point_arc) (new_DrawCommandWrapper 1 []) half)).
    reflexivity.
  - apply (proj2 (split_guards (store zero_radius) arc_with_segment half)).
    + discriminate.
    + vm_compute. reflexivity.
Defined.

(** C6 as stated fails on "M 0 0 A 5 5 0 0 0 0 0": the wrapper of the
    arc has no segment, and [split] on it returns without an error. *)
Lemma split_arc_without_segments :
  (λ st, drawCommandWrappers st !! 1) <$> derive point_arc
    = Ok (Some (new_DrawCommandWrapper 1 [])) ∧
  instanceof EllipticalArcCommand (store point_arc) 1 = true ∧
  split (store point_arc) (new_DrawCommandWrapper 1 []) half
    = Ok (store point_arc, new_DrawCommandWrapper 1 []).
Proof. repeat split; vm_compute; reflexivity. Qed.

(** C7, on "M 0 0 L 10 0" against "M 0 0 L 10 0 L 10 10". *)
Lemma interpolate_not_morphable_witness :
  let '(h, self, start) := mismatch_scene in
  interpolate show_commands h self start start half = Ok (h, self).
Proof.
  destruct mismatch_scene as [[h self] start] eqn:E.
  apply interpolate_not_morphable. left.
  vm_compute in E. injection E as <- <- <-. vm_compute. discriminate.
Defined.



(** C9, on the three paths of [arcs] at fraction 1/2. *)
Lemma interpolate_keeps_topology_witness :
  let '(h, self, start, end_) := arcs_scene in
  ∃ h' self',
    interpolate show_commands h self start end_ half = Ok (h', self') ∧
    commands_ self' = commands_ self ∧
    same_shapes h h' ∧
    topology h' self' = topology h self ∧
    isMorphableWith h' self' start = Ok true ∧
    isMorphableWith h' self' end_ = Ok true ∧
    (∀ c, ctor (h !!! c) = EllipticalArcCommand → points (h' !!! c) = points (h !!! c)) ∧
    (∀ c, ctor (h !!! c) ≠ EllipticalArcCommand → args (h' !!! c) = args (h !!! c)) ∧
    (∀ c, length (args (h' !!! c)) = length (args (h !!! c))) ∧
    (∀ c, c ∉ flatten (commands_ self) →
       points (h' !!! c) = points (h !!! c) ∧ args (h' !!! c) = args (h !!! c)) ∧
    (∀ c, onDeleteCommandClick (h' !!! c)
          = onDeleteCommandClick
              ((rebuildInternalState show_commands false h self).1 !!! c)).
Proof.
  destruct arcs_scene as [[[h self] start] end_] eqn:E.
  apply interpolate_keeps_topology;
    vm_compute in E; injection E as <- <- <- <-; vm_compute; reflexivity.
Defined.

(** C9 as stated fails on the three paths of [arcs]: [self] is in sync
    and morphable with [start] and with [end], and the flags of its arc
    (the args at positions 5 and 6) are 0 and 0; after [interpolate] at
    1/2 they are 0 and 1, the flags of [end], and after [interpolate] at
    0 they are 1 and 0, the flags of [start]: flag args are mutated. *)
Lemma interpolate_overwrites_flags :
  let '(h, self, start, end_) := arcs_scene in
  let flags := λ h : gmap loc (DrawCommand jsnum), (args (h !!! 5) !! 5, args (h !!! 5) !! 6) in
  in_sync show_commands h self ∧
  isMorphableWith h self start = Ok true ∧
  isMorphableWith h self end_ = Ok true ∧
  flatten (commands_ self) = [4; 5] ∧
  flags h = (Some (Fin 0), Some (Fin 0)) ∧
  (λ r, flags r.1) <$> interpolate show_commands h self start end_ half
    = Ok (Some (Fin 0), Some (Fin 1)) ∧
  (λ r, flags r.1) <$> interpolate show_commands h self start end_ (Fin 0)
    = Ok (Some (Fin 1), Some (Fin 0)).
Proof. vm_compute. repeat split. Qed.

(** Interpolating "M 0 0 L 0 0" and "M 0 0 L 10 10" at 1/2 moves the
    end of the line of [self] to (5, 5). *)
Example lines_half :
  (let '(h, self, start, end_) := lines_scene in
   (λ '(h', self'), points (h' !!! 5)) <$> interpolate show_commands h self start end_ half)
  = Ok [Some (mkPoint (Fin 0) (Fin 0)); Some (mkPoint (Fin 5) (Fin 5))].
Proof. vm_compute. reflexivity. Qed.


(** The string regenerated for "M 0 0 L 3 4 Z Z" has one Z. *)
Example double_close_string :
  (λ '(h, p), toString (rebuildInternalState show_commands true h p).2)
    <$> construct show_commands (store double_close) "M 0 0 L 3 4 Z Z" [0; 1; 2; 3]
  = Ok "M 0 0 L 3 4 Z".
Proof. vm_compute. reflexivity. Qed.
End Runs.

(** * Further runs on concrete paths *)

Section MoreRuns.
Import Sample.

(** X2, on the three paths of [lines]. *)
Lemma isMorphableWith_reflexive_transitive_witness :
  let '(h, self, start, end_) := lines_scene in
  isMorphableWith h self end_ = Ok true.
Proof.
  destruct lines_scene as [[[h self] start] end_] eqn:E.
  apply (proj2 (isMorphableWith_reflexive_transitive h self start end_));
    vm_compute in E; injection E as <- <- <- <-; vm_compute; reflexivity.
Defined.

(** X3, on the arcs of [arcs]: the arc of [self] loses its args. *)
Lemma isMorphableWith_shapes_only_witness :
  let '(h, self, start, end_) := arcs_scene in
  isMorphableWith (<[5 := set_args (h !!! 5) []]> h) self start = isMorphableWith h self start.
Proof.
  destruct arcs_scene as [[[h self] start] end_] eqn:E.
  apply isMorphableWith_shapes_only. by apply same_shapes_update.
Defined.

(** X4, on "M 0 0 L 10 0 L 10 10". *)
Lemma createSubPathCommands_groups_witness :
  ∃ m rest, spc_commands (mkSubPathCommand [0; 1; 2]) = m :: rest ∧
    instanceof MoveCommand (store corner) m = true ∧
    Forall (λ c, instanceof MoveCommand (store corner) c = false) rest.
Proof.
  apply (createSubPathCommands_groups (store corner) [0; 1; 2]).
  replace (createSubPathCommands (store corner) [0; 1; 2])
    with [mkSubPathCommand [0; 1; 2]] by (vm_compute; reflexivity).
  by left.
Defined.

(** X7, on "M 0 0 L 10 0 L 10 10". *)
Lemma initInternalState_wrappers_in_order_witness :
  (sourceCommand <$> drawCommandWrappers corner_state) `sublist_of` [0; 1; 2] ∧
  length (drawCommandWrappers corner_state) ≤ length [0; 1; 2] ∧
  Forall (λ w, splits w = [] ∧ splitCommands w = []) (drawCommandWrappers corner_state).
Proof.
  apply (initInternalState_wrappers_in_order (store corner)). vm_compute. reflexivity.
Defined.

(** X8, on the wrapper of the first line of "M 0 0 L 10 0 L 10 10". *)
Lemma initInternalState_segments_witness :
  (ctor (store corner !!! sourceCommand line_wrapper) = MoveCommand →
   sourceBeziers line_wrapper = []) ∧
  (splittable (ctor (store corner !!! sourceCommand line_wrapper)) = true →
   ∃ b, sourceBeziers line_wrapper = [b]).
Proof.
  apply (initInternalState_segments (store corner) [0; 1; 2] corner_state).
  - vm_compute. reflexivity.
  - replace (drawCommandWrappers corner_state)
      with [new_DrawCommandWrapper 0 []; line_wrapper;
            new_DrawCommandWrapper 2 [[pt 10 0; pt 10 0; pt 10 10; pt 10 10]]]
      by (vm_compute; reflexivity).
    right. by left.
Defined.

(** X9, on a Move followed by a Line without end point. *)
Lemma absent_end_point_throws_witness :
  initInternalState (store broken) ([0] ++ 1 :: []) = Err TypeError ∧
  construct show_commands (store broken) "M 0 0 L" ([0] ++ 1 :: []) = Err TypeError.
Proof.
  apply (absent_end_point_throws show_commands (store broken) "M 0 0 L" [0] [] 1 broken_state).
  - vm_compute. reflexivity.
  - right. vm_compute. reflexivity.
  - vm_compute. reflexivity.
Defined.

(** X10, on "M 0 0 L 10 0". *)
Lemma construct_result_witness :
  let '(h', p) := line_scene in
  h' = store line ∧
  toString p = "M 0 0 L 10 0" ∧
  originalDrawCommands_ p = [0; 1] ∧
  (∃ st, initInternalState (store line) [0; 1] = Ok st ∧
         drawCommandWrappers_ p = drawCommandWrappers st ∧
         length_ p = st_length st ∧ bounds_ p = bounds st) ∧
  flatten (commands_ p) `sublist_of` [0; 1] ∧
  in_sync show_commands h' p.
Proof.
  destruct line_scene as [h' p] eqn:E.
  apply (construct_result show_commands (store line) h' "M 0 0 L 10 0" [0; 1] p).
  vm_compute in E. injection E as <- <-. vm_compute. reflexivity.
Defined.

(** X12, on "M 0 0 L 10 0 L 10 10" and the point (5, 5). *)
Lemma project_result_of_segment_witness :
  ∃ cw bez, drawCommandWrappers_ corner_path !! 2 = Some cw ∧
            bez ∈ sourceBeziers cw ∧
            mkProjection (pt 10 5) half (Fin 5) = bez_project bez (pt 5 5).
Proof.
  apply (project_result_of_segment corner_path (pt 5 5)
           (mkProjectionInfo (mkProjection (pt 10 5) half (Fin 5)) 2)).
  vm_compute. reflexivity.
Defined.

(** X13, on "M 0 0 A 2 2 0 1 0 10 0" and the point (5, 5). *)
Lemma project_split_on_arc_witness :
  let '(h, p) := arc_scene in
  invoke_split show_commands h p (mkProjectionInfo (mkProjection (pt 5 0) half (Fin 5)) 1)
    = Err (UnsupportedOperation "TODO: implement split support for elliptical arcs").
Proof.
  destruct arc_scene as [h p] eqn:E.
  apply (project_split_on_arc show_commands h p (pt 5 5) _
           (mkWrapper 1 [[pt 0 0; pt 0 0; pt 10 0; pt 10 0]] [] []));
    vm_compute in E; injection E as <- <-; vm_compute; reflexivity.
Defined.

(** X14, on "M 0 0 L 10 0". *)
Lemma execute_calls_witness :
  let '(h, p) := line_scene in
  ∃ ops, [beginPath; moveTo (Fin 0) (Fin 0); lineTo (Fin 10) (Fin 0)] = beginPath :: ops ∧
         call_kind <$> ops = (λ d, Some (ctor (h !!! d))) <$> flatten (commands_ p).
Proof.
  destruct line_scene as [h p] eqn:E.
  apply execute_calls. vm_compute in E. injection E as <- <-. vm_compute. reflexivity.
Defined.

(** X15, on the three paths of [lines] at fraction 1/2. *)
Lemma interpolate_keeps_cached_witness :
  let '(h, self, start, end_) := lines_scene in
  let '(h', self') :=
    value (h, self) (interpolate show_commands h self start end_ half) in
  toString self' = toString self ∧
  length_ self' = length_ self ∧
  bounds_ self' = bounds_ self ∧
  drawCommandWrappers_ self' = drawCommandWrappers_ self ∧
  ∀ point, project self' point = project self point.
Proof.
  destruct lines_scene as [[[h self] start] end_] eqn:E.
  destruct (value _ _) as [h' self'] eqn:E'.
  apply (interpolate_keeps_cached show_commands h h' self self' start end_ half).
  vm_compute in E. injection E as <- <- <- <-.
  vm_compute in E'. injection E' as <- <-. vm_compute. reflexivity.
Defined.

(** X16, on the line of [self] in [lines] at fraction 1/2. *)
Lemma interpolate_points_witness :
  let '(h, self, start, end_) := lines_scene in
  ∃ h' self',
    interpolate show_commands h self start end_ half = Ok (h', self') ∧
    ctor (h' !!! 5) = ctor (h !!! 5) ∧
    args (h' !!! 5) = args (h !!! 5) ∧
    length (points (h' !!! 5)) = length (points (h !!! 5)) ∧
    ∀ k, points (h' !!! 5) !! k =
      match point_at (points (h !!! 1)) k, point_at (points (h !!! 3)) k with
      | Some p, Some q =>
          Some (Some (mkPoint (lerp (pt_x p) (pt_x q) half) (lerp (pt_y p) (pt_y q) half)))
      | _, _ => points (h !!! 5) !! k
      end.
Proof.
  destruct lines_scene as [[[h self] start] end_] eqn:E.
  apply (interpolate_points show_commands h self start end_ half 0 1
           (mkSubPathCommand [4; 5]) (mkSubPathCommand [0; 1]) (mkSubPathCommand [2; 3])
           5 1 3);
    vm_compute in E; injection E as <- <- <- <-;
    try (vm_compute; reflexivity).
  - apply (bool_decide_unpack _). vm_compute. exact I.
  - right. apply (bool_decide_unpack _). vm_compute. exact I.
  - right. apply (bool_decide_unpack _). vm_compute. exact I.
Defined.

Lemma line_in_store : sourceCommand line_wrapper ∈ dom (store line).
Proof. apply elem_of_dom. vm_compute. by eexists. Qed.

(** X17, on the line of "M 0 0 L 10 0" at 1/2. *)
Lemma split_pieces_witness :
  ∃ h' cw', split (store line) line_wrapper half = Ok (h', cw') ∧
    sourceCommand cw' = sourceCommand line_wrapper ∧
    sourceBeziers cw' = sourceBeziers line_wrapper ∧
    splits cw' = splice_insert (splits line_wrapper) (sortedIndex (splits line_wrapper) half) half ∧
    length (splitCommands cw') = S (length (splits cw')) ∧
    NoDup (splitCommands cw') ∧
    (∀ c, c ∈ splitCommands cw' →
       (c ∉ dom (store line)) ∧
       ctor (h' !!! c) = ctor (store line !!! sourceCommand line_wrapper)) ∧
    (∀ c, c ∈ dom (store line) → h' !! c = store line !! c).
Proof.
  apply (split_pieces (store line) line_wrapper half).
  - discriminate.
  - vm_compute. reflexivity.
  - apply line_in_store.
Defined.

(** X18, on the line of "M 0 0 L 10 0" with splits at 1/4 and 3/4, split
    again at 1/2. *)
Lemma split_pieces_boundaries_witness :
  ∃ h' cw', split (store line) quarters_wrapper half = Ok (h', cw') ∧
    let boundaries := num_zero :: splits cw' ++ [num_one] in
    Forall2 (λ c ab,
               bezierToDrawCommand (store line) quarters_wrapper
                 (bez_split [pt 0 0; pt 0 0; pt 10 0; pt 10 0] ab.1 ab.2) = Ok (h' !!! c))
      (splitCommands cw') (zip boundaries (tail boundaries)).
Proof.
  apply (split_pieces_boundaries (store line) quarters_wrapper half
           [pt 0 0; pt 0 0; pt 10 0; pt 10 0] []).
  - reflexivity.
  - vm_compute. reflexivity.
  - apply line_in_store.
Defined.

(** X19, on "M 0 0 L 10 0", split at the projection of (5, 5). *)
Lemma split_then_delete_restores_witness :
  ∃ h1 self1 cw1 c f,
    invoke_split show_commands (store line) line_scene.2 line_info = Ok (h1, self1) ∧
    drawCommandWrappers_ self1 !! split_wrapper line_info = Some cw1 ∧
    splitCommands cw1 !! sortedIndex (splits line_wrapper) (proj_t (projection line_info))
      = Some c ∧
    onDeleteCommandClick (h1 !!! c) = Some f ∧
    f = mkDeleteClosure (split_wrapper line_info)
          (sortedIndex (splits line_wrapper) (proj_t (projection line_info))) ∧
    ∃ h2 self2 cw2,
      invoke_onDeleteCommandClick show_commands h1 self1 f = Ok (h2, self2) ∧
      drawCommandWrappers_ self2
        = <[split_wrapper line_info := cw2]> (drawCommandWrappers_ line_scene.2) ∧
      sourceCommand cw2 = sourceCommand line_wrapper ∧
      sourceBeziers cw2 = sourceBeziers line_wrapper ∧
      splits cw2 = splits line_wrapper ∧
      (splits line_wrapper = [] → splitCommands line_wrapper = [] →
       drawCommandWrappers_ self2 = drawCommandWrappers_ line_scene.2 ∧
       (in_sync show_commands (store line) line_scene.2 →
        commands_ self2 = commands_ line_scene.2)).
Proof.
  apply (split_then_delete_restores show_commands (store line) line_scene.2 line_info
           line_wrapper).
  - vm_compute. reflexivity.
  - discriminate.
  - vm_compute. reflexivity.
  - repeat constructor; apply elem_of_dom; vm_compute; by eexists.
Defined.

(** X20, on the splits 1/4 and 3/4, split at 1/2. *)
Lemma split_keeps_ascending_witness :
  let '(h1, cw1) := quarters_wrapper_split in
  ascending (splits cw1).
Proof.
  destruct quarters_wrapper_split as [h1 cw1] eqn:E.
  apply (split_keeps_ascending (store line) h1 quarters_wrapper cw1 half).
  - vm_compute in E. injection E as <- <-. vm_compute. reflexivity.
  - repeat constructor.
  - intros a Ha Hlt. simpl in Ha.
    apply elem_of_cons in Ha as [->|Ha]; [reflexivity|].
    apply elem_of_cons in Ha as [->|Ha]; [discriminate Hlt|].
    by apply elem_of_nil in Ha.
Defined.

(** X21, on the wrapper of the line after the split at 1/2. *)
Lemma commands_getter_installs_witness :
  let '(h1, cw1) := line_wrapper_split in
  ∃ h', DrawCommandWrapper_commands 1 h1 cw1 = (h', splitCommands cw1) ∧
    (∀ i c, splitCommands cw1 !! i = Some c → S i < length (splitCommands cw1) →
       h' !!! c = set_onDeleteCommandClick (h1 !!! c) (Some (mkDeleteClosure 1 i))) ∧
    (∀ c, last (splitCommands cw1) = Some c → h' !!! c = h1 !!! c) ∧
    (∀ c, c ∉ splitCommands cw1 → h' !!! c = h1 !!! c).
Proof.
  destruct line_wrapper_split as [h1 cw1] eqn:E.
  vm_compute in E. injection E as <- <-.
  apply commands_getter_installs.
  - apply (bool_decide_unpack _). vm_compute. exact I.
  - discriminate.
Defined.

(** X22, on "M 0 0 L 10 0" split at the projection of (5, 5). *)
Lemma invoke_split_result_witness :
  let '(h, p) := line_scene in
  let '(h', p') := line_split_scene in
  let view := (wrappers_commands 0 h' (drawCommandWrappers_ p')).2 in
  in_sync show_commands h' p' ∧
  toString p' = show_commands ((λ c, h' !!! c) <$> view) ∧
  flatten (commands_ p') = fromFirstMove h' view ∧
  length_ p' = length_ p ∧
  bounds_ p' = bounds_ p.
Proof.
  destruct line_scene as [h p] eqn:E. destruct line_split_scene as [h' p'] eqn:E'.
  apply (invoke_split_result show_commands h h' p p' line_info).
  vm_compute in E. injection E as <- <-.
  vm_compute in E'. injection E' as <- <-. vm_compute. reflexivity.
Defined.

(** X24, on "M 0 0 L 10 0" and the point (5, 5). *)
Lemma split_closure_of_constructed_path_witness :
  (∃ h2 p2, invoke_split show_commands (store line) line_scene.2 line_info = Ok (h2, p2)) ∨
  invoke_split show_commands (store line) line_scene.2 line_info
    = Err (UnsupportedOperation "TODO: implement split support for elliptical arcs").
Proof.
  apply (split_closure_of_constructed_path show_commands (store line) (store line)
           "M 0 0 L 10 0" [0; 1] line_scene.2 (pt 5 5) line_info).
  - vm_compute. reflexivity.
  - intros c Hc. apply elem_of_dom.
    apply elem_of_cons in Hc as [->|Hc]; [vm_compute; by eexists|].
    apply elem_of_cons in Hc as [->|Hc]; [vm_compute; by eexists|].
    by apply elem_of_nil in Hc.
  - vm_compute. reflexivity.
Defined.
End MoreRuns.
